(** * Eclipse simulation: the astronomical core of [simulation.js]

    A shallow embedding of the geometry engine, the state propagator, the
    ground-track sampler and the next-local-eclipse search.

    In the main model JavaScript numbers are idealised as real numbers: every
    arithmetic operator is the exact one, [Math.sin], [Math.cos], [Math.asin],
    [Math.acos], [Math.sqrt] are the functions of the real-number library, and
    the non-finite values (NaN, Infinity) are outside the model.  Where a
    property depends on a divisor being non-zero, or on the argument of an
    inverse trigonometric function being in range, that is stated and proved
    explicitly.

    Properties that rounding decides (an end of a range reached, a tolerance,
    a divisor that underflows) are settled in two further models, given
    after the main one: binary64 itself, for evaluations at concrete inputs,
    and real arithmetic with every result rounded, for what holds under every
    rounding to nearest. *)

From Stdlib Require Import Reals Lra Lia ZArith List Bool Psatz SpecFloat.
Import ListNotations.
Open Scope R_scope.

(** ** Numbers *)

Module JsNum.

(** Comparisons as JavaScript evaluates them in an [if]. *)
Definition ltb (a b : R) : bool := if Rlt_dec a b then true else false.
Definition leb (a b : R) : bool := if Rle_dec a b then true else false.
Definition gtb (a b : R) : bool := ltb b a.
Definition geb (a b : R) : bool := leb b a.

(** Truncation towards zero, the integer quotient of [%]. *)
Definition trunc (a : R) : Z :=
  if Rle_dec 0 a then Int_part a else (- Int_part (- a))%Z.

(** [a % n]: the remainder has the sign of the dividend. *)
Definition rem (a n : R) : R := a - n * IZR (trunc (a / n)).

(** [Math.atan2(y, x)]. *)
Definition atan2 (y x : R) : R :=
  if Rlt_dec 0 x then atan (y / x)
  else if Rlt_dec x 0 then
    (if Rle_dec 0 y then atan (y / x) + PI else atan (y / x) - PI)
  else if Rlt_dec 0 y then PI / 2
  else if Rlt_dec y 0 then - (PI / 2)
  else 0.

End JsNum.

Infix "<?" := JsNum.ltb (at level 70, no associativity) : R_scope.
Infix "<=?" := JsNum.leb (at level 70, no associativity) : R_scope.
Infix ">?" := JsNum.gtb (at level 70, no associativity) : R_scope.
Infix ">=?" := JsNum.geb (at level 70, no associativity) : R_scope.
Infix "%%" := JsNum.rem (at level 40, left associativity) : R_scope.

(** ** Constants *)

Definition DEG : R := PI / 180.
Definition RAD : R := 180 / PI.

Definition AU_KM : R := 149597870.7.
Definition EARTH_RADIUS_KM : R := 6371.0.
Definition SUN_RADIUS_KM : R := 695700.0.
Definition MOON_RADIUS_KM : R := 1737.4.
Definition MOON_PERIGEE_KM : R := 363300.
Definition MOON_APOGEE_KM : R := 405500.
Definition LUNAR_INCLINATION_DEG : R := 5.145.
Definition EARTH_ROT_DEG_PER_HOUR : R := 15.041067.
Definition SUN_ECLIPTIC_DEG_PER_HOUR : R := 360 / (365.2422 * 24).
Definition MOON_ECLIPTIC_DEG_PER_HOUR : R := 13.176358 / 24.
Definition MOON_ANOMALY_DEG_PER_HOUR : R := 0.549.
Definition NODE_REGRESSION_DEG_PER_HOUR : R := - (360 / (18.613 * 365.2422 * 24)).

(** ** Scalar helpers *)

Definition normalize180 (angle : R) : R :=
  let value := angle %% 360 in
  let value := if value >? 180 then value - 360 else value in
  let value := if value <? -180 then value + 360 else value in
  value.

Definition normalize360 (angle : R) : R :=
  let value := angle %% 360 in
  let value := if value <? 0 then value + 360 else value in
  value.

Definition clamp (value min max : R) : R := Rmax min (Rmin max value).

(** ** Vector and matrix kernel *)

Module Vec.
Record t : Type := mk { x : R; y : R; z : R }.
End Vec.

Definition addVector (a b : Vec.t) : Vec.t :=
  Vec.mk (Vec.x a + Vec.x b) (Vec.y a + Vec.y b) (Vec.z a + Vec.z b).

Definition scaleVector (vector : Vec.t) (scalar : R) : Vec.t :=
  Vec.mk (Vec.x vector * scalar) (Vec.y vector * scalar) (Vec.z vector * scalar).

Definition dotVector (a b : Vec.t) : R :=
  Vec.x a * Vec.x b + Vec.y a * Vec.y b + Vec.z a * Vec.z b.

Definition crossVector (a b : Vec.t) : Vec.t :=
  Vec.mk (Vec.y a * Vec.z b - Vec.z a * Vec.y b)
         (Vec.z a * Vec.x b - Vec.x a * Vec.z b)
         (Vec.x a * Vec.y b - Vec.y a * Vec.x b).

Definition magnitudeVector (vector : Vec.t) : R := sqrt (dotVector vector vector).

Definition normalizeVector (vector : Vec.t) : Vec.t :=
  let norm := magnitudeVector vector in
  if norm <? 1e-12 then Vec.mk 1 0 0 else scaleVector vector (1 / norm).

(** A 3x3 matrix, as the array of its three rows. *)
Definition Matrix3 : Type := (Vec.t * Vec.t * Vec.t)%type.

Definition rotationMatrixX (angleDeg : R) : Matrix3 :=
  let angle := angleDeg * DEG in
  let c := cos angle in
  let s := sin angle in
  (Vec.mk 1 0 0, Vec.mk 0 c (- s), Vec.mk 0 s c).

Definition rotationMatrixZ (angleDeg : R) : Matrix3 :=
  let angle := angleDeg * DEG in
  let c := cos angle in
  let s := sin angle in
  (Vec.mk c (- s) 0, Vec.mk s c 0, Vec.mk 0 0 1).

Definition applyMatrix3 (matrix : Matrix3) (vector : Vec.t) : Vec.t :=
  let '(r0, r1, r2) := matrix in
  Vec.mk (dotVector r0 vector) (dotVector r1 vector) (dotVector r2 vector).

Definition sphericalToCartesian (distance lonDeg latDeg : R) : Vec.t :=
  let lon := lonDeg * DEG in
  let lat := latDeg * DEG in
  let cosLat := cos lat in
  Vec.mk (distance * cosLat * cos lon) (distance * cosLat * sin lon) (distance * sin lat).

Module Geo.
Record t : Type := mk { latDeg : R; lonDeg : R }.
End Geo.

Definition vectorToLatLon (vector : Vec.t) : Geo.t :=
  let norm := magnitudeVector vector in
  let latDeg := asin (clamp (Vec.z vector / norm) (-1) 1) * RAD in
  let lonDeg := normalize180 (JsNum.atan2 (Vec.y vector) (Vec.x vector) * RAD) in
  Geo.mk latDeg lonDeg.

Definition vectorToEarthLatLon (vector : Vec.t) (gmstDeg : R) : Geo.t :=
  let norm := magnitudeVector vector in
  let dec := asin (clamp (Vec.z vector / norm) (-1) 1) * RAD in
  let ra := normalize360 (JsNum.atan2 (Vec.y vector) (Vec.x vector) * RAD) in
  Geo.mk dec (normalize180 (ra - gmstDeg)).

Definition angularSeparationFromVectors (a b : Vec.t) : R :=
  let aNorm := normalizeVector a in
  let bNorm := normalizeVector b in
  let cosSeparation := clamp (dotVector aNorm bNorm) (-1) 1 in
  acos cosSeparation * RAD.

(** [null] is [None].  [candidates] is the filtered array, [Math.min(...)] its
    least element. *)
Definition lineSphereIntersection (origin direction : Vec.t) (radiusKm : R)
  : option Vec.t :=
  let b := 2 * dotVector origin direction in
  let c := dotVector origin origin - radiusKm * radiusKm in
  let discriminant := b * b - 4 * c in
  if discriminant <? 0 then None
  else
    let sqrtDisc := sqrt discriminant in
    let t1 := (- b - sqrtDisc) / 2 in
    let t2 := (- b + sqrtDisc) / 2 in
    let candidates := filter (fun value => value >? 0) [t1; t2] in
    match candidates with
    | [] => None
    | first :: rest =>
        let t := fold_left Rmin rest first in
        Some (addVector origin (scaleVector direction t))
    end.

Definition greatCircleDistanceKm (latA lonA latB lonB : R) : R :=
  let lat1 := latA * DEG in
  let lat2 := latB * DEG in
  let dLat := (latB - latA) * DEG in
  let dLon := (lonB - lonA) * DEG in
  let sinHalfLat := sin (dLat / 2) in
  let sinHalfLon := sin (dLon / 2) in
  let a := sinHalfLat * sinHalfLat + cos lat1 * cos lat2 * sinHalfLon * sinHalfLon in
  let c := 2 * JsNum.atan2 (sqrt a) (sqrt (1 - a)) in
  EARTH_RADIUS_KM * c.

(** ** Photometry and classification *)

(** The four strings [classifyEclipse] returns: no solar eclipse, total,
    annular and partial solar eclipse. *)
Inductive EclipseClass : Type :=
| NoEclipse
| TotalEclipse
| AnnularEclipse
| PartialEclipse.

Definition classifyEclipse
  (bestSeparationDeg sunRadiusDeg moonRadiusDeg depth : R) (axisHitsEarth : bool)
  : EclipseClass :=
  if depth <=? 0.0005 then NoEclipse
  else
    let radiusDiff := Rabs (moonRadiusDeg - sunRadiusDeg) in
    if axisHitsEarth && (bestSeparationDeg <=? radiusDiff) then
      (if moonRadiusDeg >=? sunRadiusDeg then TotalEclipse else AnnularEclipse)
    else if bestSeparationDeg <? sunRadiusDeg + moonRadiusDeg then PartialEclipse
    else NoEclipse.

Definition overlapFraction (sunRadiusDeg moonRadiusDeg separationDeg : R) : R :=
  let r1 := sunRadiusDeg in
  let r2 := moonRadiusDeg in
  let d := separationDeg in
  if d >=? r1 + r2 then 0
  else if d <=? Rabs (r1 - r2) then
    (if r2 >=? r1 then 1 else clamp ((r2 * r2) / (r1 * r1)) 0 1)
  else
    let r1Sq := r1 * r1 in
    let r2Sq := r2 * r2 in
    let alpha := 2 * acos (clamp ((d * d + r1Sq - r2Sq) / (2 * d * r1)) (-1) 1) in
    let beta := 2 * acos (clamp ((d * d + r2Sq - r1Sq) / (2 * d * r2)) (-1) 1) in
    let area :=
      0.5 * r1Sq * (alpha - sin alpha) + 0.5 * r2Sq * (beta - sin beta) in
    clamp (area / (PI * r1Sq)) 0 1.

(** The same function with the two partial operations made explicit: a
    division whose divisor is zero and an [acos] whose argument is outside
    [-1, 1] leave the real numbers (JavaScript yields Infinity or NaN), and
    the evaluation stops with [None]. *)
Module Checked.

Definition div (a b : R) : option R :=
  if Req_dec_T b 0 then None else Some (a / b).

Definition acos (a : R) : option R :=
  if (-1 <=? a) && (a <=? 1) then Some (Ratan.acos a) else None.

Definition bind {A B : Type} (m : option A) (k : A -> option B) : option B :=
  match m with
  | Some a => k a
  | None => None
  end.

End Checked.

Notation "x <- m ;; k" := (Checked.bind m (fun x => k))
  (at level 61, m at next level, right associativity).

Definition overlapFractionChecked (sunRadiusDeg moonRadiusDeg separationDeg : R)
  : option R :=
  let r1 := sunRadiusDeg in
  let r2 := moonRadiusDeg in
  let d := separationDeg in
  if d >=? r1 + r2 then Some 0
  else if d <=? Rabs (r1 - r2) then
    (if r2 >=? r1 then Some 1
     else q <- Checked.div (r2 * r2) (r1 * r1) ;; Some (clamp q 0 1))
  else
    let r1Sq := r1 * r1 in
    let r2Sq := r2 * r2 in
    qa <- Checked.div (d * d + r1Sq - r2Sq) (2 * d * r1) ;;
    ha <- Checked.acos (clamp qa (-1) 1) ;;
    let alpha := 2 * ha in
    qb <- Checked.div (d * d + r2Sq - r1Sq) (2 * d * r2) ;;
    hb <- Checked.acos (clamp qb (-1) 1) ;;
    let beta := 2 * hb in
    let area :=
      0.5 * r1Sq * (alpha - sin alpha) + 0.5 * r2Sq * (beta - sin beta) in
    q <- Checked.div area (PI * r1Sq) ;;
    Some (clamp q 0 1).

Definition solveFootprintRadiusDeg (parallaxDeg targetOffsetDeg : R) : R :=
  if (parallaxDeg <=? 0) || (targetOffsetDeg <=? 0) then 0
  else
    let numerator := sin (targetOffsetDeg * DEG) in
    let denominator := sin (parallaxDeg * DEG) in
    if denominator <=? 0 then 0
    else
      let ratio := numerator / denominator in
      if ratio >=? 1 then 89.5
      else asin (clamp ratio (-1) 1) * RAD.

(** ** Ephemeris *)

Module Sun.
Record t : Type := mk { lonDeg : R; distanceAu : R; meanAnomalyDeg : R }.
End Sun.

Definition sunEclipticCoordinates (t : R) : Sun.t :=
  let l0 := normalize360 (280.46646 + 36000.76983 * t + 0.0003032 * t * t) in
  let meanAnomalyDeg :=
    normalize360
      (357.52911 + 35999.05029 * t - 0.0001537 * t * t + (t * t * t) / 24490000) in
  let meanAnomaly := meanAnomalyDeg * DEG in
  let equationOfCenter :=
    (1.914602 - 0.004817 * t - 0.000014 * t * t) * sin meanAnomaly +
    (0.019993 - 0.000101 * t) * sin (2 * meanAnomaly) +
    0.000289 * sin (3 * meanAnomaly) in
  let lonDeg := normalize360 (l0 + equationOfCenter) in
  let distanceAu :=
    1.00014 - 0.01671 * cos meanAnomaly - 0.00014 * cos (2 * meanAnomaly) in
  Sun.mk lonDeg distanceAu meanAnomalyDeg.

Definition meanObliquityDeg (t : R) : R :=
  23.439291 - 0.0130042 * t - 0.00000016 * t * t + 0.000000504 * t * t * t.

Definition julianCenturies (julianDay : R) : R := (julianDay - 2451545.0) / 36525.

(** A [Date] is its time value, the whole number of milliseconds since the
    epoch ([getTime]); the dates beyond the range of [Date] are not modelled. *)
Definition Date : Type := Z.

(** [new Date(ms)] keeps the integral part of its argument. *)
Definition newDate (ms : R) : Date := JsNum.trunc ms.

Definition toJulianDate (date : Date) : R := IZR date / 86400000 + 2440587.5.

Definition greenwichSiderealDeg (julianDay : R) : R :=
  let t := julianCenturies julianDay in
  let theta :=
    280.46061837 + 360.98564736629 * (julianDay - 2451545.0) +
    0.000387933 * t * t - (t * t * t) / 38710000 in
  normalize360 theta.

(** ** Parameters and states *)

Module Params.
Record t : Type := mk {
  ascendingNodeLon : R;
  sunEclipticLon : R;
  moonNodePhase : R;
  moonDistanceMode : R;
  moonAnomaly : R;
  observerLat : R;
  observerLon : R;
  observerTilt : R;
  earthRotation : R
}.
End Params.

(** The object [deriveSimulationState] returns: the spread of [base] with the
    propagated fields written over it. *)
Module State.
Record t : Type := mk {
  moonDistanceMode : R;
  observerLat : R;
  observerLon : R;
  observerTilt : R;
  simHours : R;
  date : Date;
  julianDay : R;
  gmst : R;
  earthRotation : R;
  sunEclipticLon : R;
  ascendingNodeLon : R;
  descendingNodeLon : R;
  moonNodePhase : R;
  moonEclipticLon : R;
  moonAnomaly : R
}.

(** A state read as the [base] argument of [deriveSimulationState]: the nine
    parameter fields of the object. *)
Definition asParams (s : t) : Params.t :=
  Params.mk (ascendingNodeLon s) (sunEclipticLon s) (moonNodePhase s)
            (moonDistanceMode s) (moonAnomaly s) (observerLat s)
            (observerLon s) (observerTilt s) (earthRotation s).
End State.

Definition deriveSimulationState (base : Params.t) (simHours : R) (startDate : Date)
  : State.t :=
  let date := newDate (IZR startDate + simHours * 3600000) in
  let julianDay := toJulianDate date in
  let gmst := greenwichSiderealDeg julianDay in
  let earthRotation :=
    normalize360 (Params.earthRotation base + simHours * EARTH_ROT_DEG_PER_HOUR) in
  let sunEclipticLon :=
    normalize360 (Params.sunEclipticLon base + simHours * SUN_ECLIPTIC_DEG_PER_HOUR) in
  let ascendingNodeLon :=
    normalize360 (Params.ascendingNodeLon base + simHours * NODE_REGRESSION_DEG_PER_HOUR) in
  let moonNodePhase :=
    normalize180
      (Params.moonNodePhase base +
       simHours * (MOON_ECLIPTIC_DEG_PER_HOUR - NODE_REGRESSION_DEG_PER_HOUR)) in
  let moonEclipticLon := normalize360 (ascendingNodeLon + moonNodePhase) in
  let moonAnomaly :=
    normalize360 (Params.moonAnomaly base + simHours * MOON_ANOMALY_DEG_PER_HOUR) in
  {| State.moonDistanceMode := Params.moonDistanceMode base;
     State.observerLat := Params.observerLat base;
     State.observerLon := Params.observerLon base;
     State.observerTilt := Params.observerTilt base;
     State.simHours := simHours;
     State.date := date;
     State.julianDay := julianDay;
     State.gmst := gmst;
     State.earthRotation := earthRotation;
     State.sunEclipticLon := sunEclipticLon;
     State.ascendingNodeLon := ascendingNodeLon;
     State.descendingNodeLon := normalize360 (ascendingNodeLon + 180);
     State.moonNodePhase := moonNodePhase;
     State.moonEclipticLon := moonEclipticLon;
     State.moonAnomaly := moonAnomaly |}.

(** ** Geometry engine *)

Module Frames.
Record ecliptic : Type := mkEcliptic {
  sunFromEarthKm : Vec.t;
  moonFromEarthKm : Vec.t;
  earthFromSunKm : Vec.t;
  moonFromSunKm : Vec.t;
  nodeAscendingUnit : Vec.t;
  nodeDescendingUnit : Vec.t;
  moonOrbitNormalUnit : Vec.t
}.
Record pair : Type := mkPair { sunKm : Vec.t; moonKm : Vec.t }.
Record t : Type := mk { ecl : ecliptic; equatorial : pair; earthFixed : pair }.
End Frames.

Definition buildGeometryFrames
  (correctedSunLon correctedMoonLon correctedMoonLat correctedNodeLon
   moonDistanceKm sunDistanceKm epsilonDeg gmstDeg : R) : Frames.t :=
  let sunFromEarthEcliptic := sphericalToCartesian sunDistanceKm correctedSunLon 0 in
  let moonFromEarthEcliptic :=
    sphericalToCartesian moonDistanceKm correctedMoonLon correctedMoonLat in
  let earthFromSunEcliptic := scaleVector sunFromEarthEcliptic (-1) in
  let moonFromSunEcliptic := addVector earthFromSunEcliptic moonFromEarthEcliptic in
  let eclipticToEquatorialMatrix := rotationMatrixX epsilonDeg in
  let equatorialToEarthFixedMatrix := rotationMatrixZ (- gmstDeg) in
  let sunFromEarthEquatorial :=
    applyMatrix3 eclipticToEquatorialMatrix sunFromEarthEcliptic in
  let moonFromEarthEquatorial :=
    applyMatrix3 eclipticToEquatorialMatrix moonFromEarthEcliptic in
  let sunFromEarthFixed :=
    applyMatrix3 equatorialToEarthFixedMatrix sunFromEarthEquatorial in
  let moonFromEarthFixed :=
    applyMatrix3 equatorialToEarthFixedMatrix moonFromEarthEquatorial in
  let nodeAscendingEcliptic := sphericalToCartesian 1 correctedNodeLon 0 in
  let nodeDescendingEcliptic := scaleVector nodeAscendingEcliptic (-1) in
  let inclination := LUNAR_INCLINATION_DEG * DEG in
  let omega := correctedNodeLon * DEG in
  let moonOrbitNormalEcliptic :=
    normalizeVector
      (Vec.mk (sin inclination * sin omega)
              (- sin inclination * cos omega)
              (cos inclination)) in
  Frames.mk
    (Frames.mkEcliptic sunFromEarthEcliptic moonFromEarthEcliptic
       earthFromSunEcliptic moonFromSunEcliptic nodeAscendingEcliptic
       nodeDescendingEcliptic moonOrbitNormalEcliptic)
    (Frames.mkPair sunFromEarthEquatorial moonFromEarthEquatorial)
    (Frames.mkPair sunFromEarthFixed moonFromEarthFixed).

Module Axis.
Record t : Type := mk { hitsEarth : bool; latDeg : R; lonDeg : R }.
End Axis.

Definition shadowAxisOnEarth (sunVector moonVector : Vec.t) (gmstDeg : R) : Axis.t :=
  let axisDirection := normalizeVector (scaleVector sunVector (-1)) in
  let intersection := lineSphereIntersection moonVector axisDirection EARTH_RADIUS_KM in
  let hitsEarth := match intersection with Some _ => true | None => false end in
  let surfacePoint :=
    match intersection with
    | Some point => point
    | None =>
        let tClosest := - dotVector moonVector axisDirection in
        let closestPoint := addVector moonVector (scaleVector axisDirection tClosest) in
        let norm := magnitudeVector closestPoint in
        if norm <? 1e-9 then
          let fallback := normalizeVector (scaleVector moonVector (-1)) in
          scaleVector fallback EARTH_RADIUS_KM
        else scaleVector closestPoint (EARTH_RADIUS_KM / norm)
    end in
  let geo := vectorToEarthLatLon surfacePoint gmstDeg in
  Axis.mk hitsEarth (Geo.latDeg geo) (Geo.lonDeg geo).

Module SunView.
Record t : Type := mk {
  offsetXDeg : R;
  offsetYDeg : R;
  earthAngularRadiusDeg : R;
  moonAngularRadiusDeg : R
}.
End SunView.

Definition sunViewProjection (sunVector moonVector : Vec.t) : SunView.t :=
  let earthFromSun := normalizeVector (scaleVector sunVector (-1)) in
  let moonFromSun := normalizeVector (addVector moonVector (scaleVector sunVector (-1))) in
  let reference :=
    if Rabs (Vec.z earthFromSun) >? 0.93 then Vec.mk 1 0 0 else Vec.mk 0 0 1 in
  let axisX := crossVector reference earthFromSun in
  let axisX := normalizeVector axisX in
  let axisY := normalizeVector (crossVector earthFromSun axisX) in
  let x :=
    JsNum.atan2 (dotVector moonFromSun axisX) (dotVector moonFromSun earthFromSun) * RAD in
  let y :=
    JsNum.atan2 (dotVector moonFromSun axisY) (dotVector moonFromSun earthFromSun) * RAD in
  let moonDistanceFromSunKm :=
    magnitudeVector (addVector moonVector (scaleVector sunVector (-1))) in
  let earthAngularRadiusDeg :=
    asin (clamp (EARTH_RADIUS_KM / magnitudeVector sunVector) (-1) 1) * RAD in
  let moonAngularRadiusDeg :=
    asin (clamp (MOON_RADIUS_KM / moonDistanceFromSunKm) (-1) 1) * RAD in
  SunView.mk x y earthAngularRadiusDeg moonAngularRadiusDeg.

Module Astro.
Record t : Type := mk {
  gmstDeg : R;
  sunEclipticLon : R;
  moonEclipticLon : R;
  moonNodePhase : R;
  moonAnomaly : R;
  ascendingNodeLon : R;
  descendingNodeLon : R;
  moonDistanceKm : R;
  sunDistanceKm : R;
  sunToNode : R;
  moonToSun : R;
  sunAngularRadiusDeg : R;
  moonAngularRadiusDeg : R;
  moonEclipticLat : R;
  lunarInclinationDeg : R;
  earthAngularRadiusFromSunDeg : R;
  moonAngularRadiusFromSunDeg : R;
  sunViewOffsetXDeg : R;
  sunViewOffsetYDeg : R;
  separationDeg : R;
  bestSeparationDeg : R;
  depth : R;
  subSolarLat : R;
  subSolarLon : R;
  subLunarLat : R;
  subLunarLon : R;
  centralLat : R;
  centralLon : R;
  axisHitsEarth : bool;
  umbraRadiusDeg : R;
  penumbraRadiusDeg : R;
  geometry : Frames.t;
  eclipseClass : EclipseClass
}.
End Astro.

Definition computeAstronomy (julianDay : R) (controls : State.t) (rotationOffsetDeg : R)
  : Astro.t :=
  let t := julianCenturies julianDay in
  let epsilonDeg := meanObliquityDeg t in
  let gmstDeg := normalize360 (greenwichSiderealDeg julianDay + rotationOffsetDeg) in
  let sun := sunEclipticCoordinates t in
  let correctedSunLon := normalize360 (State.sunEclipticLon controls) in
  let correctedNodeLon := normalize360 (State.ascendingNodeLon controls) in
  let correctedMoonLon := normalize360 (State.moonEclipticLon controls) in
  let correctedMoonLat :=
    clamp
      (LUNAR_INCLINATION_DEG * sin (normalize180 (correctedMoonLon - correctedNodeLon) * DEG))
      (-12) 12 in
  let moonDistanceKm :=
    clamp
      (MOON_PERIGEE_KM + State.moonDistanceMode controls * (MOON_APOGEE_KM - MOON_PERIGEE_KM))
      MOON_PERIGEE_KM MOON_APOGEE_KM in
  let sunDistanceKm := Sun.distanceAu sun * AU_KM in
  let geometry :=
    buildGeometryFrames correctedSunLon correctedMoonLon correctedMoonLat
      correctedNodeLon moonDistanceKm sunDistanceKm epsilonDeg gmstDeg in
  let subSolarGeo := vectorToLatLon (Frames.sunKm (Frames.earthFixed geometry)) in
  let subLunarGeo := vectorToLatLon (Frames.moonKm (Frames.earthFixed geometry)) in
  let subSolarLat := Geo.latDeg subSolarGeo in
  let subSolarLon := Geo.lonDeg subSolarGeo in
  let subLunarLat := Geo.latDeg subLunarGeo in
  let subLunarLon := Geo.lonDeg subLunarGeo in
  let moonToSun := normalize180 (correctedMoonLon - correctedSunLon) in
  let moonNodePhase := normalize180 (correctedMoonLon - correctedNodeLon) in
  let sunToNode := normalize180 (correctedSunLon - correctedNodeLon) in
  let sunAngularRadiusDeg := asin (clamp (SUN_RADIUS_KM / sunDistanceKm) (-1) 1) * RAD in
  let moonAngularRadiusDeg := asin (clamp (MOON_RADIUS_KM / moonDistanceKm) (-1) 1) * RAD in
  let moonParallaxDeg := asin (clamp (EARTH_RADIUS_KM / moonDistanceKm) (-1) 1) * RAD in
  let separationDeg :=
    angularSeparationFromVectors
      (Frames.sunKm (Frames.equatorial geometry))
      (Frames.moonKm (Frames.equatorial geometry)) in
  let bestSeparationDeg := Rmax 0 (separationDeg - moonParallaxDeg) in
  let depth := overlapFraction sunAngularRadiusDeg moonAngularRadiusDeg bestSeparationDeg in
  let sunVector := Frames.sunKm (Frames.equatorial geometry) in
  let moonVector := Frames.moonKm (Frames.equatorial geometry) in
  let sunView := sunViewProjection sunVector moonVector in
  let penumbraRadiusDeg :=
    solveFootprintRadiusDeg moonParallaxDeg (sunAngularRadiusDeg + moonAngularRadiusDeg) in
  let coreRadiusDeg :=
    solveFootprintRadiusDeg moonParallaxDeg (Rabs (sunAngularRadiusDeg - moonAngularRadiusDeg)) in
  let penumbraRadiusDeg := if depth <=? 0 then 0 else penumbraRadiusDeg in
  let coreRadiusDeg := if depth <=? 0 then 0 else coreRadiusDeg in
  let shadowAxis := shadowAxisOnEarth sunVector moonVector gmstDeg in
  {| Astro.gmstDeg := gmstDeg;
     Astro.sunEclipticLon := correctedSunLon;
     Astro.moonEclipticLon := correctedMoonLon;
     Astro.moonNodePhase := moonNodePhase;
     Astro.moonAnomaly := normalize360 (State.moonAnomaly controls);
     Astro.ascendingNodeLon := correctedNodeLon;
     Astro.descendingNodeLon := normalize360 (correctedNodeLon + 180);
     Astro.moonDistanceKm := moonDistanceKm;
     Astro.sunDistanceKm := sunDistanceKm;
     Astro.sunToNode := sunToNode;
     Astro.moonToSun := moonToSun;
     Astro.sunAngularRadiusDeg := sunAngularRadiusDeg;
     Astro.moonAngularRadiusDeg := moonAngularRadiusDeg;
     Astro.moonEclipticLat := correctedMoonLat;
     Astro.lunarInclinationDeg := LUNAR_INCLINATION_DEG;
     Astro.earthAngularRadiusFromSunDeg := SunView.earthAngularRadiusDeg sunView;
     Astro.moonAngularRadiusFromSunDeg := SunView.moonAngularRadiusDeg sunView;
     Astro.sunViewOffsetXDeg := SunView.offsetXDeg sunView;
     Astro.sunViewOffsetYDeg := SunView.offsetYDeg sunView;
     Astro.separationDeg := separationDeg;
     Astro.bestSeparationDeg := bestSeparationDeg;
     Astro.depth := depth;
     Astro.subSolarLat := subSolarLat;
     Astro.subSolarLon := subSolarLon;
     Astro.subLunarLat := subLunarLat;
     Astro.subLunarLon := subLunarLon;
     Astro.centralLat := Axis.latDeg shadowAxis;
     Astro.centralLon := Axis.lonDeg shadowAxis;
     Astro.axisHitsEarth := Axis.hitsEarth shadowAxis;
     Astro.umbraRadiusDeg := if Axis.hitsEarth shadowAxis then coreRadiusDeg else 0;
     Astro.penumbraRadiusDeg := penumbraRadiusDeg;
     Astro.geometry := geometry;
     Astro.eclipseClass :=
       classifyEclipse bestSeparationDeg sunAngularRadiusDeg moonAngularRadiusDeg
         depth (Axis.hitsEarth shadowAxis) |}.

(** The parallax [computeAstronomy] computes and does not return. *)
Definition moonParallaxDegOf (a : Astro.t) : R :=
  asin (clamp (EARTH_RADIUS_KM / Astro.moonDistanceKm a) (-1) 1) * RAD.

(** ** Ground-track sampler *)

Module Point.
Record t : Type := mk { lon : R; lat : R }.
End Point.

(** The object [sampleControls] of one turn of the loop. *)
Definition sampleControls (controls : State.t) (hour : R) : State.t :=
  let sunEclipticLon :=
    normalize360 (State.sunEclipticLon controls + hour * SUN_ECLIPTIC_DEG_PER_HOUR) in
  let ascendingNodeLon :=
    normalize360 (State.ascendingNodeLon controls + hour * NODE_REGRESSION_DEG_PER_HOUR) in
  let moonNodePhase :=
    normalize180
      (State.moonNodePhase controls +
       hour * (MOON_ECLIPTIC_DEG_PER_HOUR - NODE_REGRESSION_DEG_PER_HOUR)) in
  let moonAnomaly :=
    normalize360 (State.moonAnomaly controls + hour * MOON_ANOMALY_DEG_PER_HOUR) in
  {| State.moonDistanceMode := State.moonDistanceMode controls;
     State.observerLat := State.observerLat controls;
     State.observerLon := State.observerLon controls;
     State.observerTilt := State.observerTilt controls;
     State.simHours := State.simHours controls;
     State.date := State.date controls;
     State.julianDay := State.julianDay controls;
     State.gmst := State.gmst controls;
     State.earthRotation := State.earthRotation controls;
     State.sunEclipticLon := sunEclipticLon;
     State.ascendingNodeLon := ascendingNodeLon;
     State.descendingNodeLon := State.descendingNodeLon controls;
     State.moonNodePhase := moonNodePhase;
     State.moonEclipticLon := normalize360 (ascendingNodeLon + moonNodePhase);
     State.moonAnomaly := moonAnomaly |}.

(** The evaluation of the engine at one offset. *)
Definition trackSample (julianDay : R) (controls : State.t) (rotationOffsetDeg hour : R)
  : Astro.t :=
  computeAstronomy (julianDay + hour / 24) (sampleControls controls hour) rotationOffsetDeg.

(** [for (let hour = -6; hour <= 6.001; hour += 0.5)], with the number of
    turns left as fuel. *)
Fixpoint groundTrackLoop (fuel : nat) (julianDay : R) (controls : State.t)
  (rotationOffsetDeg hour : R) (points : list Point.t) : list Point.t :=
  match fuel with
  | O => points
  | S fuel' =>
      if hour <=? 6.001 then
        let sample := trackSample julianDay controls rotationOffsetDeg hour in
        let points :=
          if Astro.depth sample >? 0.001
          then points ++ [Point.mk (Astro.centralLon sample) (Astro.centralLat sample)]
          else points in
        groundTrackLoop fuel' julianDay controls rotationOffsetDeg (hour + 0.5) points
      else points
  end.

Definition TRACK_FUEL : nat := 32.

Definition buildGroundTrack (julianDay : R) (controls : State.t) (rotationOffsetDeg : R)
  : list Point.t :=
  groundTrackLoop TRACK_FUEL julianDay controls rotationOffsetDeg (-6) [].

(** ** The derived model *)

(** [{...state, ...astro, track, observerToShadowKm, shadowRadiusDeg}]: a field
    that both [state] and [astro] have is read from [astro]. *)
Module Model.
Record t : Type := mk {
  state : State.t;
  astro : Astro.t;
  track : list Point.t;
  observerToShadowKm : R;
  shadowRadiusDeg : R
}.

Definition depth (m : t) : R := Astro.depth (astro m).
Definition umbraRadiusDeg (m : t) : R := Astro.umbraRadiusDeg (astro m).
Definition penumbraRadiusDeg (m : t) : R := Astro.penumbraRadiusDeg (astro m).
Definition centralLon (m : t) : R := Astro.centralLon (astro m).
Definition subSolarLon (m : t) : R := Astro.subSolarLon (astro m).
Definition subLunarLon (m : t) : R := Astro.subLunarLon (astro m).
Definition moonToSun (m : t) : R := Astro.moonToSun (astro m).
Definition moonNodePhase (m : t) : R := Astro.moonNodePhase (astro m).
Definition ascendingNodeLon (m : t) : R := Astro.ascendingNodeLon (astro m).
Definition sunEclipticLon (m : t) : R := Astro.sunEclipticLon (astro m).
Definition moonEclipticLon (m : t) : R := Astro.moonEclipticLon (astro m).
Definition earthRotation (m : t) : R := State.earthRotation (state m).
End Model.

Definition deriveModel (state : State.t) : Model.t :=
  let rotationOffsetDeg := normalize180 (State.earthRotation state - State.gmst state) in
  let astro := computeAstronomy (State.julianDay state) state rotationOffsetDeg in
  let track := buildGroundTrack (State.julianDay state) state rotationOffsetDeg in
  let observerToShadowKm :=
    greatCircleDistanceKm (State.observerLat state) (State.observerLon state)
      (Astro.centralLat astro) (Astro.centralLon astro) in
  Model.mk state astro track observerToShadowKm (Astro.penumbraRadiusDeg astro).

(** ** Next-local-eclipse search *)

(** The three statements that recur in the search: propagate, take the
    rotation offset, evaluate the engine. *)
Definition astroAt (base : Params.t) (startDate : Date) (t : R) : State.t * Astro.t :=
  let state := deriveSimulationState base t startDate in
  let rotationOffsetDeg := normalize180 (State.earthRotation state - State.gmst state) in
  let astro := computeAstronomy (State.julianDay state) state rotationOffsetDeg in
  (state, astro).

Definition NEW_MOON_RATE : R := MOON_ECLIPTIC_DEG_PER_HOUR - SUN_ECLIPTIC_DEG_PER_HOUR.

(** [for (let j = 0; j < 3; j++)], [turns] being the turns left. *)
Fixpoint refineNewMoon (turns : nat) (base : Params.t) (startDate : Date) (t : R) : R :=
  match turns with
  | O => t
  | S turns' =>
      let astro := snd (astroAt base startDate t) in
      refineNewMoon turns' base startDate (t - Astro.moonToSun astro / NEW_MOON_RATE)
  end.

(** The variables of the scan: [minDistance] ([None] is [Infinity]), [bestT]
    and [found]. *)
Module Scan.
Record t : Type := mk { minDistance : option R; bestT : R; found : bool }.
End Scan.

(** [x || 0] on a number. *)
Definition orZero (x : R) : R := if Req_dec_T x 0 then 0 else x.

Definition scanStep (base : Params.t) (startDate : Date) (t hour : R) (s : Scan.t)
  : Scan.t :=
  let scanT := t + hour in
  let '(scanState, scanAstro) := astroAt base startDate scanT in
  let observerToShadowKm :=
    greatCircleDistanceKm (State.observerLat scanState) (State.observerLon scanState)
      (Astro.centralLat scanAstro) (Astro.centralLon scanAstro) in
  let penumbraRadiusKm :=
    6371.0 * Rmax 0 (orZero (Astro.penumbraRadiusDeg scanAstro)) * DEG in
  if observerToShadowKm <=? penumbraRadiusKm + 25 then
    let closer :=
      match Scan.minDistance s with
      | None => true
      | Some m => observerToShadowKm <? m
      end in
    if closer then Scan.mk (Some observerToShadowKm) scanT true
    else Scan.mk (Scan.minDistance s) (Scan.bestT s) true
  else s.

(** [for (let hour = -6; hour <= 6; hour += 0.1)], with fuel. *)
Fixpoint scanLoop (fuel : nat) (base : Params.t) (startDate : Date) (t hour : R)
  (s : Scan.t) : Scan.t :=
  match fuel with
  | O => s
  | S fuel' =>
      if hour <=? 6 then
        scanLoop fuel' base startDate t (hour + 0.1) (scanStep base startDate t hour s)
      else s
  end.

Definition SCAN_FUEL : nat := 128.

(** What one turn of the outer loop ends with: [return bestT], or the next
    turn with the new [t]. *)
Inductive Turn : Type :=
| Return (bestT : R)
| Next (t : R).

Definition searchTurn (base : Params.t) (startDate : Date) (t : R) : Turn :=
  let astro := snd (astroAt base startDate t) in
  let phase := Astro.moonToSun astro in
  let phase := if phase <? 0 then phase + 360 else phase in
  let hoursToNewMoon := (360 - phase) / NEW_MOON_RATE in
  let t := t + hoursToNewMoon in
  let t := refineNewMoon 3 base startDate t in
  let astro := snd (astroAt base startDate t) in
  let scanned :=
    if Astro.depth astro >? 0 then
      scanLoop SCAN_FUEL base startDate t (-6) (Scan.mk None t false)
    else Scan.mk None t false in
  if Scan.found scanned then Return (Scan.bestT scanned) else Next (t + 24).

Definition MAX_TURNS : nat := Z.to_nat 10000.

(** [for (let i = 0; i < 10000; i++)]: [i] counts the turns made so far, the
    pair returned is the result ([null] is [None]) and the number of turns the
    loop made. *)
Fixpoint searchLoop (left : nat) (i : nat) (base : Params.t) (startDate : Date) (t : R)
  : option R * nat :=
  match left with
  | O => (None, i)
  | S left' =>
      match searchTurn base startDate t with
      | Return bestT => (Some bestT, S i)
      | Next t' => searchLoop left' (S i) base startDate t'
      end
  end.

Definition findNextLocalEclipseRun (base : Params.t) (currentSimHours : R)
  (startDate : Date) : option R * nat :=
  searchLoop MAX_TURNS 0 base startDate (currentSimHours + 24).

Definition findNextLocalEclipse (base : Params.t) (currentSimHours : R)
  (startDate : Date) : option R :=
  fst (findNextLocalEclipseRun base currentSimHours startDate).

(** The value of [t] at the start of turn [i], when the turns before it all
    went on to the next. *)
Fixpoint turnStart (i : nat) (base : Params.t) (startDate : Date) (t : R) : option R :=
  match i with
  | O => Some t
  | S i' =>
      match searchTurn base startDate t with
      | Return _ => None
      | Next t' => turnStart i' base startDate t'
      end
  end.


(** ** Vocabulary of the statements *)

(** Two angles that differ by whole turns. *)
Definition congruent360 (a b : R) : Prop := exists k : Z, a = b + 360 * IZR k.

(** Case analysis on every comparison of the goal, innermost first. *)
Ltac no_dec t :=
  lazymatch t with
  | context [Rlt_dec _ _] => fail
  | context [Rle_dec _ _] => fail
  | _ => idtac
  end.

Ltac js_cases :=
  unfold JsNum.gtb, JsNum.geb, JsNum.ltb, JsNum.leb in *;
  repeat match goal with
         | |- context [Rlt_dec ?a ?b] => no_dec a; no_dec b; destruct (Rlt_dec a b)
         | |- context [Rle_dec ?a ?b] => no_dec a; no_dec b; destruct (Rle_dec a b)
         end.

(** The point of the line at parameter [t] lies on the sphere. *)
Definition onSphereAt (origin direction : Vec.t) (radiusKm t : R) : Prop :=
  let point := addVector origin (scaleVector direction t) in
  dotVector point point = radiusKm * radiusKm.

(** The discriminant and the two roots of the line-sphere equation
    [t^2 + 2 (origin . direction) t + (origin . origin - radius^2) = 0]. *)
Definition sphereDiscriminant (origin direction : Vec.t) (radiusKm : R) : R :=
  (2 * dotVector origin direction) * (2 * dotVector origin direction)
  - 4 * (dotVector origin origin - radiusKm * radiusKm).

Definition sphereRootLow (origin direction : Vec.t) (radiusKm : R) : R :=
  (- (2 * dotVector origin direction) - sqrt (sphereDiscriminant origin direction radiusKm)) / 2.

Definition sphereRootHigh (origin direction : Vec.t) (radiusKm : R) : R :=
  (- (2 * dotVector origin direction) + sqrt (sphereDiscriminant origin direction radiusKm)) / 2.

(** Two angles that agree modulo 360 within [tol] degrees. *)
Definition withinMod360 (tol a b : R) : Prop :=
  exists k : Z, Rabs (a - b - 360 * IZR k) <= tol.

(** The five angles the propagator advances. *)
Definition propagatedAngles (p : Params.t) : list R :=
  [Params.earthRotation p; Params.sunEclipticLon p; Params.ascendingNodeLon p;
   Params.moonNodePhase p; Params.moonAnomaly p].

(** Every turn of the search, from the first to turn [n - 1], is made and goes
    on to the next: no locally visible eclipse within [n] turns. *)
Definition horizonExhausted (n : nat) (base : Params.t) (startDate : Date) (t : R)
  : Prop :=
  forall i : nat, (i < n)%nat ->
    exists ti : R, turnStart i base startDate t = Some ti /\
                   exists t' : R, searchTurn base startDate ti = Next t'.




(** The offsets of the scan of the search, -6, -5.9, ..., 6. *)
Definition scanHours : list R := map (fun k : nat => -6 + 0.1 * INR k) (seq 0 121).

(** Parameters of a central eclipse: Sun, Moon and node at longitude 0, the
    Moon at perigee. *)
Definition alignedParams : Params.t := Params.mk 0 0 0 0 0 0 0 0 0.

Definition alignedState : State.t := deriveSimulationState alignedParams 0 0%Z.

(** * The rest of the engine and its callers *)

(** ** Lunar ephemeris and the parameters of a real date *)

Module Moon.
Record t : Type := mk {
  lonDeg : R;
  latDeg : R;
  distanceKm : R;
  meanAnomalyDeg : R;
  nodeLonDeg : R
}.
End Moon.

Definition moonEclipticCoordinates (t : R) : Moon.t :=
  let meanLonDeg :=
    normalize360
      (218.3164477 + 481267.88123421 * t - 0.0015786 * t * t
       + (t * t * t) / 538841 - (t * t * t * t) / 65194000) in
  let meanElongationDeg :=
    normalize360
      (297.8501921 + 445267.1114034 * t - 0.0018819 * t * t
       + (t * t * t) / 545868 - (t * t * t * t) / 113065000) in
  let sunAnomalyDeg :=
    normalize360
      (357.5291092 + 35999.0502909 * t - 0.0001536 * t * t + (t * t * t) / 24490000) in
  let meanAnomalyDeg :=
    normalize360
      (134.9633964 + 477198.8675055 * t + 0.0087414 * t * t
       + (t * t * t) / 69699 - (t * t * t * t) / 14712000) in
  let argumentOfLatitudeDeg :=
    normalize360
      (93.2720950 + 483202.0175233 * t - 0.0036539 * t * t
       - (t * t * t) / 3526000 + (t * t * t * t) / 863310000) in
  let nodeLonDeg :=
    normalize360
      (125.04452 - 1934.136261 * t + 0.0020708 * t * t + (t * t * t) / 450000) in
  let d := meanElongationDeg * DEG in
  let m := sunAnomalyDeg * DEG in
  let mPrime := meanAnomalyDeg * DEG in
  let f := argumentOfLatitudeDeg * DEG in
  let e := 1 - 0.002516 * t - 0.0000074 * t * t in
  let lonDeg :=
    meanLonDeg
    + 6.289 * sin mPrime
    + 1.274 * sin (2 * d - mPrime)
    + 0.658 * sin (2 * d)
    + 0.214 * sin (2 * mPrime)
    - 0.186 * e * sin m
    - 0.114 * sin (2 * f)
    - 0.059 * sin (2 * d - 2 * mPrime)
    - 0.057 * e * sin (2 * d - m - mPrime)
    + 0.053 * sin (2 * d + mPrime)
    + 0.046 * e * sin (2 * d - m)
    + 0.041 * e * sin (m - mPrime)
    - 0.035 * sin d
    - 0.031 * e * sin (m + mPrime)
    - 0.015 * sin (2 * f - 2 * d)
    + 0.011 * sin (2 * d - mPrime - 2 * f) in
  let latDeg :=
    5.128 * sin f
    + 0.280 * sin (mPrime + f)
    + 0.277 * sin (mPrime - f)
    + 0.173 * sin (2 * d - f)
    + 0.055 * sin (2 * d - mPrime + f)
    + 0.046 * sin (2 * d - mPrime - f)
    + 0.033 * sin (2 * d + f)
    + 0.017 * sin (2 * mPrime + f)
    + 0.009 * sin (2 * d + mPrime - f)
    + 0.009 * e * sin (2 * d - m + f)
    + 0.008 * e * sin (2 * d - m - f) in
  let distanceKm :=
    385000.56
    - 20905 * cos mPrime
    - 3699 * cos (2 * d - mPrime)
    - 2956 * cos (2 * d)
    - 570 * cos (2 * mPrime)
    + 246 * cos (2 * mPrime - 2 * d)
    - 205 * e * cos (m - 2 * d)
    - 171 * cos (mPrime + 2 * d)
    - 152 * e * cos (mPrime + m - 2 * d)
    - 129 * cos (mPrime - 2 * d) in
  Moon.mk (normalize360 lonDeg) (clamp latDeg (-8.5) 8.5) distanceKm meanAnomalyDeg
    nodeLonDeg.

Definition getRealParameters (date : Date) : Params.t :=
  let julianDay := toJulianDate date in
  let t := julianCenturies julianDay in
  let gmst := greenwichSiderealDeg julianDay in
  let sun := sunEclipticCoordinates t in
  let moon := moonEclipticCoordinates t in
  let ascendingNodeLon := normalize360 (Moon.nodeLonDeg moon) in
  let moonNodePhase := normalize180 (Moon.lonDeg moon - ascendingNodeLon) in
  let moonDistanceMode :=
    clamp ((Moon.distanceKm moon - MOON_PERIGEE_KM) / (MOON_APOGEE_KM - MOON_PERIGEE_KM))
      0 1 in
  {| Params.ascendingNodeLon := ascendingNodeLon;
     Params.sunEclipticLon := normalize360 (Sun.lonDeg sun);
     Params.moonNodePhase := moonNodePhase;
     Params.moonDistanceMode := moonDistanceMode;
     Params.moonAnomaly := normalize360 (Moon.meanAnomalyDeg moon);
     Params.observerLat := 55;
     Params.observerLon := 37;
     Params.observerTilt := 18;
     Params.earthRotation := gmst |}.

(** ** Exported sky and globe helpers *)

Module Horizontal.
Record t : Type := mk { altitude : R; azimuth : R }.
End Horizontal.

(** The floored denominator of [horizontalCoordinates]. *)
Definition horizontalSafeDenom (observerLat declination hourAngleDeg : R) : R :=
  let lat := observerLat * DEG in
  let dec := declination * DEG in
  let hourAngle := hourAngleDeg * DEG in
  let sinAlt := sin lat * sin dec + cos lat * cos dec * cos hourAngle in
  let altitude := asin (clamp sinAlt (-1) 1) in
  let denom := cos altitude * cos lat in
  if Rabs denom <? 1e-8 then 1e-8 else denom.

Definition horizontalCoordinates (observerLat declination hourAngleDeg : R)
  : Horizontal.t :=
  let lat := observerLat * DEG in
  let dec := declination * DEG in
  let hourAngle := hourAngleDeg * DEG in
  let sinAlt := sin lat * sin dec + cos lat * cos dec * cos hourAngle in
  let altitude := asin (clamp sinAlt (-1) 1) in
  let denom := cos altitude * cos lat in
  let safeDenom := if Rabs denom <? 1e-8 then 1e-8 else denom in
  let cosAz := clamp ((sin dec - sin altitude * sin lat) / safeDenom) (-1) 1 in
  let azimuth := acos cosAz in
  let azimuth := if sin hourAngle >? 0 then 2 * PI - azimuth else azimuth in
  Horizontal.mk (altitude * RAD) (azimuth * RAD).

Module Projected.
Record t : Type := mk { x : R; y : R; z : R; visible : bool }.
End Projected.

Definition sphereProject (lat lon radius cx cy tiltDeg rotDeg : R) : Projected.t :=
  let latR := lat * DEG in
  let lonR := (lon + rotDeg) * DEG in
  let tilt := tiltDeg * DEG in
  let x := cos latR * sin lonR in
  let y0 := sin latR in
  let z0 := cos latR * cos lonR in
  let y := y0 * cos tilt - z0 * sin tilt in
  let z := y0 * sin tilt + z0 * cos tilt in
  Projected.mk (cx + x * radius) (cy - y * radius) z (z >=? 0).

(** ** Locals of the engine, named *)


(** The locals [earthFromSun], [axisX] and [axisY] of [sunViewProjection]. *)
Definition sunViewBasis (sunVector : Vec.t) : Vec.t * Vec.t * Vec.t :=
  let earthFromSun := normalizeVector (scaleVector sunVector (-1)) in
  let reference :=
    if Rabs (Vec.z earthFromSun) >? 0.93 then Vec.mk 1 0 0 else Vec.mk 0 0 1 in
  let axisX := crossVector reference earthFromSun in
  let axisX := normalizeVector axisX in
  let axisY := normalizeVector (crossVector earthFromSun axisX) in
  (earthFromSun, axisX, axisY).

(** ** The scan of the search, sample by sample *)

(** What [scanStep] computes at the instant [scanT]: the distance from the
    observer to the shadow centre and the radius it is compared with. *)
Definition scanDistanceKm (base : Params.t) (startDate : Date) (scanT : R) : R :=
  let '(scanState, scanAstro) := astroAt base startDate scanT in
  greatCircleDistanceKm (State.observerLat scanState) (State.observerLon scanState)
    (Astro.centralLat scanAstro) (Astro.centralLon scanAstro).

Definition scanLimitKm (base : Params.t) (startDate : Date) (scanT : R) : R :=
  let '(scanState, scanAstro) := astroAt base startDate scanT in
  6371.0 * Rmax 0 (orZero (Astro.penumbraRadiusDeg scanAstro)) * DEG + 25.

(** The instant the first part of [searchTurn] refines [t] to. *)
Definition refinedNewMoon (base : Params.t) (startDate : Date) (t : R) : R :=
  let astro := snd (astroAt base startDate t) in
  let phase := Astro.moonToSun astro in
  let phase := if phase <? 0 then phase + 360 else phase in
  let hoursToNewMoon := (360 - phase) / NEW_MOON_RATE in
  let t := t + hoursToNewMoon in
  refineNewMoon 3 base startDate t.

(** The local [a] of [greatCircleDistanceKm]. *)
Definition haversineTerm (latA lonA latB lonB : R) : R :=
  let lat1 := latA * DEG in
  let lat2 := latB * DEG in
  let dLat := (latB - latA) * DEG in
  let dLon := (lonB - lonA) * DEG in
  let sinHalfLat := sin (dLat / 2) in
  let sinHalfLon := sin (dLon / 2) in
  sinHalfLat * sinHalfLat + cos lat1 * cos lat2 * sinHalfLon * sinHalfLon.

(** What the scan of a turn holds after the offsets [seen]: nothing found and
    none of them within the limit, or the first of the offsets within the
    limit that is at the least distance. *)
Definition scanInvariant (base : Params.t) (startDate : Date) (t : R)
  (seen : list R) (s : Scan.t) : Prop :=
  (Scan.found s = false /\ Scan.minDistance s = None /\
   forall h : R, In h seen ->
     scanLimitKm base startDate (t + h) < scanDistanceKm base startDate (t + h)) \/
  (Scan.found s = true /\
   exists h : R,
     In h seen /\
     scanDistanceKm base startDate (t + h) <= scanLimitKm base startDate (t + h) /\
     Scan.bestT s = t + h /\
     Scan.minDistance s = Some (scanDistanceKm base startDate (t + h)) /\
     forall h' : R, In h' seen ->
       scanDistanceKm base startDate (t + h') <= scanLimitKm base startDate (t + h') ->
       scanDistanceKm base startDate (t + h) <= scanDistanceKm base startDate (t + h')).


(** * The sky and map helpers of the views *)

(** [Math.hypot], [Math.round], [Math.log10] and [10 ** x]. *)
Module JsMath.

Definition hypot2 (a b : R) : R := sqrt (a * a + b * b).

Definition hypot3 (a b c : R) : R := sqrt (a * a + b * b + c * c).

(** The nearest whole number, a half rounded up. *)
Definition round (a : R) : R := IZR (Int_part (a + 0.5)).

Definition log10 (a : R) : R := ln a / ln 10.

Definition pow10 (a : R) : R := Rpower 10 a.

End JsMath.

(** The loop body of [solveTerminatorLat]: one Newton step and the clamp. *)
Definition terminatorStep (dec h lat : R) : R :=
  let sinLat := sin lat in
  let cosLat := cos lat in
  let f := sinLat * sin dec + cosLat * cos dec * cos h in
  let df := cosLat * sin dec - sinLat * cos dec * cos h in
  let safeDf := if Rabs df <? 1e-6 then (if df <? 0 then -1e-6 else 1e-6) else df in
  let lat := lat - f / safeDf in
  clamp lat (- PI / 2 + 1e-4) (PI / 2 - 1e-4).

Fixpoint terminatorLoop (steps : nat) (dec h lat : R) : R :=
  match steps with
  | O => lat
  | S steps => terminatorLoop steps dec h (terminatorStep dec h lat)
  end.

(** The test [Number.isFinite(lat)] always holds of a real number. *)
Definition solveTerminatorLat (lonDeg subSolarLatDeg subSolarLonDeg : R) : R :=
  let dec := subSolarLatDeg * DEG in
  let h := normalize180 (lonDeg - subSolarLonDeg) * DEG in
  if Rabs (cos dec) <? 1e-6 then - subSolarLatDeg
  else
    let lat := terminatorLoop 8 dec h 0 in
    lat * RAD.

Definition sphericalDestination (latDeg lonDeg radiusDeg bearingDeg : R) : Point.t :=
  let lat1 := latDeg * DEG in
  let lon1 := lonDeg * DEG in
  let dist := radiusDeg * DEG in
  let br := bearingDeg * DEG in
  let sinLat1 := sin lat1 in
  let cosLat1 := cos lat1 in
  let sinDist := sin dist in
  let cosDist := cos dist in
  let lat2 := asin (clamp (sinLat1 * cosDist + cosLat1 * sinDist * cos br) (-1) 1) in
  let lon2 :=
    lon1 + JsNum.atan2 (sin br * sinDist * cosLat1) (cosDist - sinLat1 * sin lat2) in
  Point.mk (normalize180 (lon2 * RAD)) (lat2 * RAD).

Definition sphericalSeparationDeg (az1Deg alt1Deg az2Deg alt2Deg : R) : R :=
  let az1 := az1Deg * DEG in
  let alt1 := alt1Deg * DEG in
  let az2 := az2Deg * DEG in
  let alt2 := alt2Deg * DEG in
  let cosSep := sin alt1 * sin alt2 + cos alt1 * cos alt2 * cos (az1 - az2) in
  acos (clamp cosSep (-1) 1) * RAD.

Definition vectorLength (vector : Vec.t) : R :=
  JsMath.hypot3 (Vec.x vector) (Vec.y vector) (Vec.z vector).

Definition subtractVector (a b : Vec.t) : Vec.t :=
  Vec.mk (Vec.x a - Vec.x b) (Vec.y a - Vec.y b) (Vec.z a - Vec.z b).

Definition earthFixedObserverVector (latDeg lonDeg radiusKm : R) : Vec.t :=
  let lat := latDeg * DEG in
  let lon := lonDeg * DEG in
  let cosLat := cos lat in
  Vec.mk (radiusKm * cosLat * cos lon) (radiusKm * cosLat * sin lon) (radiusKm * sin lat).

(** The locals [east], [north] and [up] of [topocentricHorizontalFromEcef]. *)
Definition topocentricEnu (vector : Vec.t) (latDeg lonDeg : R) : Vec.t :=
  let lat := latDeg * DEG in
  let lon := lonDeg * DEG in
  let sinLat := sin lat in
  let cosLat := cos lat in
  let sinLon := sin lon in
  let cosLon := cos lon in
  let east := - sinLon * Vec.x vector + cosLon * Vec.y vector in
  let north :=
    - sinLat * cosLon * Vec.x vector - sinLat * sinLon * Vec.y vector
    + cosLat * Vec.z vector in
  let up :=
    cosLat * cosLon * Vec.x vector + cosLat * sinLon * Vec.y vector
    + sinLat * Vec.z vector in
  Vec.mk east north up.

Definition topocentricHorizontalFromEcef (vector : Vec.t) (latDeg lonDeg : R)
  : Horizontal.t :=
  let lat := latDeg * DEG in
  let lon := lonDeg * DEG in
  let sinLat := sin lat in
  let cosLat := cos lat in
  let sinLon := sin lon in
  let cosLon := cos lon in
  let east := - sinLon * Vec.x vector + cosLon * Vec.y vector in
  let north :=
    - sinLat * cosLon * Vec.x vector - sinLat * sinLon * Vec.y vector
    + cosLat * Vec.z vector in
  let up :=
    cosLat * cosLon * Vec.x vector + cosLat * sinLon * Vec.y vector
    + sinLat * Vec.z vector in
  let horizontalNorm := Rmax 1e-12 (JsMath.hypot2 east north) in
  Horizontal.mk (JsNum.atan2 up horizontalNorm * RAD)
                (normalize360 (JsNum.atan2 east north * RAD)).

Definition angleBetweenVectorsDeg (a b : Vec.t) : R :=
  let aLen := Rmax 1e-9 (vectorLength a) in
  let bLen := Rmax 1e-9 (vectorLength b) in
  let cosSep :=
    clamp ((Vec.x a * Vec.x b + Vec.y a * Vec.y b + Vec.z a * Vec.z b) / (aLen * bLen))
      (-1) 1 in
  acos cosSep * RAD.

Module Sky.
Record t : Type := mk {
  sun : Horizontal.t;
  moon : Horizontal.t;
  separationDeg : R;
  sunAngularRadiusDeg : R;
  moonAngularRadiusDeg : R
}.
End Sky.

(** [earthFixed] is the value of [model.geometry?.earthFixed]: [None] for an
    object without it, and [Some] of the Earth-fixed pair for a model of
    [deriveModel]. *)
Definition computeTopocentricObserverSky
  (model : Model.t) (earthFixed : option Frames.pair) : Sky.t :=
  let state := Model.state model in
  let astro := Model.astro model in
  match earthFixed with
  | None =>
      let sun :=
        horizontalCoordinates (State.observerLat state) (Astro.subSolarLat astro)
          (normalize180 (State.observerLon state - Astro.subSolarLon astro)) in
      let moon :=
        horizontalCoordinates (State.observerLat state) (Astro.subLunarLat astro)
          (normalize180 (State.observerLon state - Astro.subLunarLon astro)) in
      Sky.mk sun moon
        (sphericalSeparationDeg (Horizontal.azimuth sun) (Horizontal.altitude sun)
           (Horizontal.azimuth moon) (Horizontal.altitude moon))
        (Astro.sunAngularRadiusDeg astro) (Astro.moonAngularRadiusDeg astro)
  | Some earthFixed =>
      let observer :=
        earthFixedObserverVector (State.observerLat state) (State.observerLon state)
          6371.0 in
      let sunTopo := subtractVector (Frames.sunKm earthFixed) observer in
      let moonTopo := subtractVector (Frames.moonKm earthFixed) observer in
      let sun :=
        topocentricHorizontalFromEcef sunTopo (State.observerLat state)
          (State.observerLon state) in
      let moon :=
        topocentricHorizontalFromEcef moonTopo (State.observerLat state)
          (State.observerLon state) in
      let sunDistanceKm := vectorLength sunTopo in
      let moonDistanceKm := vectorLength moonTopo in
      let sunAngularRadiusDeg :=
        Astro.sunAngularRadiusDeg astro
        * (Astro.sunDistanceKm astro / Rmax 1 sunDistanceKm) in
      let moonAngularRadiusDeg :=
        Astro.moonAngularRadiusDeg astro
        * (Astro.moonDistanceKm astro / Rmax 1 moonDistanceKm) in
      Sky.mk sun moon (angleBetweenVectorsDeg sunTopo moonTopo)
        sunAngularRadiusDeg moonAngularRadiusDeg
  end.

(** * The speed slider of the application *)

Definition SPEED_MIN : R := 1.
Definition SPEED_MAX : R := 10000000.

Definition speedToSlider (speed : R) : R :=
  let min := JsMath.log10 SPEED_MIN in
  let max := JsMath.log10 SPEED_MAX in
  let clamped := clamp speed SPEED_MIN SPEED_MAX in
  ((JsMath.log10 clamped - min) / (max - min)) * 100.

Definition sliderToSpeed (sliderValue : R) : R :=
  let min := JsMath.log10 SPEED_MIN in
  let max := JsMath.log10 SPEED_MAX in
  let value := min + (clamp sliderValue 0 100 / 100) * (max - min) in
  Rmax 1 (JsMath.round (JsMath.pow10 value)).

(** * Double precision

    Two further models of the arithmetic of the code, for the properties that
    rounding decides.  [B64] is IEEE 754 binary64 itself, computed on the
    formats of [SpecFloat]: it evaluates the code at concrete inputs.  [Fl]
    keeps real numbers and rounds the result of every arithmetic operation
    with a function that is only known to obey the laws of rounding to
    nearest: what holds in it holds for every such rounding, the exact
    arithmetic of the rest of this file being one of them. *)

(** ** Binary64 *)

Module B64.

Definition t : Type := spec_float.

Definition prec : Z := 53.
Definition emax : Z := 1024.

Definition add : t -> t -> t := SFadd prec emax.
Definition sub : t -> t -> t := SFsub prec emax.
Definition mul : t -> t -> t := SFmul prec emax.
Definition div : t -> t -> t := SFdiv prec emax.
Definition opp : t -> t := SFopp.
Definition abs : t -> t := SFabs.
Definition ltb : t -> t -> bool := SFltb.
Definition leb : t -> t -> bool := SFleb.
Definition gtb (a b : t) : bool := SFltb b a.
Definition geb (a b : t) : bool := SFleb b a.

(** The double nearest to a whole number, and the literal [n]e-[k]: for [n]
    and [10^k] below 2^53 the quotient is rounded once. *)
Definition ofZ (n : Z) : t := binary_normalize prec emax n 0 false.
Definition dec (n : Z) (k : nat) : t := div (ofZ n) (ofZ (10 ^ Z.of_nat k)).
Definition pow2 (e : Z) : t := binary_normalize prec emax 1 e false.

Definition NaN : t := S754_nan.

Definition isFinite (x : t) : bool :=
  match x with
  | S754_zero _ | S754_finite _ _ _ => true
  | _ => false
  end.

(** [a % n]: exact, with the sign of the dividend. *)
Definition rem (a n : t) : t :=
  match a, n with
  | S754_nan, _ | _, S754_nan => S754_nan
  | S754_infinity _, _ => S754_nan
  | _, S754_zero _ => S754_nan
  | S754_zero _, _ => a
  | _, S754_infinity _ => a
  | S754_finite sa ma ea, S754_finite _ mn en =>
      let e := Z.min ea en in
      let r := Z.rem (Z.shiftl (Zpos ma) (ea - e)) (Z.shiftl (Zpos mn) (en - e)) in
      binary_normalize prec emax (cond_Zopp sa r) e sa
  end.

(** The integral part, towards zero. *)
Definition trunc (x : t) : t :=
  match x with
  | S754_finite s m e =>
      if (0 <=? e)%Z then x
      else binary_normalize prec emax (cond_Zopp s (Z.shiftr (Zpos m) (- e))) 0 s
  | _ => x
  end.

(** The real number a finite double stands for. *)
Definition toR (x : t) : R :=
  match x with
  | S754_finite s m e => IZR (cond_Zopp s (Zpos m)) * powerRZ 2 e
  | _ => 0
  end.

(** [Math.PI], 0x1.921fb54442d18p+1. *)
Definition PI : t := S754_finite false 7074237752028440 (-51).

Definition RAD : t := div (ofZ 180) PI.

Definition EARTH_ROT_DEG_PER_HOUR : t := dec 15041067 6.
Definition SUN_ECLIPTIC_DEG_PER_HOUR : t := div (ofZ 360) (mul (dec 3652422 4) (ofZ 24)).
Definition MOON_ECLIPTIC_DEG_PER_HOUR : t := div (dec 13176358 6) (ofZ 24).
Definition MOON_ANOMALY_DEG_PER_HOUR : t := dec 549 3.
Definition NODE_REGRESSION_DEG_PER_HOUR : t :=
  opp (div (ofZ 360) (mul (mul (dec 18613 3) (dec 3652422 4)) (ofZ 24))).

Definition normalize180 (angle : t) : t :=
  let value := rem angle (ofZ 360) in
  let value := if gtb value (ofZ 180) then sub value (ofZ 360) else value in
  let value := if ltb value (ofZ (-180)) then add value (ofZ 360) else value in
  value.

Definition normalize360 (angle : t) : t :=
  let value := rem angle (ofZ 360) in
  let value := if ltb value (ofZ 0) then add value (ofZ 360) else value in
  value.

(** A [Date] is its time value: a whole number of milliseconds within
    8.64e15 of the epoch, or NaN (an invalid date). *)
Definition newDate (ms : t) : t :=
  if isFinite ms && leb (abs ms) (ofZ 8640000000000000)
  then add (trunc ms) (ofZ 0)
  else NaN.

Definition julianCenturies (julianDay : t) : t :=
  div (sub julianDay (ofZ 2451545)) (ofZ 36525).

Definition toJulianDate (date : t) : t :=
  add (div date (ofZ 86400000)) (dec 24405875 1).

Definition greenwichSiderealDeg (julianDay : t) : t :=
  let t := julianCenturies julianDay in
  let theta :=
    sub (add (add (dec 28046061837 8)
                  (mul (dec 36098564736629 11) (sub julianDay (ofZ 2451545))))
             (mul (mul (dec 387933 9) t) t))
        (div (mul (mul t t) t) (ofZ 38710000)) in
  normalize360 theta.

Module Params.
Record t : Type := mk {
  ascendingNodeLon : spec_float;
  sunEclipticLon : spec_float;
  moonNodePhase : spec_float;
  moonDistanceMode : spec_float;
  moonAnomaly : spec_float;
  observerLat : spec_float;
  observerLon : spec_float;
  observerTilt : spec_float;
  earthRotation : spec_float
}.
End Params.

Module State.
Record t : Type := mk {
  moonDistanceMode : spec_float;
  observerLat : spec_float;
  observerLon : spec_float;
  observerTilt : spec_float;
  simHours : spec_float;
  date : spec_float;
  julianDay : spec_float;
  gmst : spec_float;
  earthRotation : spec_float;
  sunEclipticLon : spec_float;
  ascendingNodeLon : spec_float;
  descendingNodeLon : spec_float;
  moonNodePhase : spec_float;
  moonEclipticLon : spec_float;
  moonAnomaly : spec_float
}.

Definition asParams (s : t) : Params.t :=
  Params.mk (ascendingNodeLon s) (sunEclipticLon s) (moonNodePhase s)
            (moonDistanceMode s) (moonAnomaly s) (observerLat s)
            (observerLon s) (observerTilt s) (earthRotation s).
End State.

(** [startDate] is the time value of the start instant. *)
Definition deriveSimulationState (base : Params.t) (simHours startDate : t) : State.t :=
  let date := newDate (add startDate (mul simHours (ofZ 3600000))) in
  let julianDay := toJulianDate date in
  let gmst := greenwichSiderealDeg julianDay in
  let earthRotation :=
    normalize360 (add (Params.earthRotation base) (mul simHours EARTH_ROT_DEG_PER_HOUR)) in
  let sunEclipticLon :=
    normalize360 (add (Params.sunEclipticLon base) (mul simHours SUN_ECLIPTIC_DEG_PER_HOUR)) in
  let ascendingNodeLon :=
    normalize360
      (add (Params.ascendingNodeLon base) (mul simHours NODE_REGRESSION_DEG_PER_HOUR)) in
  let moonNodePhase :=
    normalize180
      (add (Params.moonNodePhase base)
           (mul simHours (sub MOON_ECLIPTIC_DEG_PER_HOUR NODE_REGRESSION_DEG_PER_HOUR))) in
  let moonEclipticLon := normalize360 (add ascendingNodeLon moonNodePhase) in
  let moonAnomaly :=
    normalize360 (add (Params.moonAnomaly base) (mul simHours MOON_ANOMALY_DEG_PER_HOUR)) in
  {| State.moonDistanceMode := Params.moonDistanceMode base;
     State.observerLat := Params.observerLat base;
     State.observerLon := Params.observerLon base;
     State.observerTilt := Params.observerTilt base;
     State.simHours := simHours;
     State.date := date;
     State.julianDay := julianDay;
     State.gmst := gmst;
     State.earthRotation := earthRotation;
     State.sunEclipticLon := sunEclipticLon;
     State.ascendingNodeLon := ascendingNodeLon;
     State.descendingNodeLon := normalize360 (add ascendingNodeLon (ofZ 180));
     State.moonNodePhase := moonNodePhase;
     State.moonEclipticLon := moonEclipticLon;
     State.moonAnomaly := moonAnomaly |}.

(** [overlapFraction] up to the two quotients it hands to [clamp] and
    [Math.acos]: [None] when one of the earlier [return]s is taken. *)
Definition overlapQuotients (sunRadiusDeg moonRadiusDeg separationDeg : t)
  : option (t * t) :=
  let r1 := sunRadiusDeg in
  let r2 := moonRadiusDeg in
  let d := separationDeg in
  if geb d (add r1 r2) then None
  else if leb d (abs (sub r1 r2)) then None
  else
    let r1Sq := mul r1 r1 in
    let r2Sq := mul r2 r2 in
    Some (div (sub (add (mul d d) r1Sq) r2Sq) (mul (mul (ofZ 2) d) r1),
          div (sub (add (mul d d) r2Sq) r1Sq) (mul (mul (ofZ 2) d) r2)).

End B64.

(** ** Arithmetic under rounding *)

Module Fl.

(** The unit roundoff 2^-53, half the least subnormal step 2^-1075, and a
    bound below the largest double. *)
Definition u : R := / 9007199254740992.
Definition eta : R := / IZR (2 ^ 1075).
Definition omega : R := 1e300.

(** Rounding to nearest, by its laws: it keeps the order and the sign, leaves
    the whole numbers up to 2^53 as they are, and for arguments that do not
    overflow it errs by at most [u] in relative terms once the result is
    normal, by at most [eta] when it is subnormal. *)
Record rounding : Type := mk {
  rnd : R -> R;
  rnd_monotone : forall x y : R, x <= y -> rnd x <= rnd y;
  rnd_opp : forall x : R, rnd (- x) = - rnd x;
  rnd_integer : forall n : Z, (Z.abs n <= 9007199254740992)%Z -> rnd (IZR n) = IZR n;
  rnd_error : forall x : R, Rabs x <= omega -> Rabs (rnd x - x) <= u * Rabs x + eta
}.

(** Exact arithmetic is one rounding. *)
Definition exact : rounding :=
  mk (fun x : R => x)
     (fun (x y : R) (H : x <= y) => H)
     (fun x : R => eq_refl)
     (fun (n : Z) (_ : (Z.abs n <= 9007199254740992)%Z) => eq_refl)
     (fun (x : R) (_ : Rabs x <= omega) =>
        ltac:(unfold Rminus; rewrite Rplus_opp_r, Rabs_R0;
              apply Rplus_le_le_0_compat;
              [apply Rmult_le_pos;
               [left; apply Rinv_0_lt_compat; lra | apply Rabs_pos]
              | left; apply Rinv_0_lt_compat; apply IZR_lt; reflexivity])).

Section Rounded.

Variable fl : rounding.

Local Abbreviation r := (rnd fl).

Definition EARTH_ROT_DEG_PER_HOUR : R := r 15.041067.
Definition SUN_ECLIPTIC_DEG_PER_HOUR : R := r (360 / r (r 365.2422 * 24)).
Definition MOON_ECLIPTIC_DEG_PER_HOUR : R := r (r 13.176358 / 24).
Definition MOON_ANOMALY_DEG_PER_HOUR : R := r 0.549.
Definition NODE_REGRESSION_DEG_PER_HOUR : R :=
  - r (360 / r (r (r 18.613 * r 365.2422) * 24)).

(** [%] is exact in binary64; the additions that fold the remainder round. *)
Definition normalize180 (angle : R) : R :=
  let value := angle %% 360 in
  let value := if value >? 180 then r (value - 360) else value in
  let value := if value <? -180 then r (value + 360) else value in
  value.

Definition normalize360 (angle : R) : R :=
  let value := angle %% 360 in
  let value := if value <? 0 then r (value + 360) else value in
  value.

Definition julianCenturies (julianDay : R) : R := r (r (julianDay - 2451545.0) / 36525).

Definition toJulianDate (date : Date) : R := r (r (IZR date / 86400000) + 2440587.5).

Definition greenwichSiderealDeg (julianDay : R) : R :=
  let t := julianCenturies julianDay in
  let theta :=
    r (r (r (r 280.46061837 + r (r 360.98564736629 * r (julianDay - 2451545.0))) +
          r (r (r 0.000387933 * t) * t)) -
       r (r (r (t * t) * t) / 38710000)) in
  normalize360 theta.

Definition deriveSimulationState (base : Params.t) (simHours : R) (startDate : Date)
  : State.t :=
  let date := newDate (r (IZR startDate + r (simHours * 3600000))) in
  let julianDay := toJulianDate date in
  let gmst := greenwichSiderealDeg julianDay in
  let earthRotation :=
    normalize360 (r (Params.earthRotation base + r (simHours * EARTH_ROT_DEG_PER_HOUR))) in
  let sunEclipticLon :=
    normalize360
      (r (Params.sunEclipticLon base + r (simHours * SUN_ECLIPTIC_DEG_PER_HOUR))) in
  let ascendingNodeLon :=
    normalize360
      (r (Params.ascendingNodeLon base + r (simHours * NODE_REGRESSION_DEG_PER_HOUR))) in
  let moonNodePhase :=
    normalize180
      (r (Params.moonNodePhase base +
          r (simHours * r (MOON_ECLIPTIC_DEG_PER_HOUR - NODE_REGRESSION_DEG_PER_HOUR)))) in
  let moonEclipticLon := normalize360 (r (ascendingNodeLon + moonNodePhase)) in
  let moonAnomaly :=
    normalize360 (r (Params.moonAnomaly base + r (simHours * MOON_ANOMALY_DEG_PER_HOUR))) in
  {| State.moonDistanceMode := Params.moonDistanceMode base;
     State.observerLat := Params.observerLat base;
     State.observerLon := Params.observerLon base;
     State.observerTilt := Params.observerTilt base;
     State.simHours := simHours;
     State.date := date;
     State.julianDay := julianDay;
     State.gmst := gmst;
     State.earthRotation := earthRotation;
     State.sunEclipticLon := sunEclipticLon;
     State.ascendingNodeLon := ascendingNodeLon;
     State.descendingNodeLon := normalize360 (r (ascendingNodeLon + 180));
     State.moonNodePhase := moonNodePhase;
     State.moonEclipticLon := moonEclipticLon;
     State.moonAnomaly := moonAnomaly |}.

(** A division that stops on a zero divisor, and the library functions,
    taken as correctly rounded. *)
Definition div (a b : R) : option R :=
  if Req_dec_T b 0 then None else Some (r (a / b)).

Definition acos (a : R) : option R :=
  if (-1 <=? a) && (a <=? 1) then Some (r (Ratan.acos a)) else None.

Definition sin (a : R) : R := r (Rtrigo_def.sin a).

Definition overlapFractionChecked (sunRadiusDeg moonRadiusDeg separationDeg : R)
  : option R :=
  let r1 := sunRadiusDeg in
  let r2 := moonRadiusDeg in
  let d := separationDeg in
  if d >=? r (r1 + r2) then Some 0
  else if d <=? Rabs (r (r1 - r2)) then
    (if r2 >=? r1 then Some 1
     else q <- div (r (r2 * r2)) (r (r1 * r1)) ;; Some (clamp q 0 1))
  else
    let r1Sq := r (r1 * r1) in
    let r2Sq := r (r2 * r2) in
    qa <- div (r (r (r (d * d) + r1Sq) - r2Sq)) (r (r (2 * d) * r1)) ;;
    ha <- acos (clamp qa (-1) 1) ;;
    let alpha := r (2 * ha) in
    qb <- div (r (r (r (d * d) + r2Sq) - r1Sq)) (r (r (2 * d) * r2)) ;;
    hb <- acos (clamp qb (-1) 1) ;;
    let beta := r (2 * hb) in
    let area :=
      r (r (r (0.5 * r1Sq) * r (alpha - sin alpha)) +
         r (r (0.5 * r2Sq) * r (beta - sin beta))) in
    q <- div area (r (r PI * r1Sq)) ;;
    Some (clamp q 0 1).

End Rounded.

End Fl.

(** ** Inputs of the evaluations *)

(** The base of the round trip in binary64: the Earth turned by 90.1 degrees, every
    other angle 0, the observer at the default site. *)
Definition roundTripBase : B64.Params.t :=
  B64.Params.mk (B64.ofZ 0) (B64.ofZ 0) (B64.ofZ 0) (B64.ofZ 0) (B64.ofZ 0)
                (B64.ofZ 55) (B64.ofZ 37) (B64.ofZ 18) (B64.dec 901 1).

(** The base with every angle 0, in binary64. *)
Definition zeroBase64 : B64.Params.t :=
  B64.Params.mk (B64.ofZ 0) (B64.ofZ 0) (B64.ofZ 0) (B64.ofZ 0) (B64.ofZ 0)
                (B64.ofZ 55) (B64.ofZ 37) (B64.ofZ 18) (B64.ofZ 0).

(** A positive double whose square underflows to 0. *)
Definition tiny64 : B64.t := B64.pow2 (-600).

(** [x] is a number of the format: rounding leaves it as it is. *)
Definition representable (fl : Fl.rounding) (x : R) : Prop := Fl.rnd fl x = x.

(** Radii and separations of ordinary size: 0, or between 1e-100 and 1e100. *)
Definition moderateSize (x : R) : Prop := x = 0 \/ 1e-100 <= x <= 1e100.

(** * Properties *)

(** ** Comparisons and the remainder *)

Lemma ltb_true (a b : R) : (a <? b) = true <-> a < b.
Proof. unfold JsNum.ltb; destruct (Rlt_dec a b); split; intros; (easy || lra). Qed.

Lemma ltb_false (a b : R) : (a <? b) = false <-> b <= a.
Proof. unfold JsNum.ltb; destruct (Rlt_dec a b); split; intros; (easy || lra). Qed.

Lemma leb_true (a b : R) : (a <=? b) = true <-> a <= b.
Proof. unfold JsNum.leb; destruct (Rle_dec a b); split; intros; (easy || lra). Qed.

Lemma leb_false (a b : R) : (a <=? b) = false <-> b < a.
Proof. unfold JsNum.leb; destruct (Rle_dec a b); split; intros; (easy || lra). Qed.

Lemma gtb_true (a b : R) : (a >? b) = true <-> b < a.
Proof. apply ltb_true. Qed.

Lemma gtb_false (a b : R) : (a >? b) = false <-> a <= b.
Proof. apply ltb_false. Qed.

Lemma geb_true (a b : R) : (a >=? b) = true <-> b <= a.
Proof. apply leb_true. Qed.

Lemma geb_false (a b : R) : (a >=? b) = false <-> a < b.
Proof. apply leb_false. Qed.

Lemma trunc_nonneg (a : R) :
  0 <= a -> IZR (JsNum.trunc a) <= a < IZR (JsNum.trunc a) + 1.
Proof.
  intros Ha. unfold JsNum.trunc. destruct (Rle_dec 0 a) as [_|]; [|lra].
  destruct (base_Int_part a). lra.
Qed.

Lemma trunc_neg (a : R) :
  a < 0 -> IZR (JsNum.trunc a) - 1 < a <= IZR (JsNum.trunc a).
Proof.
  intros Ha. unfold JsNum.trunc. destruct (Rle_dec 0 a); [lra|].
  destruct (base_Int_part (- a)). rewrite opp_IZR. lra.
Qed.

Lemma trunc_integer (k : Z) : JsNum.trunc (IZR k) = k.
Proof.
  unfold JsNum.trunc. destruct (Rle_dec 0 (IZR k)).
  - symmetry. apply Int_part_spec. lra.
  - rewrite <- opp_IZR. rewrite <- (Int_part_spec (IZR (- k)) (- k)); [lia | lra].
Qed.

Lemma rem360_nonneg (a : R) : 0 <= a -> 0 <= a %% 360 < 360.
Proof.
  intros Ha. unfold JsNum.rem.
  assert (H : 0 <= a / 360) by lra.
  apply trunc_nonneg in H. lra.
Qed.

Lemma rem360_neg (a : R) : a < 0 -> -360 < a %% 360 <= 0.
Proof.
  intros Ha. unfold JsNum.rem.
  assert (H : a / 360 < 0) by lra.
  apply trunc_neg in H. lra.
Qed.

Lemma rem360_range (a : R) : -360 < a %% 360 < 360.
Proof.
  destruct (Rle_dec 0 a) as [H|H].
  - apply rem360_nonneg in H. lra.
  - assert (H' : a < 0) by lra. apply rem360_neg in H'. lra.
Qed.

Lemma rem360_small (a : R) : -360 < a < 360 -> a %% 360 = a.
Proof.
  intros Ha. unfold JsNum.rem.
  replace (JsNum.trunc (a / 360)) with 0%Z; [lra|].
  destruct (Rle_dec 0 a) as [H|H].
  - assert (H1 : 0 <= a / 360) by lra. apply trunc_nonneg in H1.
    assert (H2 : -1 < IZR (JsNum.trunc (a / 360)) < 1) by lra.
    destruct H2 as [H2 H3]. apply lt_IZR in H2, H3. lia.
  - assert (H1 : a / 360 < 0) by lra. apply trunc_neg in H1.
    assert (H2 : -1 < IZR (JsNum.trunc (a / 360)) < 1) by lra.
    destruct H2 as [H2 H3]. apply lt_IZR in H2, H3. lia.
Qed.

Lemma congruent360_refl (a : R) : congruent360 a a.
Proof. exists 0%Z. lra. Qed.


Lemma congruent360_trans (a b c : R) :
  congruent360 a b -> congruent360 b c -> congruent360 a c.
Proof. intros [k H] [l H']. exists (k + l)%Z. rewrite plus_IZR. lra. Qed.

Lemma congruent360_plus (a b c : R) : congruent360 a b -> congruent360 (a + c) (b + c).
Proof. intros [k H]. exists k. lra. Qed.

Lemma rem360_congruent (a : R) : congruent360 (a %% 360) a.
Proof. exists (- JsNum.trunc (a / 360))%Z. unfold JsNum.rem. rewrite opp_IZR. lra. Qed.

(** ** The canonical ranges *)

Lemma normalize360_range (x : R) : 0 <= normalize360 x < 360.
Proof.
  unfold normalize360. pose proof (rem360_range x). js_cases; lra.
Qed.

Lemma normalize180_range (x : R) : -180 <= normalize180 x <= 180.
Proof.
  unfold normalize180. pose proof (rem360_range x). js_cases; lra.
Qed.

Lemma normalize360_congruent (x : R) : congruent360 (normalize360 x) x.
Proof.
  unfold normalize360. js_cases.
  - apply congruent360_trans with (x %% 360 + 360 * IZR 1).
    + exists 0%Z. lra.
    + destruct (rem360_congruent x) as [k H]. exists (k + 1)%Z.
      rewrite plus_IZR. lra.
  - apply rem360_congruent.
Qed.

Lemma normalize180_congruent (x : R) : congruent360 (normalize180 x) x.
Proof.
  unfold normalize180. destruct (rem360_congruent x) as [k H]. js_cases.
  - lra.
  - exists (k - 1)%Z. rewrite minus_IZR. lra.
  - exists (k + 1)%Z. rewrite plus_IZR. lra.
  - exists k. lra.
Qed.

Lemma normalize360_fixed (x : R) : 0 <= x < 360 -> normalize360 x = x.
Proof.
  intros H. unfold normalize360. rewrite rem360_small by lra. js_cases; lra.
Qed.

Lemma normalize180_fixed (x : R) : -180 <= x <= 180 -> normalize180 x = x.
Proof.
  intros H. unfold normalize180. rewrite rem360_small by lra. js_cases; lra.
Qed.

Lemma normalize360_idem (x : R) : normalize360 (normalize360 x) = normalize360 x.
Proof. apply normalize360_fixed, normalize360_range. Qed.

Lemma normalize180_idem (x : R) : normalize180 (normalize180 x) = normalize180 x.
Proof. apply normalize180_fixed, normalize180_range. Qed.

Lemma rem360_turns_nonneg (q : Z) (r : R) :
  (0 <= q)%Z -> 0 <= r < 360 -> (360 * IZR q + r) %% 360 = r.
Proof.
  intros Hq Hr. apply IZR_le in Hq. unfold JsNum.rem.
  assert (H : 0 <= (360 * IZR q + r) / 360) by lra.
  apply trunc_nonneg in H.
  assert (E : JsNum.trunc ((360 * IZR q + r) / 360) = q).
  { apply Z.le_antisymm; apply Z.lt_succ_r, lt_IZR; rewrite succ_IZR; lra. }
  rewrite E. ring.
Qed.

Lemma rem360_turns_nonpos (q : Z) (r : R) :
  (q <= 0)%Z -> -360 < r <= 0 -> (360 * IZR q + r) %% 360 = r.
Proof.
  intros Hq Hr. apply IZR_le in Hq. unfold JsNum.rem.
  destruct (Req_dec_T (360 * IZR q + r) 0) as [Z|NZ].
  - assert (r = 0) by lra. assert (IZR q = 0) by lra.
    rewrite Z. replace (0 / 360) with (IZR 0) by lra.
    rewrite trunc_integer. lra.
  - assert (H : (360 * IZR q + r) / 360 < 0) by lra.
    apply trunc_neg in H.
    assert (E : JsNum.trunc ((360 * IZR q + r) / 360) = q).
    { apply Z.le_antisymm; apply Z.lt_succ_r, lt_IZR; rewrite succ_IZR; lra. }
    rewrite E. ring.
Qed.

(** The values JavaScript gives on a few angles. *)
Example normalize360_minus90 : normalize360 (-90) = 270.
Proof.
  unfold normalize360. rewrite rem360_small by lra.
  replace (-90 <? 0) with true by (symmetry; apply ltb_true; lra). lra.
Qed.

Example normalize360_725 : normalize360 725 = 5.
Proof.
  unfold normalize360.
  replace 725 with (360 * IZR 2 + 5) by lra.
  rewrite rem360_turns_nonneg by (lia || lra).
  replace (5 <? 0) with false by (symmetry; apply ltb_false; lra). reflexivity.
Qed.

Example normalize180_190 : normalize180 190 = -170.
Proof.
  unfold normalize180. rewrite rem360_small by lra.
  replace (190 >? 180) with true by (symmetry; apply gtb_true; lra).
  replace (190 - 360 <? -180) with false by (symmetry; apply ltb_false; lra). lra.
Qed.

Example normalize180_540 : normalize180 540 = 180.
Proof.
  unfold normalize180.
  replace 540 with (360 * IZR 1 + 180) by lra.
  rewrite rem360_turns_nonneg by (lia || lra).
  replace (180 >? 180) with false by (symmetry; apply gtb_false; lra).
  replace (180 <? -180) with false by (symmetry; apply ltb_false; lra). reflexivity.
Qed.

Example normalize180_minus540 : normalize180 (-540) = -180.
Proof.
  unfold normalize180.
  replace (-540) with (360 * IZR (-1) + -180) by lra.
  rewrite rem360_turns_nonpos by (lia || lra).
  replace (-180 >? 180) with false by (symmetry; apply gtb_false; lra).
  replace (-180 <? -180) with false by (symmetry; apply ltb_false; lra). reflexivity.
Qed.

(** A congruence class has one representative in [0, 360). *)
Lemma congruent360_unique (a b : R) :
  congruent360 a b -> 0 <= a < 360 -> 0 <= b < 360 -> a = b.
Proof.
  intros [k H] Ha Hb.
  assert (K : -1 < IZR k < 1) by lra.
  destruct K as [K1 K2]. apply lt_IZR in K1, K2.
  assert (k = 0%Z) by lia. subst k. lra.
Qed.


Lemma clamp_range (v lo hi : R) : lo <= hi -> lo <= clamp v lo hi <= hi.
Proof.
  intros H. unfold clamp, Rmax, Rmin.
  destruct (Rle_dec hi v); destruct (Rle_dec lo _); lra.
Qed.

Lemma clamp_inside (v lo hi : R) : lo <= v <= hi -> clamp v lo hi = v.
Proof.
  intros H. unfold clamp, Rmax, Rmin.
  destruct (Rle_dec hi v); destruct (Rle_dec lo _); lra.
Qed.

(** ** C7: the canonical ranges of the longitudes *)

(** [normalize180] maps -180 to itself, so its range is not the half-open
    interval (-180, 180].  The same value reaches the model:
    with the node at 200 degrees and the Moon at 20 degrees the model's
    [moonNodePhase] is -180. *)
Lemma normalize180_minus180 :
  normalize180 (-180) = -180 /\
  ~ (forall x : R, -180 < normalize180 x <= 180) /\
  Model.moonNodePhase
    (deriveModel
       (deriveSimulationState (Params.mk 200 0 (-180) 0 0 0 0 0 0) 0 0%Z)) = -180.
Proof.
  assert (E : normalize180 (-180) = -180) by (apply normalize180_fixed; lra).
  split; [exact E|]. split.
  - intros H. specialize (H (-180)). lra.
  - unfold Model.moonNodePhase, deriveModel, deriveSimulationState,
      computeAstronomy; cbn [Model.astro Astro.moonNodePhase State.ascendingNodeLon
                              State.moonEclipticLon Params.ascendingNodeLon
                              Params.moonNodePhase].
    replace (200 + 0 * NODE_REGRESSION_DEG_PER_HOUR) with 200 by lra.
    replace (-180 + 0 * (MOON_ECLIPTIC_DEG_PER_HOUR - NODE_REGRESSION_DEG_PER_HOUR))
      with (-180) by lra.
    rewrite E. rewrite (normalize360_fixed 200) by lra.
    replace (200 + -180) with 20 by lra.
    rewrite !(normalize360_fixed 20) by lra.
    rewrite (normalize360_fixed 200) by lra.
    replace (20 - 200) with (-180) by lra. exact E.
Qed.


(** ** C5 and C10: the two-circle overlap *)

Lemma overlapFraction_range (r1 r2 d : R) : 0 <= overlapFraction r1 r2 d <= 1.
Proof.
  unfold overlapFraction.
  destruct (d >=? r1 + r2); [lra|].
  destruct (d <=? Rabs (r1 - r2)).
  - destruct (r2 >=? r1); [lra | apply clamp_range; lra].
  - apply clamp_range; lra.
Qed.

(** In the partial-overlap branch all three of [r1], [r2], [d] are positive. *)
Lemma partial_overlap_positive (r1 r2 d : R) :
  0 <= r1 -> 0 <= r2 -> Rabs (r1 - r2) < d < r1 + r2 -> 0 < r1 /\ 0 < r2 /\ 0 < d.
Proof.
  intros H1 H2. unfold Rabs. destruct (Rcase_abs (r1 - r2)); intros [Hl Hu]; lra.
Qed.

Lemma overlapFraction_origin : overlapFraction 0 0 0 = 0.
Proof.
  unfold overlapFraction. replace (0 >=? 0 + 0) with true; [reflexivity|].
  symmetry. apply geb_true. lra.
Qed.

Lemma overlapFraction_disjoint (r1 r2 d : R) :
  r1 + r2 <= d -> overlapFraction r1 r2 d = 0.
Proof.
  intros H. unfold overlapFraction. apply geb_true in H. rewrite H. reflexivity.
Qed.

Lemma overlapFraction_covered (r1 r2 d : R) :
  d < r1 + r2 -> d <= Rabs (r1 - r2) -> r1 <= r2 -> overlapFraction r1 r2 d = 1.
Proof.
  intros H1 H2 H3. unfold overlapFraction.
  apply geb_false in H1. apply leb_true in H2. apply geb_true in H3.
  rewrite H1, H2, H3. reflexivity.
Qed.

(** C5, as stated, fails at the corner it names: with [r1 = r2 = d = 0] both
    conditions apply and the function returns 0, not 1. *)
Lemma overlapFraction_zero_radii :
  overlapFraction 0 0 0 = 0 /\
  ~ (forall r1 r2 d : R,
        0 <= r1 -> 0 <= r2 -> r2 >= r1 -> d = 0 -> overlapFraction r1 r2 d = 1).
Proof.
  split; [exact overlapFraction_origin|].
  intros H. specialize (H 0 0 0). rewrite overlapFraction_origin in H. lra.
Qed.

(** C5, amended: for non-negative radii [overlapFraction r1 r2 d] is exactly 0
    when [d = r1 + r2], and exactly 1 when [r2 >= r1], [d = 0] and the radii
    are not both zero; at [r1 = r2 = d = 0] it is 0. *)
Theorem overlapFraction_boundary (r1 r2 d : R) :
  0 <= r1 -> 0 <= r2 ->
  (d = r1 + r2 -> overlapFraction r1 r2 d = 0) /\
  (r2 >= r1 -> d = 0 -> 0 < r2 -> overlapFraction r1 r2 d = 1) /\
  overlapFraction 0 0 0 = 0.
Proof.
  intros H1 H2. split; [|split].
  - intros ->. apply overlapFraction_disjoint. lra.
  - intros Hge -> Hpos. apply overlapFraction_covered; try lra. apply Rabs_pos.
  - exact overlapFraction_origin.
Qed.

Lemma overlapFraction_boundary_witness :
  overlapFraction 1 2 3 = 0 /\ overlapFraction 1 2 0 = 1.
Proof.
  split.
  - apply (overlapFraction_boundary 1 2 3); lra.
  - apply (overlapFraction_boundary 1 2 0); lra.
Defined.

(** In exact arithmetic, on non-negative arguments the evaluation of
    [overlapFraction] never divides by zero and never takes the [acos] of a
    number outside [-1, 1]: the checked evaluation succeeds, with the value
    of [overlapFraction]. *)
Lemma overlapFraction_total_exact (r1 r2 d : R) :
  0 <= r1 -> 0 <= r2 -> 0 <= d ->
  overlapFractionChecked r1 r2 d = Some (overlapFraction r1 r2 d) /\
  (Rabs (r1 - r2) < d < r1 + r2 -> 0 < 2 * d * r1 /\ 0 < 2 * d * r2) /\
  (forall q : R, -1 <= clamp q (-1) 1 <= 1) /\
  0 <= overlapFraction r1 r2 d <= 1.
Proof.
  intros H1 H2 Hd.
  assert (Hdiv : Rabs (r1 - r2) < d < r1 + r2 -> 0 < 2 * d * r1 /\ 0 < 2 * d * r2).
  { intros Hp. destruct (partial_overlap_positive r1 r2 d H1 H2 Hp) as (P1 & P2 & P3).
    split; nra. }
  split; [|split; [exact Hdiv|split; [intros q; apply clamp_range; lra
                                      | apply overlapFraction_range]]].
  unfold overlapFractionChecked, overlapFraction.
  destruct (d >=? r1 + r2) eqn:E1; [reflexivity|].
  apply geb_false in E1.
  destruct (d <=? Rabs (r1 - r2)) eqn:E2.
  - apply leb_true in E2.
    destruct (r2 >=? r1) eqn:E3; [reflexivity|]. apply geb_false in E3.
    unfold Checked.div. destruct (Req_dec_T (r1 * r1) 0) as [Z|_]; [nra|reflexivity].
  - apply leb_false in E2.
    destruct (partial_overlap_positive r1 r2 d H1 H2 (conj E2 E1)) as (P1 & P2 & P3).
    destruct (Hdiv (conj E2 E1)) as [D1 D2].
    assert (A : forall q, Checked.acos (clamp q (-1) 1) = Some (acos (clamp q (-1) 1))).
    { intros q. unfold Checked.acos.
      destruct (clamp_range q (-1) 1) as [L U]; [lra|].
      apply leb_true in L, U. rewrite L, U. reflexivity. }
    unfold Checked.div.
    destruct (Req_dec_T (2 * d * r1) 0) as [Z|_]; [lra|].
    cbn [Checked.bind]. rewrite A. cbn [Checked.bind].
    destruct (Req_dec_T (2 * d * r2) 0) as [Z|_]; [lra|].
    cbn [Checked.bind]. rewrite A. cbn [Checked.bind].
    assert (0 < PI * (r1 * r1))
      by (apply Rmult_lt_0_compat; [apply PI_RGT_0 | nra]).
    destruct (Req_dec_T (PI * (r1 * r1)) 0) as [Z|_]; [lra|reflexivity].
Qed.

(** ** C8: the intersection of a line and a sphere *)

Lemma dot_line (o d : Vec.t) (t : R) :
  dotVector (addVector o (scaleVector d t)) (addVector o (scaleVector d t)) =
  dotVector o o + 2 * t * dotVector o d + t * t * dotVector d d.
Proof. unfold dotVector, addVector, scaleVector; cbn. ring. Qed.

(** For a unit direction the sphere equation factors through the two roots. *)
Lemma onSphereAt_roots (o d : Vec.t) (r t : R) :
  dotVector d d = 1 -> 0 <= sphereDiscriminant o d r ->
  onSphereAt o d r t <-> (t = sphereRootLow o d r \/ t = sphereRootHigh o d r).
Proof.
  intros Hu Hd. unfold onSphereAt. cbv zeta. rewrite dot_line, Hu.
  pose proof (sqrt_sqrt _ Hd) as Hs.
  unfold sphereRootLow, sphereRootHigh.
  set (s := sqrt (sphereDiscriminant o d r)) in *.
  unfold sphereDiscriminant in Hs.
  set (b := dotVector o d) in *. set (c := dotVector o o) in *.
  split.
  - intros H.
    assert (F : (t - (- (2 * b) - s) / 2) * (t - (- (2 * b) + s) / 2) = 0) by nra.
    apply Rmult_integral in F. destruct F; [left | right]; lra.
  - intros [-> | ->]; nra.
Qed.

Lemma onSphereAt_no_root (o d : Vec.t) (r t : R) :
  dotVector d d = 1 -> sphereDiscriminant o d r < 0 -> ~ onSphereAt o d r t.
Proof.
  intros Hu Hd. unfold onSphereAt. cbv zeta. rewrite dot_line, Hu.
  unfold sphereDiscriminant in Hd.
  set (b := dotVector o d) in *. set (c := dotVector o o) in *.
  intros H. pose proof (Rle_0_sqr (t + b)) as Q. unfold Rsqr in Q. lra.
Qed.

(** The value of the function in terms of the discriminant and the roots. *)
Lemma lineSphereIntersection_cases (o d : Vec.t) (r : R) :
  let t1 := sphereRootLow o d r in
  let t2 := sphereRootHigh o d r in
  (sphereDiscriminant o d r < 0 /\ lineSphereIntersection o d r = None) \/
  (0 <= sphereDiscriminant o d r /\ t1 <= t2 /\
   ((0 < t1 /\ lineSphereIntersection o d r = Some (addVector o (scaleVector d t1))) \/
    (t1 <= 0 /\ 0 < t2 /\
     lineSphereIntersection o d r = Some (addVector o (scaleVector d t2))) \/
    (t1 <= 0 /\ t2 <= 0 /\ lineSphereIntersection o d r = None))).
Proof.
  intros t1 t2. subst t1 t2.
  unfold lineSphereIntersection, sphereRootLow, sphereRootHigh. cbv zeta.
  fold (sphereDiscriminant o d r).
  set (disc := sphereDiscriminant o d r).
  destruct (disc <? 0) eqn:E.
  - left. apply ltb_true in E. auto.
  - right. apply ltb_false in E. split; [exact E|].
    pose proof (sqrt_pos disc) as Hs.
    set (s := sqrt disc) in *. set (b := 2 * dotVector o d) in *.
    split; [lra|].
    cbn [filter].
    destruct ((- b - s) / 2 >? 0) eqn:E1; destruct ((- b + s) / 2 >? 0) eqn:E2;
      try apply gtb_true in E1; try apply gtb_false in E1;
      try apply gtb_true in E2; try apply gtb_false in E2.
    + left. split; [lra|]. cbn [fold_left]. rewrite Rmin_left by lra. reflexivity.
    + lra.
    + right; left. cbn [fold_left]. auto.
    + right; right. auto.
Qed.

Lemma lineSphereIntersection_some (o d : Vec.t) (r t : R) :
  dotVector d d = 1 -> 0 < t -> onSphereAt o d r t ->
  exists p : Vec.t, lineSphereIntersection o d r = Some p.
Proof.
  intros Hu Ht Hs.
  destruct (lineSphereIntersection_cases o d r)
    as [[Hd E] | [Hd [Ho [[P E] | [[P1 [P2 E]] | [P1 [P2 E]]]]]]].
  - destruct (onSphereAt_no_root o d r t Hu Hd Hs).
  - eauto.
  - eauto.
  - apply (onSphereAt_roots o d r t Hu Hd) in Hs. destruct Hs; lra.
Qed.

(** The direction [shadowAxisOnEarth] passes is a unit vector. *)
Lemma normalizeVector_unit (v : Vec.t) :
  dotVector (normalizeVector v) (normalizeVector v) = 1.
Proof.
  unfold normalizeVector. destruct (magnitudeVector v <? 1e-12) eqn:E.
  - unfold dotVector. cbn [Vec.x Vec.y Vec.z]. ring.
  - apply ltb_false in E. unfold magnitudeVector in *.
    assert (P : 0 <= dotVector v v).
    { unfold dotVector.
      pose proof (Rle_0_sqr (Vec.x v)). pose proof (Rle_0_sqr (Vec.y v)).
      pose proof (Rle_0_sqr (Vec.z v)). unfold Rsqr in *. lra. }
    pose proof (sqrt_sqrt _ P) as Q.
    set (n := sqrt (dotVector v v)) in *.
    replace (dotVector (scaleVector v (1 / n)) (scaleVector v (1 / n)))
      with (dotVector v v * (1 / n) * (1 / n))
      by (unfold dotVector, scaleVector; cbn [Vec.x Vec.y Vec.z]; ring).
    rewrite <- Q. field. lra.
Qed.



(** ** C3: forward then backward *)

Lemma congruent360_within (tol a b : R) :
  0 <= tol -> congruent360 a b -> withinMod360 tol a b.
Proof.
  intros Ht [k H]. exists k. subst a.
  replace (b + 360 * IZR k - b - 360 * IZR k) with 0 by ring.
  rewrite Rabs_R0. exact Ht.
Qed.

Lemma normalize360_round_trip (a h rate : R) :
  congruent360 (normalize360 (normalize360 (a + h * rate) + - h * rate)) a.
Proof.
  eapply congruent360_trans; [apply normalize360_congruent|].
  replace a with (a + h * rate + - h * rate) at 2 by ring.
  apply congruent360_plus, normalize360_congruent.
Qed.

Lemma normalize180_round_trip (a h rate : R) :
  congruent360 (normalize180 (normalize180 (a + h * rate) + - h * rate)) a.
Proof.
  eapply congruent360_trans; [apply normalize180_congruent|].
  replace a with (a + h * rate + - h * rate) at 2 by ring.
  apply congruent360_plus, normalize180_congruent.
Qed.

(** In exact arithmetic, propagating by [h] hours and then propagating the
    resulting state by [-h] hours gives back each of the five angles up to
    whole turns, for every [h]. *)
Lemma deriveSimulationState_round_trip_exact
  (base : Params.t) (startDate startDate' : Date) (h : R) :
  let forward := deriveSimulationState base h startDate in
  let back := deriveSimulationState (State.asParams forward) (- h) startDate' in
  Forall2 (fun a b => congruent360 a b /\ withinMod360 1e-6 a b)
    (propagatedAngles (State.asParams back)) (propagatedAngles base).
Proof.
  intros forward back. subst forward back.
  unfold propagatedAngles, State.asParams, deriveSimulationState.
  cbn [State.earthRotation State.sunEclipticLon State.ascendingNodeLon
       State.moonNodePhase State.moonAnomaly
       Params.earthRotation Params.sunEclipticLon Params.ascendingNodeLon
       Params.moonNodePhase Params.moonAnomaly].
  assert (T : 0 <= 1e-6) by lra.
  repeat constructor;
    try (apply congruent360_within; [exact T|]);
    first [apply normalize360_round_trip | apply normalize180_round_trip].
Qed.

(** ** C4: the bounded search *)

Lemma turnStart_S (i : nat) (base : Params.t) (startDate : Date) (t : R) :
  turnStart (S i) base startDate t =
  match searchTurn base startDate t with
  | Return _ => None
  | Next t' => turnStart i base startDate t'
  end.
Proof. reflexivity. Qed.

Lemma searchLoop_spec (base : Params.t) (startDate : Date) (left : nat) :
  forall (i : nat) (t : R),
    let run := searchLoop left i base startDate t in
    (snd run <= i + left)%nat /\
    (fst run = None <-> horizonExhausted left base startDate t) /\
    (fst run = None -> snd run = (i + left)%nat) /\
    (forall bestT : R, fst run = Some bestT ->
       exists (j : nat) (tj : R),
         (j < left)%nat /\ turnStart j base startDate t = Some tj /\
         searchTurn base startDate tj = Return bestT /\ snd run = (i + j + 1)%nat).
Proof.
  induction left as [|left IH]; intros i t; cbn [searchLoop].
  - cbn. repeat split; try lia; try discriminate.
    intros j Hj. lia.
  - destruct (searchTurn base startDate t) as [b|t'] eqn:E.
    + cbn [fst snd]. repeat split; try lia; try discriminate.
      * intros H. destruct (H 0%nat ltac:(lia)) as [ti [Hs [t' Ht]]].
        cbn in Hs. injection Hs as <-. congruence.
      * intros bestT H. injection H as <-. exists 0%nat, t. repeat split; auto; lia.
    + specialize (IH (S i) t'). cbv zeta in IH.
      destruct IH as (B & N & C & F). repeat split.
      * lia.
      * intros H j Hj. destruct j as [|j].
        -- exists t. split; [reflexivity|]. exists t'. exact E.
        -- rewrite turnStart_S, E. apply (proj1 N H). lia.
      * intros H. apply (proj2 N). intros j Hj.
        specialize (H (S j) ltac:(lia)). rewrite turnStart_S, E in H. exact H.
      * intros H. rewrite (C H). lia.
      * intros bestT H. destruct (F bestT H) as (j & tj & Hj & Hs & Hr & Hn).
        exists (S j), tj. rewrite turnStart_S, E. repeat split; auto; lia.
Qed.

(** The scan of one turn is the fold of [scanStep] over the 121 offsets
    -6, -5.9, ..., 6: the loop leaves through its test, whatever fuel above 121
    it is given. *)
Lemma scanLoop_unroll (base : Params.t) (startDate : Date) (t : R) (n : nat) :
  forall (k fuel : nat) (s : Scan.t),
    (k + n = 121)%nat -> (n < fuel)%nat ->
    scanLoop fuel base startDate t (-6 + 0.1 * INR k) s =
    fold_left (fun s hour => scanStep base startDate t hour s)
      (map (fun k : nat => -6 + 0.1 * INR k) (seq k n)) s.
Proof.
  induction n as [|n IH]; intros k fuel s Hk Hf;
    (destruct fuel as [|fuel]; [lia|]); cbn [scanLoop].
  - assert (k = 121%nat) by lia. subst k.
    replace (-6 + 0.1 * INR 121 <=? 6) with false
      by (symmetry; apply leb_false; rewrite INR_IZR_INZ; simpl Z.of_nat; lra).
    reflexivity.
  - assert (Hle : INR k <= 120) by (rewrite INR_IZR_INZ; apply IZR_le; lia).
    replace (-6 + 0.1 * INR k <=? 6) with true by (symmetry; apply leb_true; lra).
    replace (-6 + 0.1 * INR k + 0.1) with (-6 + 0.1 * INR (S k))
      by (rewrite S_INR; lra).
    rewrite IH by lia. reflexivity.
Qed.

Lemma scanLoop_fuel (base : Params.t) (startDate : Date) (t : R) (fuel : nat) (s : Scan.t) :
  (121 < fuel)%nat ->
  scanLoop fuel base startDate t (-6) s =
  fold_left (fun s hour => scanStep base startDate t hour s) scanHours s.
Proof.
  intros Hf.
  replace (-6) with (-6 + 0.1 * INR 0) at 1
    by (rewrite INR_IZR_INZ; simpl Z.of_nat; lra).
  rewrite (scanLoop_unroll base startDate t 121 0 fuel s) by lia.
  reflexivity.
Qed.

(** C4: [findNextLocalEclipse] makes at most 10000 turns of its outer loop; it
    returns [null] exactly when all 10000 turns were made and none found a
    locally visible eclipse, and then it returns no number (in particular not
    0); a number it returns is the [bestT] of a turn that found one. *)
Theorem findNextLocalEclipse_bounded
  (base : Params.t) (currentSimHours : R) (startDate : Date) :
  let run := findNextLocalEclipseRun base currentSimHours startDate in
  let result := findNextLocalEclipse base currentSimHours startDate in
  (Z.of_nat (snd run) <= 10000)%Z /\
  (horizonExhausted MAX_TURNS base startDate (currentSimHours + 24) <->
   result = None) /\
  (result = None ->
   Z.of_nat (snd run) = 10000%Z /\ forall hours : R, result <> Some hours) /\
  (forall hours : R, result = Some hours ->
     exists (j : nat) (tj : R),
       (Z.of_nat j < 10000)%Z /\
       turnStart j base startDate (currentSimHours + 24) = Some tj /\
       searchTurn base startDate tj = Return hours).
Proof.
  intros run result. subst run result.
  unfold findNextLocalEclipse, findNextLocalEclipseRun.
  destruct (searchLoop_spec base startDate MAX_TURNS 0 (currentSimHours + 24))
    as (B & N & C & F).
  assert (M : Z.of_nat MAX_TURNS = 10000%Z) by (unfold MAX_TURNS; lia).
  repeat split.
  - lia.
  - apply (proj2 N).
  - apply (proj1 N).
  - rewrite (C H). lia.
  - intros hours. rewrite H. discriminate.
  - intros hours H. destruct (F hours H) as (j & tj & Hj & Hs & Hr & _).
    exists j, tj. repeat split; auto. lia.
Qed.

(** ** Bounds on the distances and the angular radii *)

Lemma RAD_pos : 0 < RAD.
Proof. unfold RAD. apply Rdiv_lt_0_compat; [lra | apply PI_RGT_0]. Qed.

Lemma DEG_pos : 0 < DEG.
Proof. unfold DEG. pose proof PI_RGT_0. lra. Qed.

Lemma RAD_DEG (x : R) : x * RAD * DEG = x.
Proof. unfold RAD, DEG. field. apply PI_neq0. Qed.

Lemma div_bounds (x y lo hi : R) :
  0 < y -> lo * y <= x <= hi * y -> lo <= x / y <= hi.
Proof.
  intros Hy [Hl Hh]. pose proof (Rinv_0_lt_compat y Hy) as Hi.
  assert (E : forall k, k * y * / y = k) by (intros k; field; lra).
  unfold Rdiv. split.
  - rewrite <- (E lo). apply Rmult_le_compat_r; lra.
  - rewrite <- (E hi). apply Rmult_le_compat_r; lra.
Qed.

Lemma div_lt_bound (x y hi : R) : 0 < y -> x < hi * y -> x / y < hi.
Proof.
  intros Hy Hh. pose proof (Rinv_0_lt_compat y Hy) as Hi.
  assert (E : hi * y * / y = hi) by (field; lra).
  unfold Rdiv. rewrite <- E. apply Rmult_lt_compat_r; lra.
Qed.

Lemma asin_lt (a b : R) : -1 <= a -> a < b -> b <= 1 -> asin a < asin b.
Proof.
  intros Ha Hab Hb.
  apply sin_increasing_0; try apply asin_bound.
  rewrite !sin_asin by lra. exact Hab.
Qed.

Lemma asin_le (a b : R) : -1 <= a -> a <= b -> b <= 1 -> asin a <= asin b.
Proof.
  intros Ha [Hab | ->] Hb; [left; apply asin_lt; lra | right; reflexivity].
Qed.

Lemma asin_small (x : R) : 0 < x < 1 -> 0 < asin x < PI / 2 /\ sin (asin x) = x.
Proof.
  intros H. split; [split|].
  - rewrite <- asin_0. apply asin_lt; lra.
  - apply asin_bound_lt. lra.
  - apply sin_asin. lra.
Qed.

Lemma sun_distanceAu_bounds (t : R) :
  0.98329 <= Sun.distanceAu (sunEclipticCoordinates t) <= 1.01699.
Proof.
  unfold sunEclipticCoordinates. cbn [Sun.distanceAu].
  match goal with
  | |- _ <= _ - _ * cos ?m - _ * cos ?n <= _ =>
      pose proof (COS_bound m); pose proof (COS_bound n)
  end.
  lra.
Qed.

Section Radii.

Variables (julianDay : R) (controls : State.t) (rotationOffsetDeg : R).

Local Abbreviation a := (computeAstronomy julianDay controls rotationOffsetDeg).

(** The sines of the two angular radii and of the parallax. *)
Local Abbreviation sunX := (SUN_RADIUS_KM / Astro.sunDistanceKm a).
Local Abbreviation moonX := (MOON_RADIUS_KM / Astro.moonDistanceKm a).
Local Abbreviation parX := (EARTH_RADIUS_KM / Astro.moonDistanceKm a).

Lemma moonDistanceKm_bounds : 363300 <= Astro.moonDistanceKm a <= 405500.
Proof.
  unfold computeAstronomy. cbn [Astro.moonDistanceKm].
  apply clamp_range. unfold MOON_PERIGEE_KM, MOON_APOGEE_KM. lra.
Qed.

Lemma sunDistanceKm_bounds : 147000000 <= Astro.sunDistanceKm a <= 152200000.
Proof.
  unfold computeAstronomy. cbn [Astro.sunDistanceKm].
  pose proof (sun_distanceAu_bounds (julianCenturies julianDay)) as B.
  unfold AU_KM. lra.
Qed.

Lemma sunX_bounds : 0.0045 <= sunX <= 0.00474.
Proof.
  pose proof sunDistanceKm_bounds.
  apply div_bounds; unfold SUN_RADIUS_KM; lra.
Qed.

Lemma moonX_bounds : 0.00428 <= moonX <= 0.00479.
Proof.
  pose proof moonDistanceKm_bounds.
  apply div_bounds; unfold MOON_RADIUS_KM; lra.
Qed.

Lemma parX_bounds : 0.0157 <= parX <= 0.0176.
Proof.
  pose proof moonDistanceKm_bounds.
  apply div_bounds; unfold EARTH_RADIUS_KM; lra.
Qed.

(** The sine of the sum of the two radii stays below the sine of the
    parallax: [sunX + moonX < parX]. *)
Lemma radii_below_parallax : sunX + moonX < parX.
Proof.
  pose proof sunX_bounds as S. pose proof moonDistanceKm_bounds as D.
  assert (E : EARTH_RADIUS_KM / Astro.moonDistanceKm a
              = MOON_RADIUS_KM / Astro.moonDistanceKm a
                + 4633.6 / Astro.moonDistanceKm a).
  { unfold EARTH_RADIUS_KM, MOON_RADIUS_KM, Rdiv. lra. }
  rewrite E.
  assert (0.0114 <= 4633.6 / Astro.moonDistanceKm a <= 1)
    by (apply div_bounds; lra).
  lra.
Qed.

Lemma sunAngularRadiusDeg_eq : Astro.sunAngularRadiusDeg a = asin sunX * RAD.
Proof.
  pose proof sunX_bounds.
  rewrite <- (clamp_inside sunX (-1) 1) by lra. reflexivity.
Qed.

Lemma moonAngularRadiusDeg_eq : Astro.moonAngularRadiusDeg a = asin moonX * RAD.
Proof.
  pose proof moonX_bounds.
  rewrite <- (clamp_inside moonX (-1) 1) by lra. reflexivity.
Qed.

Lemma moonParallaxDeg_eq : moonParallaxDegOf a = asin parX * RAD.
Proof.
  pose proof parX_bounds.
  rewrite <- (clamp_inside parX (-1) 1) by lra. reflexivity.
Qed.

Lemma sunAngularRadiusDeg_pos : 0 < Astro.sunAngularRadiusDeg a.
Proof.
  rewrite sunAngularRadiusDeg_eq. pose proof sunX_bounds.
  apply Rmult_lt_0_compat; [apply asin_small; lra | apply RAD_pos].
Qed.

Lemma moonAngularRadiusDeg_pos : 0 < Astro.moonAngularRadiusDeg a.
Proof.
  rewrite moonAngularRadiusDeg_eq. pose proof moonX_bounds.
  apply Rmult_lt_0_compat; [apply asin_small; lra | apply RAD_pos].
Qed.

Lemma moonParallaxDeg_pos : 0 < moonParallaxDegOf a.
Proof.
  rewrite moonParallaxDeg_eq. pose proof parX_bounds.
  apply Rmult_lt_0_compat; [apply asin_small; lra | apply RAD_pos].
Qed.

Lemma sin_parallax : sin (moonParallaxDegOf a * DEG) = parX.
Proof.
  rewrite moonParallaxDeg_eq, RAD_DEG. pose proof parX_bounds.
  apply asin_small. lra.
Qed.

End Radii.

(** ** The output of the engine, field by field *)

Section EngineFields.

Variables (julianDay : R) (controls : State.t) (rotationOffsetDeg : R).

Local Abbreviation a := (computeAstronomy julianDay controls rotationOffsetDeg).

Lemma depth_eq :
  Astro.depth a =
  overlapFraction (Astro.sunAngularRadiusDeg a) (Astro.moonAngularRadiusDeg a)
    (Astro.bestSeparationDeg a).
Proof. reflexivity. Qed.

Lemma bestSeparationDeg_eq :
  Astro.bestSeparationDeg a = Rmax 0 (Astro.separationDeg a - moonParallaxDegOf a).
Proof. reflexivity. Qed.

Lemma penumbraRadiusDeg_eq :
  Astro.penumbraRadiusDeg a =
  if Astro.depth a <=? 0 then 0
  else solveFootprintRadiusDeg (moonParallaxDegOf a)
         (Astro.sunAngularRadiusDeg a + Astro.moonAngularRadiusDeg a).
Proof. reflexivity. Qed.

Lemma umbraRadiusDeg_eq :
  Astro.umbraRadiusDeg a =
  if Astro.axisHitsEarth a then
    (if Astro.depth a <=? 0 then 0
     else solveFootprintRadiusDeg (moonParallaxDegOf a)
            (Rabs (Astro.sunAngularRadiusDeg a - Astro.moonAngularRadiusDeg a)))
  else 0.
Proof. reflexivity. Qed.


Lemma depth_range : 0 <= Astro.depth a <= 1.
Proof. rewrite depth_eq. apply overlapFraction_range. Qed.

Lemma bestSeparationDeg_nonneg : 0 <= Astro.bestSeparationDeg a.
Proof. rewrite bestSeparationDeg_eq. apply Rmax_l. Qed.

End EngineFields.

(** ** The footprint radius *)

Lemma solveFootprintRadiusDeg_formula (p t : R) :
  0 < p -> 0 <= t -> 0 < sin (p * DEG) -> 0 <= sin (t * DEG) ->
  sin (t * DEG) / sin (p * DEG) < 1 ->
  solveFootprintRadiusDeg p t = asin (sin (t * DEG) / sin (p * DEG)) * RAD.
Proof.
  intros Hp Ht Hd Hn Hr. unfold solveFootprintRadiusDeg.
  replace (p <=? 0) with false by (symmetry; apply leb_false; lra).
  cbn [orb].
  destruct (t <=? 0) eqn:E.
  - apply leb_true in E. assert (t = 0) by lra. subst t.
    rewrite Rmult_0_l, sin_0. unfold Rdiv. rewrite Rmult_0_l, asin_0. ring.
  - replace (sin (p * DEG) <=? 0) with false by (symmetry; apply leb_false; lra).
    replace (sin (t * DEG) / sin (p * DEG) >=? 1) with false
      by (symmetry; apply geb_false; lra).
    rewrite clamp_inside; [reflexivity|].
    split; [|lra].
    assert (0 <= sin (t * DEG) / sin (p * DEG)); [|lra].
    apply Rmult_le_pos; [exact Hn | left; apply Rinv_0_lt_compat; exact Hd].
Qed.

Lemma solveFootprintRadiusDeg_clamped (p t : R) :
  0 < p -> 0 < t -> 0 < sin (p * DEG) -> 1 <= sin (t * DEG) / sin (p * DEG) ->
  solveFootprintRadiusDeg p t = 89.5.
Proof.
  intros Hp Ht Hd Hr. unfold solveFootprintRadiusDeg.
  replace (p <=? 0) with false by (symmetry; apply leb_false; lra).
  replace (t <=? 0) with false by (symmetry; apply leb_false; lra).
  cbn [orb].
  replace (sin (p * DEG) <=? 0) with false by (symmetry; apply leb_false; lra).
  replace (sin (t * DEG) / sin (p * DEG) >=? 1) with true
    by (symmetry; apply geb_true; lra).
  reflexivity.
Qed.

Section Footprint.

Variables (julianDay : R) (controls : State.t) (rotationOffsetDeg : R).

Local Abbreviation a := (computeAstronomy julianDay controls rotationOffsetDeg).
Local Abbreviation sr := (Astro.sunAngularRadiusDeg a).
Local Abbreviation mr := (Astro.moonAngularRadiusDeg a).
Local Abbreviation par := (moonParallaxDegOf a).

(** The angles in radians. *)
Local Abbreviation radS := (asin (SUN_RADIUS_KM / Astro.sunDistanceKm a)).
Local Abbreviation radM := (asin (MOON_RADIUS_KM / Astro.moonDistanceKm a)).

Lemma radians_small :
  (0 < radS < PI / 2 /\ sin radS = SUN_RADIUS_KM / Astro.sunDistanceKm a) /\
  (0 < radM < PI / 2 /\ sin radM = MOON_RADIUS_KM / Astro.moonDistanceKm a).
Proof.
  pose proof (sunX_bounds julianDay controls rotationOffsetDeg) as BS.
  pose proof (moonX_bounds julianDay controls rotationOffsetDeg) as BM.
  split; apply asin_small; lra.
Qed.

Lemma sum_radians : (sr + mr) * DEG = radS + radM.
Proof.
  rewrite sunAngularRadiusDeg_eq, moonAngularRadiusDeg_eq.
  rewrite Rmult_plus_distr_r, !RAD_DEG. reflexivity.
Qed.

Lemma diff_radians : Rabs (sr - mr) * DEG = Rabs (radS - radM).
Proof.
  rewrite sunAngularRadiusDeg_eq, moonAngularRadiusDeg_eq.
  replace (radS * RAD - radM * RAD) with ((radS - radM) * RAD) by ring.
  rewrite Rabs_mult, (Rabs_pos_eq RAD) by (left; apply RAD_pos).
  apply RAD_DEG.
Qed.

Lemma penumbra_sine : 0 < sin ((sr + mr) * DEG) < sin (par * DEG).
Proof.
  destruct radians_small as [[HS ES] [HM EM]].
  pose proof (radii_below_parallax julianDay controls rotationOffsetDeg) as B.
  pose proof (sunX_bounds julianDay controls rotationOffsetDeg) as BS.
  pose proof (moonX_bounds julianDay controls rotationOffsetDeg) as BM.
  rewrite sum_radians. rewrite sin_parallax. split.
  - apply sin_gt_0; lra.
  - rewrite sin_plus, ES, EM.
    pose proof (COS_bound radS). pose proof (COS_bound radM).
    set (x := SUN_RADIUS_KM / Astro.sunDistanceKm a) in *.
    set (y := MOON_RADIUS_KM / Astro.moonDistanceKm a) in *.
    clearbody x y.
    assert (x * cos (asin y) <= x) by nra.
    assert (cos (asin x) * y <= y) by nra. lra.
Qed.

Lemma core_sine : 0 <= sin (Rabs (sr - mr) * DEG) < sin (par * DEG).
Proof.
  destruct radians_small as [[HS ES] [HM EM]].
  pose proof (radii_below_parallax julianDay controls rotationOffsetDeg) as B.
  pose proof (sunX_bounds julianDay controls rotationOffsetDeg) as BS.
  pose proof (moonX_bounds julianDay controls rotationOffsetDeg) as BM.
  rewrite diff_radians. rewrite sin_parallax.
  pose proof (Rabs_pos (radS - radM)) as P.
  assert (U : Rabs (radS - radM) <= Rmax radS radM).
  { unfold Rabs, Rmax. destruct (Rcase_abs (radS - radM)); destruct (Rle_dec radS radM); lra. }
  assert (V : Rmax radS radM < PI / 2) by (unfold Rmax; destruct (Rle_dec radS radM); lra).
  assert (W : 0 < Rmax radS radM) by (unfold Rmax; destruct (Rle_dec radS radM); lra).
  pose proof PI_RGT_0.
  split.
  - apply sin_ge_0; lra.
  - apply Rle_lt_trans with (sin (Rmax radS radM)).
    + apply sin_incr_1; lra.
    + unfold Rmax. destruct (Rle_dec radS radM); [rewrite EM | rewrite ES]; lra.
Qed.

End Footprint.

(** ** C1, C6: depth and the footprint radii *)

Section DepthAndFootprint.

Variables (julianDay : R) (controls : State.t) (rotationOffsetDeg : R).

Local Abbreviation a := (computeAstronomy julianDay controls rotationOffsetDeg).
Local Abbreviation sr := (Astro.sunAngularRadiusDeg a).
Local Abbreviation mr := (Astro.moonAngularRadiusDeg a).
Local Abbreviation par := (moonParallaxDegOf a).

Lemma penumbra_when_eclipsed :
  0 < Astro.depth a ->
  Astro.penumbraRadiusDeg a = asin (sin ((sr + mr) * DEG) / sin (par * DEG)) * RAD /\
  0 < Astro.penumbraRadiusDeg a.
Proof.
  intros Hd. rewrite penumbraRadiusDeg_eq.
  replace (Astro.depth a <=? 0) with false by (symmetry; apply leb_false; lra).
  pose proof (penumbra_sine julianDay controls rotationOffsetDeg) as [Hn Hr].
  pose proof (moonParallaxDeg_pos julianDay controls rotationOffsetDeg) as Hp.
  pose proof (sunAngularRadiusDeg_pos julianDay controls rotationOffsetDeg) as Hs.
  pose proof (moonAngularRadiusDeg_pos julianDay controls rotationOffsetDeg) as Hm.
  assert (Hq : sin ((sr + mr) * DEG) / sin (par * DEG) < 1)
    by (apply div_lt_bound; lra).
  assert (Hq0 : 0 < sin ((sr + mr) * DEG) / sin (par * DEG))
    by (apply Rdiv_lt_0_compat; lra).
  rewrite solveFootprintRadiusDeg_formula by lra.
  split; [reflexivity|].
  apply Rmult_lt_0_compat; [apply asin_small; lra | apply RAD_pos].
Qed.

Lemma core_when_eclipsed :
  0 < Astro.depth a -> Astro.axisHitsEarth a = true ->
  Astro.umbraRadiusDeg a = asin (sin (Rabs (sr - mr) * DEG) / sin (par * DEG)) * RAD.
Proof.
  intros Hd Hh. rewrite umbraRadiusDeg_eq. rewrite Hh.
  replace (Astro.depth a <=? 0) with false by (symmetry; apply leb_false; lra).
  pose proof (core_sine julianDay controls rotationOffsetDeg) as [Hn Hr].
  pose proof (moonParallaxDeg_pos julianDay controls rotationOffsetDeg) as Hp.
  apply solveFootprintRadiusDeg_formula; try lra.
  - apply Rabs_pos.
  - apply div_lt_bound; lra.
Qed.

Lemma radii_when_not_eclipsed :
  Astro.depth a <= 0 -> Astro.penumbraRadiusDeg a = 0 /\ Astro.umbraRadiusDeg a = 0.
Proof.
  intros Hd. rewrite penumbraRadiusDeg_eq, umbraRadiusDeg_eq.
  replace (Astro.depth a <=? 0) with true by (symmetry; apply leb_true; lra).
  split; [reflexivity|]. destruct (Astro.axisHitsEarth a); reflexivity.
Qed.

Lemma depth_zero_iff_no_footprint :
  Astro.depth a = 0 <-> Astro.umbraRadiusDeg a = 0 /\ Astro.penumbraRadiusDeg a = 0.
Proof.
  pose proof (depth_range julianDay controls rotationOffsetDeg) as R. split.
  - intros H. destruct radii_when_not_eclipsed; [lra | auto].
  - intros [_ H]. destruct (Rle_lt_or_eq_dec _ _ (proj1 R)) as [Hpos|]; [|auto].
    destruct (penumbra_when_eclipsed Hpos). lra.
Qed.

End DepthAndFootprint.

(** C1: the depth of the derived model lies in [0, 1], and it is 0 exactly
    when both footprint radii are 0. *)
Theorem depth_and_footprint (state : State.t) :
  let m := deriveModel state in
  0 <= Model.depth m <= 1 /\
  (Model.depth m = 0 <-> Model.umbraRadiusDeg m = 0 /\ Model.penumbraRadiusDeg m = 0).
Proof.
  intros m. subst m.
  unfold Model.depth, Model.umbraRadiusDeg, Model.penumbraRadiusDeg, deriveModel.
  cbn [Model.astro]. split.
  - apply depth_range.
  - apply depth_zero_iff_no_footprint.
Qed.

(** C6: the parallax is positive for every state.  When there is an eclipse
    (depth above 0) the penumbra radius is
    asin (sin (sunRadius + moonRadius) / sin parallax), in degrees, and the
    umbra radius, reported when the axis hits Earth, is
    asin (sin |sunRadius - moonRadius| / sin parallax); both sine ratios are
    below 1 for every state.  [solveFootprintRadiusDeg] answers 89.5 whenever
    the ratio exceeds 1.  When depth is 0 both radii are 0. *)
Theorem footprint_radii (julianDay : R) (controls : State.t) (rotationOffsetDeg : R) :
  let a := computeAstronomy julianDay controls rotationOffsetDeg in
  let sr := Astro.sunAngularRadiusDeg a in
  let mr := Astro.moonAngularRadiusDeg a in
  let par := moonParallaxDegOf a in
  0 < par /\
  (0 < sin ((sr + mr) * DEG) / sin (par * DEG) < 1 /\
   0 <= sin (Rabs (sr - mr) * DEG) / sin (par * DEG) < 1) /\
  (0 < Astro.depth a ->
   Astro.penumbraRadiusDeg a = asin (sin ((sr + mr) * DEG) / sin (par * DEG)) * RAD /\
   (Astro.axisHitsEarth a = true ->
    Astro.umbraRadiusDeg a =
      asin (sin (Rabs (sr - mr) * DEG) / sin (par * DEG)) * RAD)) /\
  (forall p t : R,
      0 < p -> 0 < t -> 0 < sin (p * DEG) -> 1 < sin (t * DEG) / sin (p * DEG) ->
      solveFootprintRadiusDeg p t = 89.5) /\
  (Astro.depth a = 0 -> Astro.penumbraRadiusDeg a = 0 /\ Astro.umbraRadiusDeg a = 0).
Proof.
  intros a sr mr par.
  pose proof (penumbra_sine julianDay controls rotationOffsetDeg) as [Pn Pr].
  pose proof (core_sine julianDay controls rotationOffsetDeg) as [Cn Cr].
  fold a sr mr par in Pn, Pr, Cn, Cr.
  split; [apply moonParallaxDeg_pos|]. split; [|split; [|split]].
  - split; split.
    + apply Rdiv_lt_0_compat; lra.
    + apply div_lt_bound; lra.
    + apply Rmult_le_pos; [lra | left; apply Rinv_0_lt_compat; lra].
    + apply div_lt_bound; lra.
  - intros Hd. split.
    + apply penumbra_when_eclipsed, Hd.
    + intros Hh. apply core_when_eclipsed; assumption.
  - intros p t Hp Ht Hs Hr. apply solveFootprintRadiusDeg_clamped; lra.
  - intros Hd. apply radii_when_not_eclipsed. subst a. lra.
Qed.

(** ** C2: classification *)

Lemma classifyEclipse_cases (sep sr mr depth : R) (hits : bool) :
  (depth <= 0.0005 -> classifyEclipse sep sr mr depth hits = NoEclipse) /\
  (0.0005 < depth -> hits = true -> sep <= Rabs (mr - sr) -> sr <= mr ->
   classifyEclipse sep sr mr depth hits = TotalEclipse) /\
  (0.0005 < depth -> hits = true -> sep <= Rabs (mr - sr) -> mr < sr ->
   classifyEclipse sep sr mr depth hits = AnnularEclipse) /\
  (0.0005 < depth -> ~ (hits = true /\ sep <= Rabs (mr - sr)) -> sep < sr + mr ->
   classifyEclipse sep sr mr depth hits = PartialEclipse) /\
  (0.0005 < depth -> ~ (hits = true /\ sep <= Rabs (mr - sr)) -> sr + mr <= sep ->
   classifyEclipse sep sr mr depth hits = NoEclipse).
Proof.
  unfold classifyEclipse. repeat split.
  - intros H. apply leb_true in H. rewrite H. reflexivity.
  - intros Hd -> Hs Hm. apply leb_false in Hd. apply leb_true in Hs.
    apply geb_true in Hm. rewrite Hd, Hs, Hm. reflexivity.
  - intros Hd -> Hs Hm. apply leb_false in Hd. apply leb_true in Hs.
    apply geb_false in Hm. rewrite Hd, Hs, Hm. reflexivity.
  - intros Hd Hn Hs. apply leb_false in Hd. apply ltb_true in Hs. rewrite Hd, Hs.
    destruct hits; cbn [andb]; [|reflexivity].
    destruct (sep <=? Rabs (mr - sr)) eqn:E; [|reflexivity].
    apply leb_true in E. tauto.
  - intros Hd Hn Hs. apply leb_false in Hd. apply ltb_false in Hs. rewrite Hd, Hs.
    destruct hits; cbn [andb]; [|reflexivity].
    destruct (sep <=? Rabs (mr - sr)) eqn:E; [|reflexivity].
    apply leb_true in E. tauto.
Qed.

(** C2: the classification of the model, read off its own fields: none when
    depth <= 0.0005; otherwise total when the axis hits Earth, the best
    separation is at most |moonRadius - sunRadius| and moonRadius >= sunRadius;
    annular in the same case with moonRadius < sunRadius; otherwise partial
    when the best separation is below the sum of the radii; otherwise none.
    In the total case the depth is 1, so its condition alone decides. *)
Theorem eclipse_classification
  (julianDay : R) (controls : State.t) (rotationOffsetDeg : R) :
  let a := computeAstronomy julianDay controls rotationOffsetDeg in
  let sep := Astro.bestSeparationDeg a in
  let sr := Astro.sunAngularRadiusDeg a in
  let mr := Astro.moonAngularRadiusDeg a in
  let central := Astro.axisHitsEarth a = true /\ sep <= Rabs (mr - sr) in
  (Astro.depth a <= 0.0005 -> Astro.eclipseClass a = NoEclipse) /\
  (0.0005 < Astro.depth a -> central -> sr <= mr ->
   Astro.eclipseClass a = TotalEclipse) /\
  (0.0005 < Astro.depth a -> central -> mr < sr ->
   Astro.eclipseClass a = AnnularEclipse) /\
  (0.0005 < Astro.depth a -> ~ central -> sep < sr + mr ->
   Astro.eclipseClass a = PartialEclipse) /\
  (0.0005 < Astro.depth a -> ~ central -> sr + mr <= sep ->
   Astro.eclipseClass a = NoEclipse) /\
  (central -> sr <= mr -> Astro.depth a = 1 /\ Astro.eclipseClass a = TotalEclipse).
Proof.
  intros a sep sr mr central.
  pose proof (classifyEclipse_cases sep sr mr (Astro.depth a) (Astro.axisHitsEarth a))
    as (C1 & C2 & C3 & C4 & C5).
  assert (E : Astro.eclipseClass a =
              classifyEclipse sep sr mr (Astro.depth a) (Astro.axisHitsEarth a))
    by reflexivity.
  rewrite E. subst central.
  repeat split; try tauto.
  - destruct H as [Hh Hs].
    pose proof (sunAngularRadiusDeg_pos julianDay controls rotationOffsetDeg) as Ps.
    pose proof (bestSeparationDeg_nonneg julianDay controls rotationOffsetDeg) as Pd.
    fold a in Ps, Pd. fold sr in Ps. fold sep in Pd.
    rewrite Rabs_pos_eq in Hs by lra.
    change (Astro.depth a) with (overlapFraction sr mr sep).
    apply overlapFraction_covered; try lra.
    rewrite Rabs_minus_sym, Rabs_pos_eq; lra.
  - destruct H as [Hh Hs].
    pose proof (sunAngularRadiusDeg_pos julianDay controls rotationOffsetDeg) as Ps.
    pose proof (bestSeparationDeg_nonneg julianDay controls rotationOffsetDeg) as Pd.
    fold a in Ps, Pd. fold sr in Ps. fold sep in Pd.
    apply C2; auto.
    rewrite Rabs_pos_eq in Hs by lra.
    change (Astro.depth a) with (overlapFraction sr mr sep).
    rewrite overlapFraction_covered; try lra.
    rewrite Rabs_minus_sym, Rabs_pos_eq; lra.
Qed.

(** ** C9: the ground track *)






(** At offset 0 the sample of a propagated state is the state itself. *)
Lemma sampleControls_zero (base : Params.t) (simHours : R) (startDate : Date) :
  sampleControls (deriveSimulationState base simHours startDate) 0 =
  deriveSimulationState base simHours startDate.
Proof.
  unfold sampleControls, deriveSimulationState.
  cbn [State.moonDistanceMode State.observerLat State.observerLon State.observerTilt
       State.simHours State.date State.julianDay State.gmst State.earthRotation
       State.sunEclipticLon State.ascendingNodeLon State.descendingNodeLon
       State.moonNodePhase State.moonEclipticLon State.moonAnomaly].
  rewrite !Rmult_0_l, !Rplus_0_r, !normalize360_idem, normalize180_idem.
  reflexivity.
Qed.

Lemma trackSample_zero (base : Params.t) (simHours : R) (startDate : Date) (off : R) :
  let state := deriveSimulationState base simHours startDate in
  trackSample (State.julianDay state) state off 0 =
  computeAstronomy (State.julianDay state) state off.
Proof.
  intros state. unfold trackSample. subst state. rewrite sampleControls_zero.
  f_equal. unfold Rdiv. ring.
Qed.


(** ** The samples of the track against a fresh propagation *)

Lemma congruent360_add (a b c d : R) :
  congruent360 a b -> congruent360 c d -> congruent360 (a + c) (b + d).
Proof. intros [k H] [l H']. exists (k + l)%Z. rewrite plus_IZR. lra. Qed.






(** ** A central eclipse: Sun, Moon and node at longitude 0, Moon at perigee *)

Lemma sphericalToCartesian_axis (d : R) : sphericalToCartesian d 0 0 = Vec.mk d 0 0.
Proof.
  unfold sphericalToCartesian. rewrite Rmult_0_l, cos_0, sin_0. f_equal; ring.
Qed.

Lemma rotationMatrixX_axis (angleDeg d : R) :
  applyMatrix3 (rotationMatrixX angleDeg) (Vec.mk d 0 0) = Vec.mk d 0 0.
Proof.
  unfold applyMatrix3, rotationMatrixX, dotVector. cbn [Vec.x Vec.y Vec.z].
  f_equal; ring.
Qed.

Lemma normalizeVector_axis (d : R) : 1e-12 <= d -> normalizeVector (Vec.mk d 0 0) = Vec.mk 1 0 0.
Proof.
  intros Hd. unfold normalizeVector, magnitudeVector, dotVector.
  cbn [Vec.x Vec.y Vec.z].
  replace (d * d + 0 * 0 + 0 * 0) with (d * d) by ring.
  rewrite sqrt_square by lra.
  replace (d <? 1e-12) with false by (symmetry; apply ltb_false; lra).
  unfold scaleVector. cbn [Vec.x Vec.y Vec.z]. f_equal; try ring.
  field. lra.
Qed.

Lemma normalizeVector_neg_axis (d : R) :
  1e-12 <= d -> normalizeVector (scaleVector (Vec.mk d 0 0) (-1)) = Vec.mk (-1) 0 0.
Proof.
  intros Hd. unfold normalizeVector, magnitudeVector, dotVector, scaleVector.
  cbn [Vec.x Vec.y Vec.z].
  replace (d * -1 * (d * -1) + 0 * -1 * (0 * -1) + 0 * -1 * (0 * -1)) with (d * d) by ring.
  rewrite sqrt_square by lra.
  replace (d <? 1e-12) with false by (symmetry; apply ltb_false; lra).
  f_equal; try ring. field. lra.
Qed.

Lemma angularSeparation_axis (d1 d2 : R) :
  1e-12 <= d1 -> 1e-12 <= d2 ->
  angularSeparationFromVectors (Vec.mk d1 0 0) (Vec.mk d2 0 0) = 0.
Proof.
  intros H1 H2. unfold angularSeparationFromVectors.
  rewrite !normalizeVector_axis by assumption.
  unfold dotVector. cbn [Vec.x Vec.y Vec.z].
  replace (1 * 1 + 0 * 0 + 0 * 0) with 1 by ring.
  rewrite clamp_inside by lra. rewrite acos_1. ring.
Qed.

Section Central.

Variables (julianDay : R) (controls : State.t) (rotationOffsetDeg : R).

Hypothesis sun_at_0 : normalize360 (State.sunEclipticLon controls) = 0.
Hypothesis node_at_0 : normalize360 (State.ascendingNodeLon controls) = 0.
Hypothesis moon_at_0 : normalize360 (State.moonEclipticLon controls) = 0.
Hypothesis perigee : State.moonDistanceMode controls = 0.

Local Abbreviation a := (computeAstronomy julianDay controls rotationOffsetDeg).

Lemma central_moonEclipticLat : Astro.moonEclipticLat a = 0.
Proof.
  unfold computeAstronomy. cbn [Astro.moonEclipticLat].
  rewrite moon_at_0, node_at_0.
  replace (0 - 0) with 0 by ring.
  rewrite normalize180_fixed by lra.
  rewrite Rmult_0_l, sin_0, Rmult_0_r. apply clamp_inside. lra.
Qed.

Lemma central_moonDistanceKm : Astro.moonDistanceKm a = 363300.
Proof.
  unfold computeAstronomy. cbn [Astro.moonDistanceKm].
  rewrite perigee, Rmult_0_l, Rplus_0_r.
  unfold MOON_PERIGEE_KM, MOON_APOGEE_KM. apply clamp_inside. lra.
Qed.

Lemma central_separationDeg : Astro.separationDeg a = 0.
Proof.
  pose proof (sunDistanceKm_bounds julianDay controls rotationOffsetDeg) as BS.
  pose proof (moonDistanceKm_bounds julianDay controls rotationOffsetDeg) as BM.
  pose proof central_moonEclipticLat as L.
  assert (E : Astro.separationDeg a =
              angularSeparationFromVectors
                (applyMatrix3 (rotationMatrixX (meanObliquityDeg (julianCenturies julianDay)))
                   (sphericalToCartesian (Astro.sunDistanceKm a)
                      (normalize360 (State.sunEclipticLon controls)) 0))
                (applyMatrix3 (rotationMatrixX (meanObliquityDeg (julianCenturies julianDay)))
                   (sphericalToCartesian (Astro.moonDistanceKm a)
                      (normalize360 (State.moonEclipticLon controls))
                      (Astro.moonEclipticLat a)))) by reflexivity.
  rewrite E, L, sun_at_0, moon_at_0, !sphericalToCartesian_axis, !rotationMatrixX_axis.
  apply angularSeparation_axis; lra.
Qed.

Lemma central_depth : Astro.depth a = 1.
Proof.
  pose proof (sunX_bounds julianDay controls rotationOffsetDeg) as BS.
  pose proof (sunAngularRadiusDeg_pos julianDay controls rotationOffsetDeg) as PS.
  pose proof (moonAngularRadiusDeg_pos julianDay controls rotationOffsetDeg) as PM.
  pose proof (moonParallaxDeg_pos julianDay controls rotationOffsetDeg) as PP.
  pose proof RAD_pos as PR.
  assert (Hsep : Astro.bestSeparationDeg a = 0).
  { rewrite bestSeparationDeg_eq. rewrite central_separationDeg.
    apply Rmax_left. lra. }
  assert (Hle : Astro.sunAngularRadiusDeg a <= Astro.moonAngularRadiusDeg a).
  { rewrite sunAngularRadiusDeg_eq, moonAngularRadiusDeg_eq. rewrite central_moonDistanceKm.
    apply Rmult_le_compat_r; [lra|].
    assert (0.00478 <= MOON_RADIUS_KM / 363300 <= 0.00479)
      by (apply div_bounds; unfold MOON_RADIUS_KM; lra).
    apply asin_le; lra. }
  rewrite depth_eq. rewrite Hsep.
  apply overlapFraction_covered; try lra. apply Rabs_pos.
Qed.

Lemma central_axisHitsEarth : Astro.axisHitsEarth a = true.
Proof.
  pose proof (sunDistanceKm_bounds julianDay controls rotationOffsetDeg) as BS.
  pose proof (moonDistanceKm_bounds julianDay controls rotationOffsetDeg) as BM.
  pose proof central_moonEclipticLat as L.
  assert (E : Astro.axisHitsEarth a =
              match
                lineSphereIntersection
                  (applyMatrix3 (rotationMatrixX (meanObliquityDeg (julianCenturies julianDay)))
                     (sphericalToCartesian (Astro.moonDistanceKm a)
                        (normalize360 (State.moonEclipticLon controls))
                        (Astro.moonEclipticLat a)))
                  (normalizeVector
                     (scaleVector
                        (applyMatrix3
                           (rotationMatrixX (meanObliquityDeg (julianCenturies julianDay)))
                           (sphericalToCartesian (Astro.sunDistanceKm a)
                              (normalize360 (State.sunEclipticLon controls)) 0))
                        (-1)))
                  EARTH_RADIUS_KM
              with
              | Some _ => true
              | None => false
              end) by reflexivity.
  rewrite E, L, sun_at_0, moon_at_0, !sphericalToCartesian_axis, !rotationMatrixX_axis.
  set (mD := Astro.moonDistanceKm a) in *.
  destruct (lineSphereIntersection_some (Vec.mk mD 0 0)
              (normalizeVector (scaleVector (Vec.mk (Astro.sunDistanceKm a) 0 0) (-1)))
              EARTH_RADIUS_KM (mD - EARTH_RADIUS_KM)) as [p Hp].
  - apply normalizeVector_unit.
  - unfold EARTH_RADIUS_KM. lra.
  - rewrite normalizeVector_neg_axis by lra.
    unfold onSphereAt, dotVector, addVector, scaleVector. cbn [Vec.x Vec.y Vec.z].
    ring.
  - rewrite Hp. reflexivity.
Qed.

Lemma central_bestSeparationDeg : Astro.bestSeparationDeg a = 0.
Proof.
  pose proof (moonParallaxDeg_pos julianDay controls rotationOffsetDeg) as PP.
  rewrite bestSeparationDeg_eq, central_separationDeg. apply Rmax_left. lra.
Qed.

End Central.

Lemma alignedState_central :
  normalize360 (State.sunEclipticLon alignedState) = 0 /\
  normalize360 (State.ascendingNodeLon alignedState) = 0 /\
  normalize360 (State.moonEclipticLon alignedState) = 0 /\
  State.moonDistanceMode alignedState = 0.
Proof.
  assert (Z0 : forall rate, normalize360 (0 + 0 * rate) = 0)
    by (intros rate; rewrite Rmult_0_l, Rplus_0_r; apply normalize360_fixed; lra).
  assert (Z1 : forall rate, normalize180 (0 + 0 * rate) = 0)
    by (intros rate; rewrite Rmult_0_l, Rplus_0_r; apply normalize180_fixed; lra).
  unfold alignedState, alignedParams, deriveSimulationState.
  cbn [State.sunEclipticLon State.ascendingNodeLon State.moonEclipticLon
       State.moonDistanceMode Params.sunEclipticLon Params.ascendingNodeLon
       Params.moonNodePhase Params.moonDistanceMode].
  rewrite !Z0, Z1, Rplus_0_r, !(normalize360_fixed 0) by lra. auto.
Qed.


Lemma eclipse_classification_witness :
  Astro.eclipseClass (computeAstronomy (State.julianDay alignedState) alignedState 0)
  = TotalEclipse.
Proof.
  destruct alignedState_central as (H1 & H2 & H3 & H4).
  pose proof (sunX_bounds (State.julianDay alignedState) alignedState 0) as BS.
  assert (BM : 0.00478 <= MOON_RADIUS_KM / 363300 <= 0.00479)
    by (apply div_bounds; unfold MOON_RADIUS_KM; lra).
  pose proof RAD_pos.
  apply (proj1 (proj2 (eclipse_classification (State.julianDay alignedState)
                         alignedState 0))).
  - rewrite central_depth by assumption. lra.
  - split.
    + apply central_axisHitsEarth; assumption.
    + rewrite central_bestSeparationDeg by assumption. apply Rabs_pos.
  - rewrite sunAngularRadiusDeg_eq, moonAngularRadiusDeg_eq.
    rewrite central_moonDistanceKm by assumption.
    apply Rmult_le_compat_r; [lra|]. apply asin_le; lra.
Defined.

Lemma footprint_radii_witness :
  let a := computeAstronomy (State.julianDay alignedState) alignedState 0 in
  Astro.penumbraRadiusDeg a =
  asin (sin ((Astro.sunAngularRadiusDeg a + Astro.moonAngularRadiusDeg a) * DEG)
        / sin (moonParallaxDegOf a * DEG)) * RAD.
Proof.
  destruct alignedState_central as (H1 & H2 & H3 & H4).
  apply (proj1 (proj2 (proj2 (footprint_radii (State.julianDay alignedState)
                                alignedState 0)))).
  rewrite central_depth by assumption. lra.
Defined.

(** * Further properties of the code *)

(** ** Vectors and rotations *)

Lemma dotVector_nonneg (v : Vec.t) : 0 <= dotVector v v.
Proof.
  unfold dotVector.
  pose proof (Rle_0_sqr (Vec.x v)). pose proof (Rle_0_sqr (Vec.y v)).
  pose proof (Rle_0_sqr (Vec.z v)). unfold Rsqr in *. lra.
Qed.

Lemma magnitudeVector_sqr (v : Vec.t) :
  magnitudeVector v * magnitudeVector v = dotVector v v.
Proof. apply sqrt_sqrt, dotVector_nonneg. Qed.

Lemma magnitudeVector_of_dot (v : Vec.t) (r : R) :
  0 <= r -> dotVector v v = r * r -> magnitudeVector v = r.
Proof. intros Hr E. unfold magnitudeVector. rewrite E. apply sqrt_square, Hr. Qed.

Lemma dotVector_scale (v : Vec.t) (k : R) :
  dotVector (scaleVector v k) (scaleVector v k) = k * k * dotVector v v.
Proof. unfold dotVector, scaleVector. cbn [Vec.x Vec.y Vec.z]. ring. Qed.

Lemma scaleVector_scale (v : Vec.t) (k l : R) :
  k * l = 1 -> scaleVector (scaleVector v k) l = v.
Proof.
  intros H. destruct v as [a b c]. unfold scaleVector. cbn [Vec.x Vec.y Vec.z].
  f_equal.
  - replace (a * k * l) with (a * (k * l)) by ring. rewrite H. ring.
  - replace (b * k * l) with (b * (k * l)) by ring. rewrite H. ring.
  - replace (c * k * l) with (c * (k * l)) by ring. rewrite H. ring.
Qed.

(** X1: [normalizeVector] always returns a vector of length 1: the fixed
    [{1, 0, 0}] for an input shorter than 1e-12, and otherwise the input
    divided by its length (scaling the result back gives the input). *)
Theorem normalizeVector_unit_or_default (v : Vec.t) :
  magnitudeVector (normalizeVector v) = 1 /\
  (magnitudeVector v < 1e-12 -> normalizeVector v = Vec.mk 1 0 0) /\
  (1e-12 <= magnitudeVector v ->
   scaleVector (normalizeVector v) (magnitudeVector v) = v).
Proof.
  split; [|split].
  - apply magnitudeVector_of_dot; [lra|]. rewrite normalizeVector_unit. ring.
  - intros H. unfold normalizeVector. apply ltb_true in H. rewrite H. reflexivity.
  - intros H. unfold normalizeVector.
    replace (magnitudeVector v <? 1e-12) with false
      by (symmetry; apply ltb_false; exact H).
    apply scaleVector_scale. field. lra.
Qed.

Lemma rotationMatrixX_dot (angleDeg : R) (u v : Vec.t) :
  dotVector (applyMatrix3 (rotationMatrixX angleDeg) u)
            (applyMatrix3 (rotationMatrixX angleDeg) v) = dotVector u v.
Proof.
  unfold applyMatrix3, rotationMatrixX, dotVector. cbn [Vec.x Vec.y Vec.z].
  pose proof (sin2_cos2 (angleDeg * DEG)) as H. unfold Rsqr in H.
  set (s := sin (angleDeg * DEG)) in *. set (c := cos (angleDeg * DEG)) in *.
  replace ((1 * Vec.x u + 0 * Vec.y u + 0 * Vec.z u) * (1 * Vec.x v + 0 * Vec.y v + 0 * Vec.z v)
           + (0 * Vec.x u + c * Vec.y u + - s * Vec.z u) * (0 * Vec.x v + c * Vec.y v + - s * Vec.z v)
           + (0 * Vec.x u + s * Vec.y u + c * Vec.z u) * (0 * Vec.x v + s * Vec.y v + c * Vec.z v))
    with (Vec.x u * Vec.x v
          + (s * s + c * c) * (Vec.y u * Vec.y v + Vec.z u * Vec.z v)) by ring.
  rewrite H. ring.
Qed.

Lemma rotationMatrixZ_dot (angleDeg : R) (u v : Vec.t) :
  dotVector (applyMatrix3 (rotationMatrixZ angleDeg) u)
            (applyMatrix3 (rotationMatrixZ angleDeg) v) = dotVector u v.
Proof.
  unfold applyMatrix3, rotationMatrixZ, dotVector. cbn [Vec.x Vec.y Vec.z].
  pose proof (sin2_cos2 (angleDeg * DEG)) as H. unfold Rsqr in H.
  set (s := sin (angleDeg * DEG)) in *. set (c := cos (angleDeg * DEG)) in *.
  replace ((c * Vec.x u + - s * Vec.y u + 0 * Vec.z u) * (c * Vec.x v + - s * Vec.y v + 0 * Vec.z v)
           + (s * Vec.x u + c * Vec.y u + 0 * Vec.z u) * (s * Vec.x v + c * Vec.y v + 0 * Vec.z v)
           + (0 * Vec.x u + 0 * Vec.y u + 1 * Vec.z u) * (0 * Vec.x v + 0 * Vec.y v + 1 * Vec.z v))
    with ((s * s + c * c) * (Vec.x u * Vec.x v + Vec.y u * Vec.y v)
          + Vec.z u * Vec.z v) by ring.
  rewrite H. ring.
Qed.

Lemma rotationMatrixZ_inverse (angleDeg : R) (v : Vec.t) :
  applyMatrix3 (rotationMatrixZ (- angleDeg)) (applyMatrix3 (rotationMatrixZ angleDeg) v) = v.
Proof.
  destruct v as [a b c0].
  unfold applyMatrix3, rotationMatrixZ, dotVector. cbn [Vec.x Vec.y Vec.z].
  replace (- angleDeg * DEG) with (- (angleDeg * DEG)) by ring.
  rewrite cos_neg, sin_neg.
  pose proof (sin2_cos2 (angleDeg * DEG)) as H. unfold Rsqr in H.
  set (s := sin (angleDeg * DEG)) in *. set (c := cos (angleDeg * DEG)) in *.
  f_equal.
  - transitivity ((s * s + c * c) * a); [ring | rewrite H; ring].
  - transitivity ((s * s + c * c) * b); [ring | rewrite H; ring].
  - ring.
Qed.

Lemma rotationMatrixX_inverse (angleDeg : R) (v : Vec.t) :
  applyMatrix3 (rotationMatrixX (- angleDeg)) (applyMatrix3 (rotationMatrixX angleDeg) v) = v.
Proof.
  destruct v as [a b c0].
  unfold applyMatrix3, rotationMatrixX, dotVector. cbn [Vec.x Vec.y Vec.z].
  replace (- angleDeg * DEG) with (- (angleDeg * DEG)) by ring.
  rewrite cos_neg, sin_neg.
  pose proof (sin2_cos2 (angleDeg * DEG)) as H. unfold Rsqr in H.
  set (s := sin (angleDeg * DEG)) in *. set (c := cos (angleDeg * DEG)) in *.
  f_equal.
  - ring.
  - transitivity ((s * s + c * c) * b); [ring | rewrite H; ring].
  - transitivity ((s * s + c * c) * c0); [ring | rewrite H; ring].
Qed.

(** X2: the rotations about X and about Z keep every dot product, hence
    lengths and angles, and the rotation by the opposite angle undoes them. *)
Theorem rotations_are_isometries (angleDeg : R) (u v : Vec.t) :
  dotVector (applyMatrix3 (rotationMatrixX angleDeg) u)
            (applyMatrix3 (rotationMatrixX angleDeg) v) = dotVector u v /\
  dotVector (applyMatrix3 (rotationMatrixZ angleDeg) u)
            (applyMatrix3 (rotationMatrixZ angleDeg) v) = dotVector u v /\
  magnitudeVector (applyMatrix3 (rotationMatrixX angleDeg) v) = magnitudeVector v /\
  magnitudeVector (applyMatrix3 (rotationMatrixZ angleDeg) v) = magnitudeVector v /\
  applyMatrix3 (rotationMatrixX (- angleDeg)) (applyMatrix3 (rotationMatrixX angleDeg) v) = v /\
  applyMatrix3 (rotationMatrixZ (- angleDeg)) (applyMatrix3 (rotationMatrixZ angleDeg) v) = v.
Proof.
  repeat split.
  - apply rotationMatrixX_dot.
  - apply rotationMatrixZ_dot.
  - unfold magnitudeVector. rewrite rotationMatrixX_dot. reflexivity.
  - unfold magnitudeVector. rewrite rotationMatrixZ_dot. reflexivity.
  - apply rotationMatrixX_inverse.
  - apply rotationMatrixZ_inverse.
Qed.

Lemma sphericalToCartesian_dot (d lonDeg latDeg : R) :
  dotVector (sphericalToCartesian d lonDeg latDeg) (sphericalToCartesian d lonDeg latDeg)
  = d * d.
Proof.
  unfold sphericalToCartesian, dotVector. cbn [Vec.x Vec.y Vec.z].
  pose proof (sin2_cos2 (lonDeg * DEG)) as H1. pose proof (sin2_cos2 (latDeg * DEG)) as H2.
  unfold Rsqr in *.
  set (sL := sin (lonDeg * DEG)) in *. set (cL := cos (lonDeg * DEG)) in *.
  set (sl := sin (latDeg * DEG)) in *. set (cl := cos (latDeg * DEG)) in *.
  transitivity (d * d * (cl * cl * (sL * sL + cL * cL) + sl * sl)); [ring|].
  rewrite H1. transitivity (d * d * (sl * sl + cl * cl)); [ring|].
  rewrite H2. ring.
Qed.

Lemma sphericalToCartesian_magnitude (d lonDeg latDeg : R) :
  0 <= d -> magnitudeVector (sphericalToCartesian d lonDeg latDeg) = d.
Proof.
  intros Hd. apply magnitudeVector_of_dot; [exact Hd|]. apply sphericalToCartesian_dot.
Qed.

Lemma frames_distances (julianDay : R) (controls : State.t) (rotationOffsetDeg : R) :
  let a := computeAstronomy julianDay controls rotationOffsetDeg in
  let g := Astro.geometry a in
  (magnitudeVector (Frames.sunFromEarthKm (Frames.ecl g)) = Astro.sunDistanceKm a /\
   magnitudeVector (Frames.sunKm (Frames.equatorial g)) = Astro.sunDistanceKm a /\
   magnitudeVector (Frames.sunKm (Frames.earthFixed g)) = Astro.sunDistanceKm a) /\
  (magnitudeVector (Frames.moonFromEarthKm (Frames.ecl g)) = Astro.moonDistanceKm a /\
   magnitudeVector (Frames.moonKm (Frames.equatorial g)) = Astro.moonDistanceKm a /\
   magnitudeVector (Frames.moonKm (Frames.earthFixed g)) = Astro.moonDistanceKm a) /\
  magnitudeVector (Frames.earthFromSunKm (Frames.ecl g)) = Astro.sunDistanceKm a /\
  addVector (Frames.earthFromSunKm (Frames.ecl g)) (Frames.sunFromEarthKm (Frames.ecl g))
  = Vec.mk 0 0 0.
Proof.
  intros a g.
  pose proof (sunDistanceKm_bounds julianDay controls rotationOffsetDeg) as BS.
  pose proof (moonDistanceKm_bounds julianDay controls rotationOffsetDeg) as BM.
  fold a in BS, BM.
  set (eps := meanObliquityDeg (julianCenturies julianDay)).
  assert (ES : Frames.sunFromEarthKm (Frames.ecl g)
               = sphericalToCartesian (Astro.sunDistanceKm a) (Astro.sunEclipticLon a) 0)
    by reflexivity.
  assert (EM : Frames.moonFromEarthKm (Frames.ecl g)
               = sphericalToCartesian (Astro.moonDistanceKm a) (Astro.moonEclipticLon a)
                   (Astro.moonEclipticLat a)) by reflexivity.
  assert (QS : Frames.sunKm (Frames.equatorial g)
               = applyMatrix3 (rotationMatrixX eps) (Frames.sunFromEarthKm (Frames.ecl g)))
    by reflexivity.
  assert (QM : Frames.moonKm (Frames.equatorial g)
               = applyMatrix3 (rotationMatrixX eps) (Frames.moonFromEarthKm (Frames.ecl g)))
    by reflexivity.
  assert (FS : Frames.sunKm (Frames.earthFixed g)
               = applyMatrix3 (rotationMatrixZ (- Astro.gmstDeg a))
                   (Frames.sunKm (Frames.equatorial g))) by reflexivity.
  assert (FM : Frames.moonKm (Frames.earthFixed g)
               = applyMatrix3 (rotationMatrixZ (- Astro.gmstDeg a))
                   (Frames.moonKm (Frames.equatorial g))) by reflexivity.
  assert (EE : Frames.earthFromSunKm (Frames.ecl g)
               = scaleVector (Frames.sunFromEarthKm (Frames.ecl g)) (-1)) by reflexivity.
  assert (S1 : magnitudeVector (Frames.sunFromEarthKm (Frames.ecl g)) = Astro.sunDistanceKm a)
    by (rewrite ES; apply sphericalToCartesian_magnitude; lra).
  assert (M1 : magnitudeVector (Frames.moonFromEarthKm (Frames.ecl g)) = Astro.moonDistanceKm a)
    by (rewrite EM; apply sphericalToCartesian_magnitude; lra).
  assert (S2 : magnitudeVector (Frames.sunKm (Frames.equatorial g)) = Astro.sunDistanceKm a)
    by (rewrite QS; unfold magnitudeVector in *; rewrite rotationMatrixX_dot; exact S1).
  assert (M2 : magnitudeVector (Frames.moonKm (Frames.equatorial g)) = Astro.moonDistanceKm a)
    by (rewrite QM; unfold magnitudeVector in *; rewrite rotationMatrixX_dot; exact M1).
  repeat split; auto.
  - rewrite FS. unfold magnitudeVector in *. rewrite rotationMatrixZ_dot. exact S2.
  - rewrite FM. unfold magnitudeVector in *. rewrite rotationMatrixZ_dot. exact M2.
  - rewrite EE. unfold magnitudeVector in *. rewrite dotVector_scale.
    replace (-1 * -1 * dotVector (Frames.sunFromEarthKm (Frames.ecl g))
                                  (Frames.sunFromEarthKm (Frames.ecl g)))
      with (dotVector (Frames.sunFromEarthKm (Frames.ecl g))
                      (Frames.sunFromEarthKm (Frames.ecl g))) by ring.
    exact S1.
  - rewrite EE. destruct (Frames.sunFromEarthKm (Frames.ecl g)) as [x y z].
    unfold addVector, scaleVector. cbn [Vec.x Vec.y Vec.z]. f_equal; ring.
Qed.

(** X3: in each of the three frames of the engine the Sun vector has length
    [sunDistanceKm] and the Moon vector has length [moonDistanceKm]; the
    Sun-to-Earth vector is the opposite of the Earth-to-Sun vector. *)
Theorem frames_keep_distances (julianDay : R) (controls : State.t) (rotationOffsetDeg : R) :
  let a := computeAstronomy julianDay controls rotationOffsetDeg in
  let g := Astro.geometry a in
  (magnitudeVector (Frames.sunFromEarthKm (Frames.ecl g)) = Astro.sunDistanceKm a /\
   magnitudeVector (Frames.sunKm (Frames.equatorial g)) = Astro.sunDistanceKm a /\
   magnitudeVector (Frames.sunKm (Frames.earthFixed g)) = Astro.sunDistanceKm a) /\
  (magnitudeVector (Frames.moonFromEarthKm (Frames.ecl g)) = Astro.moonDistanceKm a /\
   magnitudeVector (Frames.moonKm (Frames.equatorial g)) = Astro.moonDistanceKm a /\
   magnitudeVector (Frames.moonKm (Frames.earthFixed g)) = Astro.moonDistanceKm a) /\
  magnitudeVector (Frames.earthFromSunKm (Frames.ecl g)) = Astro.sunDistanceKm a /\
  addVector (Frames.earthFromSunKm (Frames.ecl g)) (Frames.sunFromEarthKm (Frames.ecl g))
  = Vec.mk 0 0 0.
Proof. apply frames_distances. Qed.

(** X4: the Moon's orbit normal of the ecliptic frame is a unit vector
    perpendicular to both node vectors, its component along the ecliptic pole
    is the cosine of the inclination 5.145 degrees, and the node vectors are
    opposite unit vectors. *)
Theorem moon_orbit_normal (julianDay : R) (controls : State.t) (rotationOffsetDeg : R) :
  let e := Frames.ecl (Astro.geometry (computeAstronomy julianDay controls rotationOffsetDeg)) in
  let n := Frames.moonOrbitNormalUnit e in
  dotVector n n = 1 /\
  dotVector n (Frames.nodeAscendingUnit e) = 0 /\
  dotVector n (Frames.nodeDescendingUnit e) = 0 /\
  Vec.z n = cos (LUNAR_INCLINATION_DEG * DEG) /\
  dotVector (Frames.nodeAscendingUnit e) (Frames.nodeAscendingUnit e) = 1 /\
  Frames.nodeDescendingUnit e = scaleVector (Frames.nodeAscendingUnit e) (-1).
Proof.
  intros e n.
  set (lon := normalize360 (State.ascendingNodeLon controls)).
  set (i := LUNAR_INCLINATION_DEG * DEG).
  set (raw := Vec.mk (sin i * sin (lon * DEG)) (- sin i * cos (lon * DEG)) (cos i)).
  assert (EN : n = normalizeVector raw) by reflexivity.
  assert (EA : Frames.nodeAscendingUnit e = sphericalToCartesian 1 lon 0) by reflexivity.
  assert (ED : Frames.nodeDescendingUnit e = scaleVector (Frames.nodeAscendingUnit e) (-1))
    by reflexivity.
  pose proof (sin2_cos2 i) as Hi. pose proof (sin2_cos2 (lon * DEG)) as Hl.
  unfold Rsqr in Hi, Hl.
  assert (D : dotVector raw raw = 1).
  { unfold raw, dotVector. cbn [Vec.x Vec.y Vec.z].
    transitivity (sin i * sin i * (sin (lon * DEG) * sin (lon * DEG)
                                   + cos (lon * DEG) * cos (lon * DEG))
                  + cos i * cos i); [ring|].
    rewrite Hl. lra. }
  assert (Mg : magnitudeVector raw = 1)
    by (apply magnitudeVector_of_dot; [lra | rewrite D; ring]).
  assert (NR : n = raw).
  { rewrite EN. unfold normalizeVector. rewrite Mg.
    replace (1 <? 1e-12) with false by (symmetry; apply ltb_false; lra).
    unfold raw, scaleVector. cbn [Vec.x Vec.y Vec.z]. f_equal; field. }
  rewrite ED, EA, NR.
  unfold sphericalToCartesian, dotVector, scaleVector, raw. cbn [Vec.x Vec.y Vec.z].
  rewrite Rmult_0_l, cos_0, sin_0.
  repeat split.
  - fold raw. transitivity (sin i * sin i * (sin (lon * DEG) * sin (lon * DEG)
                                   + cos (lon * DEG) * cos (lon * DEG))
                  + cos i * cos i); [ring|]. rewrite Hl. lra.
  - ring.
  - ring.
  - transitivity (sin (lon * DEG) * sin (lon * DEG) + cos (lon * DEG) * cos (lon * DEG));
      [ring | exact Hl].
Qed.

(** ** Latitudes *)

Lemma asin_degrees_range (x : R) : -90 <= asin x * RAD <= 90.
Proof.
  pose proof (asin_bound x) as [L U]. pose proof RAD_pos as P.
  assert (E : PI / 2 * RAD = 90) by (unfold RAD; field; apply PI_neq0).
  assert (E' : - (PI / 2) * RAD = -90) by (unfold RAD; field; apply PI_neq0).
  split.
  - rewrite <- E'. apply Rmult_le_compat_r; lra.
  - rewrite <- E. apply Rmult_le_compat_r; lra.
Qed.

(** X5: every latitude the engine reports (sub-solar, sub-lunar, shadow
    centre) lies in [-90, 90]; the Moon's ecliptic latitude is
    5.145 sin(moonNodePhase), within [-5.145, 5.145], so its clamp to +-12
    never acts. *)
Theorem latitudes_in_range (julianDay : R) (controls : State.t) (rotationOffsetDeg : R) :
  let a := computeAstronomy julianDay controls rotationOffsetDeg in
  -90 <= Astro.subSolarLat a <= 90 /\
  -90 <= Astro.subLunarLat a <= 90 /\
  -90 <= Astro.centralLat a <= 90 /\
  Astro.moonEclipticLat a = LUNAR_INCLINATION_DEG * sin (Astro.moonNodePhase a * DEG) /\
  -5.145 <= Astro.moonEclipticLat a <= 5.145.
Proof.
  intros a.
  assert (E : Astro.moonEclipticLat a
              = clamp (LUNAR_INCLINATION_DEG * sin (Astro.moonNodePhase a * DEG)) (-12) 12)
    by reflexivity.
  pose proof (SIN_bound (Astro.moonNodePhase a * DEG)) as B.
  assert (I : -5.145 <= LUNAR_INCLINATION_DEG * sin (Astro.moonNodePhase a * DEG) <= 5.145)
    by (unfold LUNAR_INCLINATION_DEG; lra).
  split; [|split; [|split; [|split]]].
  - apply asin_degrees_range.
  - apply asin_degrees_range.
  - apply asin_degrees_range.
  - rewrite E. apply clamp_inside. lra.
  - rewrite E, clamp_inside by lra. exact I.
Qed.

(** ** From a vector back to its longitude and latitude *)

Lemma DEG_RAD (x : R) : x * DEG * RAD = x.
Proof. unfold RAD, DEG. field. apply PI_neq0. Qed.

Lemma scaled_tan (k L : R) : 0 < k -> cos L <> 0 -> k * sin L / (k * cos L) = tan L.
Proof. intros Hk Hc. unfold tan. field; try split; lra. Qed.

Lemma tan_shift_PI (L : R) : cos L <> 0 -> tan (L - PI) = tan L.
Proof.
  intros Hc. unfold tan. rewrite sin_minus, cos_minus, sin_PI, cos_PI.
  field; try split; lra.
Qed.

Lemma tan_shift_PI' (L : R) : cos L <> 0 -> tan (L + PI) = tan L.
Proof.
  intros Hc. unfold tan. rewrite neg_sin, neg_cos. field; try split; lra.
Qed.

(** [Math.atan2] gives back the angle of a point of the plane. *)
Lemma atan2_polar (k L : R) :
  0 < k -> - PI < L <= PI -> JsNum.atan2 (k * sin L) (k * cos L) = L.
Proof.
  intros Hk [Hl Hu]. pose proof PI_RGT_0 as Hpi. unfold JsNum.atan2.
  destruct (Rlt_dec (- (PI / 2)) L) as [A|A]; [destruct (Rlt_dec L (PI / 2)) as [B|B]|].
  - (* the right half-plane *)
    pose proof (cos_gt_0 L A B) as C.
    assert (0 < k * cos L) by (apply Rmult_lt_0_compat; lra).
    destruct (Rlt_dec 0 (k * cos L)); [|lra].
    rewrite scaled_tan by lra. apply atan_tan. lra.
  - destruct (Req_dec_T L (PI / 2)) as [E|E].
    + subst L. rewrite cos_PI2, sin_PI2, Rmult_0_r, Rmult_1_r.
      destruct (Rlt_dec 0 0); [lra|]. destruct (Rlt_dec 0 k); [reflexivity | lra].
    + assert (C : cos L < 0) by (apply cos_lt_0; lra).
      assert (S : 0 <= sin L) by (apply sin_ge_0; lra).
      assert (k * cos L < 0) by nra.
      assert (0 <= k * sin L) by nra.
      destruct (Rlt_dec 0 (k * cos L)); [lra|].
      destruct (Rlt_dec (k * cos L) 0); [|lra].
      destruct (Rle_dec 0 (k * sin L)); [|lra].
      rewrite scaled_tan by lra. rewrite <- tan_shift_PI by lra.
      rewrite atan_tan by lra. ring.
  - destruct (Req_dec_T L (- (PI / 2))) as [E|E].
    + subst L. rewrite cos_neg, sin_neg, cos_PI2, sin_PI2, Rmult_0_r.
      replace (k * - (1)) with (- k) by ring.
      destruct (Rlt_dec 0 0); [lra|].
      destruct (Rlt_dec 0 (- k)); [lra|]. destruct (Rlt_dec (- k) 0); [reflexivity | lra].
    + assert (C : cos L < 0).
      { rewrite <- cos_neg. apply cos_lt_0; lra. }
      assert (S : sin L < 0) by (apply sin_lt_0_var; lra).
      assert (k * cos L < 0) by nra.
      assert (k * sin L < 0) by nra.
      destruct (Rlt_dec 0 (k * cos L)); [lra|].
      destruct (Rlt_dec (k * cos L) 0); [|lra].
      destruct (Rle_dec 0 (k * sin L)); [lra|].
      rewrite scaled_tan by lra. rewrite <- tan_shift_PI' by lra.
      rewrite atan_tan by lra. ring.
Qed.

(** X6: [vectorToLatLon] undoes [sphericalToCartesian]: for a positive
    distance, a latitude strictly between the poles and a longitude in
    (-180, 180], the latitude and longitude of the vector are the ones it was
    built from. *)
Theorem vectorToLatLon_sphericalToCartesian (d lonDeg latDeg : R) :
  0 < d -> -90 < latDeg < 90 -> -180 < lonDeg <= 180 ->
  vectorToLatLon (sphericalToCartesian d lonDeg latDeg) = Geo.mk latDeg lonDeg.
Proof.
  intros Hd Hlat Hlon. pose proof PI_RGT_0 as Hpi. pose proof DEG_pos as Hdeg.
  assert (Blat : - (PI / 2) < latDeg * DEG < PI / 2).
  { unfold DEG. split; nra. }
  assert (Blon : - PI < lonDeg * DEG <= PI).
  { unfold DEG. split; nra. }
  unfold vectorToLatLon.
  rewrite sphericalToCartesian_magnitude by lra.
  unfold sphericalToCartesian. cbn [Vec.x Vec.y Vec.z].
  assert (C : 0 < cos (latDeg * DEG)) by (apply cos_gt_0; lra).
  f_equal.
  - replace (d * sin (latDeg * DEG) / d) with (sin (latDeg * DEG)) by (field; lra).
    rewrite clamp_inside by apply SIN_bound.
    rewrite asin_sin by lra. apply DEG_RAD.
  - rewrite atan2_polar; [| apply Rmult_lt_0_compat; lra | exact Blon].
    rewrite DEG_RAD. apply normalize180_fixed. lra.
Qed.

Lemma vectorToLatLon_sphericalToCartesian_witness :
  vectorToLatLon (sphericalToCartesian 6371 37 55) = Geo.mk 55 37.
Proof.
  apply vectorToLatLon_sphericalToCartesian; lra.
Defined.

(** ** The point under the shadow axis *)




(** ** More on the overlap of the two disks *)







Lemma overlapFraction_annulus (r1 r2 d : R) :
  0 < r1 -> 0 < r2 -> 0 <= d -> d <= Rabs (r1 - r2) -> r2 < r1 ->
  overlapFraction r1 r2 d = (r2 / r1) * (r2 / r1) /\ 0 < overlapFraction r1 r2 d < 1.
Proof.
  intros H1 H2 Hd Hc Hlt.
  assert (Hu : d < r1 + r2).
  { unfold Rabs in Hc. destruct (Rcase_abs (r1 - r2)); lra. }
  assert (Q : 0 < r2 / r1 < 1)
    by (split; [apply Rdiv_lt_0_compat | apply div_lt_bound]; lra).
  assert (E : overlapFraction r1 r2 d = r2 / r1 * (r2 / r1)).
  { unfold overlapFraction.
    replace (d >=? r1 + r2) with false by (symmetry; apply geb_false; lra).
    replace (d <=? Rabs (r1 - r2)) with true by (symmetry; apply leb_true; lra).
    replace (r2 >=? r1) with false by (symmetry; apply geb_false; lra).
    replace (r2 * r2 / (r1 * r1)) with (r2 / r1 * (r2 / r1)) by (field; lra).
    apply clamp_inside. nra. }
  split; [exact E|]. rewrite E. nra.
Qed.

(** X9: when one disk lies inside the other ([d <= |r1 - r2|]) the fraction is
    1 if the Moon's disk is at least the Sun's, and otherwise exactly the area
    ratio (r2 / r1)^2, which lies strictly between 0 and 1: the clamp does not
    act. *)
Theorem overlapFraction_contained (r1 r2 d : R) :
  0 < r1 -> 0 < r2 -> 0 <= d -> d <= Rabs (r1 - r2) ->
  (r1 <= r2 -> overlapFraction r1 r2 d = 1) /\
  (r2 < r1 ->
   overlapFraction r1 r2 d = (r2 / r1) * (r2 / r1) /\ 0 < overlapFraction r1 r2 d < 1).
Proof.
  intros H1 H2 Hd Hc. split.
  - intros Hle. apply overlapFraction_covered; try assumption.
    unfold Rabs in Hc. destruct (Rcase_abs (r1 - r2)); lra.
  - intros Hlt. apply overlapFraction_annulus; assumption.
Qed.

Lemma overlapFraction_contained_witness :
  overlapFraction 2 1 0 = (1 / 2) * (1 / 2) /\ 0 < overlapFraction 2 1 0 < 1.
Proof.
  apply (overlapFraction_contained 2 1 0); try lra.
  unfold Rabs. destruct (Rcase_abs (2 - 1)); lra.
Defined.

(** ** Order of the two footprint radii *)

Lemma core_sine_below_penumbra_sine
  (julianDay : R) (controls : State.t) (rotationOffsetDeg : R) :
  let a := computeAstronomy julianDay controls rotationOffsetDeg in
  sin (Rabs (Astro.sunAngularRadiusDeg a - Astro.moonAngularRadiusDeg a) * DEG)
  <= sin ((Astro.sunAngularRadiusDeg a + Astro.moonAngularRadiusDeg a) * DEG).
Proof.
  intros a. subst a.
  destruct (radians_small julianDay controls rotationOffsetDeg) as [[HS ES] [HM EM]].
  rewrite diff_radians, sum_radians.
  set (S := asin (SUN_RADIUS_KM
                  / Astro.sunDistanceKm (computeAstronomy julianDay controls rotationOffsetDeg))) in *.
  set (M := asin (MOON_RADIUS_KM
                  / Astro.moonDistanceKm (computeAstronomy julianDay controls rotationOffsetDeg))) in *.
  clearbody S M.
  assert (CS : 0 <= cos S) by (apply cos_ge_0; lra).
  assert (CM : 0 <= cos M) by (apply cos_ge_0; lra).
  assert (PS : 0 < sin S) by (apply sin_gt_0; lra).
  assert (PM : 0 < sin M) by (apply sin_gt_0; lra).
  assert (P1 : 0 <= sin S * cos M) by (apply Rmult_le_pos; lra).
  assert (P2 : 0 <= cos S * sin M) by (apply Rmult_le_pos; lra).
  rewrite sin_plus. unfold Rabs. destruct (Rcase_abs (S - M)).
  - replace (- (S - M)) with (M - S) by ring. rewrite sin_minus. lra.
  - rewrite sin_minus. lra.
Qed.

(** X10: for every state the footprint radii are ordered and bounded:
    0 <= umbraRadiusDeg <= penumbraRadiusDeg < 90. *)
Theorem footprint_radii_ordered (julianDay : R) (controls : State.t) (rotationOffsetDeg : R) :
  let a := computeAstronomy julianDay controls rotationOffsetDeg in
  0 <= Astro.umbraRadiusDeg a <= Astro.penumbraRadiusDeg a /\
  Astro.penumbraRadiusDeg a < 90.
Proof.
  intros a. subst a.
  pose proof (depth_range julianDay controls rotationOffsetDeg) as [D0 _].
  pose proof RAD_pos as PR.
  assert (E90 : PI / 2 * RAD = 90) by (unfold RAD; field; apply PI_neq0).
  destruct D0 as [Dpos | Dz].
  - destruct (penumbra_when_eclipsed julianDay controls rotationOffsetDeg Dpos) as [EP PP].
    pose proof (penumbra_sine julianDay controls rotationOffsetDeg) as [Pn Pr].
    pose proof (core_sine julianDay controls rotationOffsetDeg) as [Cn Cr].
    pose proof (core_sine_below_penumbra_sine julianDay controls rotationOffsetDeg) as CP.
    cbv zeta in CP.
    pose proof (core_when_eclipsed julianDay controls rotationOffsetDeg Dpos) as EU.
    assert (ZU : Astro.axisHitsEarth (computeAstronomy julianDay controls rotationOffsetDeg)
                 = false ->
                 Astro.umbraRadiusDeg (computeAstronomy julianDay controls rotationOffsetDeg)
                 = 0)
      by (intros Hh; rewrite umbraRadiusDeg_eq, Hh; reflexivity).
    set (a := computeAstronomy julianDay controls rotationOffsetDeg) in *.
    set (den := sin (moonParallaxDegOf a * DEG)) in *.
    set (np := sin ((Astro.sunAngularRadiusDeg a + Astro.moonAngularRadiusDeg a) * DEG)) in *.
    set (nc := sin (Rabs (Astro.sunAngularRadiusDeg a - Astro.moonAngularRadiusDeg a) * DEG)) in *.
    assert (Hden : 0 < den) by lra.
    assert (Rp : 0 < np / den < 1)
      by (split; [apply Rdiv_lt_0_compat | apply div_lt_bound]; lra).
    assert (Rc : 0 <= nc / den <= np / den).
    { split.
      - apply Rmult_le_pos; [lra | left; apply Rinv_0_lt_compat; lra].
      - apply Rmult_le_compat_r; [left; apply Rinv_0_lt_compat; lra | lra]. }
    assert (A0 : 0 <= asin (nc / den))
      by (rewrite <- asin_0; apply asin_le; lra).
    assert (A1 : asin (nc / den) <= asin (np / den)) by (apply asin_le; lra).
    assert (A2 : asin (np / den) < PI / 2) by (apply asin_bound_lt; lra).
    assert (U : 0 <= Astro.umbraRadiusDeg a <= asin (np / den) * RAD).
    { destruct (Astro.axisHitsEarth a) eqn:Hh.
      - rewrite (EU eq_refl). split.
        + apply Rmult_le_pos; lra.
        + apply Rmult_le_compat_r; lra.
      - rewrite (ZU eq_refl). split; [lra|]. apply Rmult_le_pos; lra. }
    rewrite EP. split; [exact U|].
    rewrite <- E90. apply Rmult_lt_compat_r; lra.
  - destruct (radii_when_not_eclipsed julianDay controls rotationOffsetDeg) as [ZP ZU];
      [lra|]. rewrite ZP, ZU. lra.
Qed.

(** ** What the class of the model tells *)



(** ** The footprint solver on its own *)

(** X12: [solveFootprintRadiusDeg] answers 0 when the parallax or the target
    offset is not positive or the sine of the parallax is not positive; it
    answers 89.5 when the sine ratio is 1 or more; and for a target offset
    between 0 and 180 degrees its answer is never negative and stays below
    90. *)
Theorem solveFootprintRadiusDeg_edges (p t : R) :
  (p <= 0 \/ t <= 0 \/ sin (p * DEG) <= 0 -> solveFootprintRadiusDeg p t = 0) /\
  (0 < p -> 0 < t -> 0 < sin (p * DEG) -> 1 <= sin (t * DEG) / sin (p * DEG) ->
   solveFootprintRadiusDeg p t = 89.5) /\
  (0 <= t <= 180 -> 0 <= solveFootprintRadiusDeg p t < 90).
Proof.
  assert (Z : p <= 0 \/ t <= 0 \/ sin (p * DEG) <= 0 -> solveFootprintRadiusDeg p t = 0).
  { intros H. unfold solveFootprintRadiusDeg.
    destruct (p <=? 0) eqn:E1; [reflexivity|].
    destruct (t <=? 0) eqn:E2; [reflexivity|]. cbn [orb].
    destruct (sin (p * DEG) <=? 0) eqn:E3; [reflexivity|].
    apply leb_false in E1, E2, E3. lra. }
  split; [exact Z|]. split; [apply solveFootprintRadiusDeg_clamped|].
  intros [T0 T1].
  destruct (Rle_dec p 0) as [P|P]; [rewrite Z by auto; lra|].
  destruct (Rle_dec t 0) as [T|T]; [rewrite Z by auto; lra|].
  destruct (Rle_dec (sin (p * DEG)) 0) as [S|S]; [rewrite Z by auto; lra|].
  assert (N : 0 <= sin (t * DEG)).
  { pose proof PI_RGT_0. apply sin_ge_0; unfold DEG; nra. }
  destruct (Rle_dec 1 (sin (t * DEG) / sin (p * DEG))) as [Q|Q].
  - rewrite solveFootprintRadiusDeg_clamped by lra. lra.
  - rewrite solveFootprintRadiusDeg_formula by lra.
    assert (R0 : 0 <= sin (t * DEG) / sin (p * DEG))
      by (apply Rmult_le_pos; [lra | left; apply Rinv_0_lt_compat; lra]).
    pose proof RAD_pos.
    assert (E90 : PI / 2 * RAD = 90) by (unfold RAD; field; apply PI_neq0).
    split.
    + apply Rmult_le_pos; [|lra]. rewrite <- asin_0. apply asin_le; lra.
    + rewrite <- E90. apply Rmult_lt_compat_r; [lra|]. apply asin_bound_lt. lra.
Qed.

(** ** The propagator *)


Lemma normalize360_half_turn (x : R) :
  0 <= x < 360 ->
  normalize360 (x + 180) = if x <? 180 then x + 180 else x - 180.
Proof.
  intros H. unfold normalize360.
  destruct (x <? 180) eqn:E.
  - apply ltb_true in E. rewrite rem360_small by lra.
    replace (x + 180 <? 0) with false by (symmetry; apply ltb_false; lra). reflexivity.
  - apply ltb_false in E.
    replace (x + 180) with (360 * IZR 1 + (x - 180)) by lra.
    rewrite rem360_turns_nonneg by (lia || lra).
    replace (x - 180 <? 0) with false by (symmetry; apply ltb_false; lra). reflexivity.
Qed.


Lemma deriveSimulationState_zero_fixed (base : Params.t) (startDate : Date) :
  0 <= Params.ascendingNodeLon base < 360 ->
  0 <= Params.sunEclipticLon base < 360 ->
  -180 <= Params.moonNodePhase base <= 180 ->
  0 <= Params.moonAnomaly base < 360 ->
  0 <= Params.earthRotation base < 360 ->
  State.asParams (deriveSimulationState base 0 startDate) = base /\
  State.date (deriveSimulationState base 0 startDate) = startDate /\
  State.moonEclipticLon (deriveSimulationState base 0 startDate)
  = normalize360 (Params.ascendingNodeLon base + Params.moonNodePhase base).
Proof.
  intros H1 H2 H3 H4 H5. destruct base as [asc sun phase mode anomaly lat lon tilt rot].
  cbn [Params.ascendingNodeLon Params.sunEclipticLon Params.moonNodePhase
       Params.moonAnomaly Params.earthRotation] in *.
  unfold deriveSimulationState, State.asParams.
  cbn [State.earthRotation State.sunEclipticLon State.ascendingNodeLon
       State.moonEclipticLon State.moonAnomaly State.moonNodePhase
       State.moonDistanceMode State.observerLat State.observerLon State.observerTilt
       State.date
       Params.earthRotation Params.sunEclipticLon Params.ascendingNodeLon
       Params.moonNodePhase Params.moonAnomaly Params.moonDistanceMode
       Params.observerLat Params.observerLon Params.observerTilt].
  rewrite !Rmult_0_l, !Rplus_0_r.
  rewrite !normalize360_fixed, normalize180_fixed by assumption.
  repeat split. unfold newDate. apply trunc_integer.
Qed.

(** X15: propagating by 0 hours a base whose angles are in their canonical
    ranges gives back exactly that base, at the start instant. *)
Theorem deriveSimulationState_zero (base : Params.t) (startDate : Date) :
  0 <= Params.ascendingNodeLon base < 360 ->
  0 <= Params.sunEclipticLon base < 360 ->
  -180 <= Params.moonNodePhase base <= 180 ->
  0 <= Params.moonAnomaly base < 360 ->
  0 <= Params.earthRotation base < 360 ->
  State.asParams (deriveSimulationState base 0 startDate) = base /\
  State.date (deriveSimulationState base 0 startDate) = startDate /\
  State.moonEclipticLon (deriveSimulationState base 0 startDate)
  = normalize360 (Params.ascendingNodeLon base + Params.moonNodePhase base).
Proof. apply deriveSimulationState_zero_fixed. Qed.

Lemma deriveSimulationState_zero_witness :
  State.asParams
    (deriveSimulationState (Params.mk 200 30 (-180) 0.5 10 55 37 18 90) 0 1000%Z)
  = Params.mk 200 30 (-180) 0.5 10 55 37 18 90.
Proof.
  apply (deriveSimulationState_zero (Params.mk 200 30 (-180) 0.5 10 55 37 18 90) 1000%Z);
    cbn; lra.
Defined.

(** ** Distances *)

(** X16: the Moon's distance is always within [363300, 405500] km: it is the
    interpolation 363300 + mode * 42200 for a mode in [0, 1], the perigee for a
    mode below 0 and the apogee for a mode above 1.  The Sun's distance is
    within [0.98329, 1.01699] astronomical units. *)
Theorem engine_distances (julianDay : R) (controls : State.t) (rotationOffsetDeg : R) :
  let a := computeAstronomy julianDay controls rotationOffsetDeg in
  let mode := State.moonDistanceMode controls in
  363300 <= Astro.moonDistanceKm a <= 405500 /\
  (0 <= mode <= 1 -> Astro.moonDistanceKm a = 363300 + mode * 42200) /\
  (mode <= 0 -> Astro.moonDistanceKm a = 363300) /\
  (1 <= mode -> Astro.moonDistanceKm a = 405500) /\
  0.98329 * AU_KM <= Astro.sunDistanceKm a <= 1.01699 * AU_KM.
Proof.
  intros a mode.
  assert (E : Astro.moonDistanceKm a = clamp (363300 + mode * (405500 - 363300)) 363300 405500)
    by reflexivity.
  assert (ES : Astro.sunDistanceKm a
               = Sun.distanceAu (sunEclipticCoordinates (julianCenturies julianDay)) * AU_KM)
    by reflexivity.
  pose proof (sun_distanceAu_bounds (julianCenturies julianDay)) as B.
  rewrite E, ES. clearbody mode. unfold clamp, Rmax, Rmin, AU_KM.
  repeat split; intros;
    destruct (Rle_dec 405500 (363300 + mode * (405500 - 363300)));
    try destruct (Rle_dec 363300 405500);
    try destruct (Rle_dec 363300 (363300 + mode * (405500 - 363300))); lra.
Qed.

(** ** The parameters of a real date *)

Lemma getRealParameters_ranges (date : Date) :
  let p := getRealParameters date in
  0 <= Params.ascendingNodeLon p < 360 /\
  0 <= Params.sunEclipticLon p < 360 /\
  -180 <= Params.moonNodePhase p <= 180 /\
  0 <= Params.moonDistanceMode p <= 1 /\
  0 <= Params.moonAnomaly p < 360 /\
  0 <= Params.earthRotation p < 360.
Proof.
  intros p. subst p. unfold getRealParameters.
  cbn [Params.ascendingNodeLon Params.sunEclipticLon Params.moonNodePhase
       Params.moonDistanceMode Params.moonAnomaly Params.earthRotation].
  repeat split; try apply normalize360_range; try apply normalize180_range;
    try (apply clamp_range; lra).
Qed.

(** X17: the parameters [getRealParameters] computes for any date lie inside
    the ranges of the controls: node, Sun longitude, anomaly and Earth
    rotation in [0, 360), phase from the node in [-180, 180], distance mode in
    [0, 1], the fixed observer (latitude 55, longitude 37, tilt 18) within
    [-90, 90], [-180, 180] and [0, 65]; and the ephemeris latitude of the
    Moon is within [-8.5, 8.5]. *)
Theorem getRealParameters_in_range (date : Date) :
  let p := getRealParameters date in
  (0 <= Params.ascendingNodeLon p < 360 /\
   0 <= Params.sunEclipticLon p < 360 /\
   -180 <= Params.moonNodePhase p <= 180 /\
   0 <= Params.moonDistanceMode p <= 1 /\
   0 <= Params.moonAnomaly p < 360 /\
   0 <= Params.earthRotation p < 360) /\
  (-90 <= Params.observerLat p <= 90 /\
   -180 <= Params.observerLon p <= 180 /\
   0 <= Params.observerTilt p <= 65) /\
  (forall t : R, -8.5 <= Moon.latDeg (moonEclipticCoordinates t) <= 8.5).
Proof.
  intros p. split; [apply getRealParameters_ranges|]. split.
  - subst p. unfold getRealParameters.
    cbn [Params.observerLat Params.observerLon Params.observerTilt]. lra.
  - intros t. unfold moonEclipticCoordinates. cbn [Moon.latDeg].
    apply clamp_range. lra.
Qed.

(** X18: a simulation started from the real parameters of a date is aligned
    with the ephemeris at its start: propagating them by 0 hours from that
    date gives back the parameters, the rotation offset between the Earth
    rotation and the sidereal time is 0, and the Sun and Moon longitudes of the
    state are those of the ephemeris (the Moon's is recovered from the node
    longitude and the phase). *)
Theorem real_parameters_at_start (date : Date) :
  let base := getRealParameters date in
  let s := deriveSimulationState base 0 date in
  let t := julianCenturies (toJulianDate date) in
  State.asParams s = base /\
  State.julianDay s = toJulianDate date /\
  normalize180 (State.earthRotation s - State.gmst s) = 0 /\
  State.sunEclipticLon s = Sun.lonDeg (sunEclipticCoordinates t) /\
  State.moonEclipticLon s = Moon.lonDeg (moonEclipticCoordinates t).
Proof.
  intros base s t.
  destruct (getRealParameters_ranges date) as (R1 & R2 & R3 & R4 & R5 & R6).
  fold base in R1, R2, R3, R4, R5, R6.
  destruct (deriveSimulationState_zero_fixed base date R1 R2 R3 R5 R6) as (Z1 & Z2 & Z3).
  fold s in Z1, Z2, Z3.
  assert (J : State.julianDay s = toJulianDate date).
  { change (State.julianDay s) with (toJulianDate (State.date s)). rewrite Z2. reflexivity. }
  assert (ER : State.earthRotation s = Params.earthRotation base).
  { transitivity (Params.earthRotation (State.asParams s));
      [reflexivity | rewrite Z1; reflexivity]. }
  assert (G : State.gmst s = greenwichSiderealDeg (toJulianDate date)).
  { change (State.gmst s) with (greenwichSiderealDeg (State.julianDay s)). rewrite J.
    reflexivity. }
  split; [exact Z1|]. split; [exact J|]. split; [|split].
  - rewrite ER, G.
    change (Params.earthRotation base) with (greenwichSiderealDeg (toJulianDate date)).
    replace (greenwichSiderealDeg (toJulianDate date)
             - greenwichSiderealDeg (toJulianDate date)) with 0 by ring.
    apply normalize180_fixed. lra.
  - assert (E : State.sunEclipticLon s = Params.sunEclipticLon base).
    { transitivity (Params.sunEclipticLon (State.asParams s));
        [reflexivity | rewrite Z1; reflexivity]. }
    rewrite E.
    change (Params.sunEclipticLon base) with (normalize360 (Sun.lonDeg (sunEclipticCoordinates t))).
    apply normalize360_fixed.
    unfold sunEclipticCoordinates. cbn [Sun.lonDeg]. apply normalize360_range.
  - rewrite Z3.
    set (L := Moon.lonDeg (moonEclipticCoordinates t)).
    assert (RL : 0 <= L < 360).
    { subst L. unfold moonEclipticCoordinates. cbn [Moon.lonDeg]. apply normalize360_range. }
    change (Params.moonNodePhase base)
      with (normalize180 (L - Params.ascendingNodeLon base)).
    apply congruent360_unique; [|apply normalize360_range | exact RL].
    eapply congruent360_trans; [apply normalize360_congruent|].
    replace L with (Params.ascendingNodeLon base + (L - Params.ascendingNodeLon base)) at 2
      by ring.
    apply congruent360_add; [apply congruent360_refl | apply normalize180_congruent].
Qed.

(** ** Great-circle distance *)

Lemma greatCircleDistanceKm_haversine (latA lonA latB lonB : R) :
  greatCircleDistanceKm latA lonA latB lonB =
  EARTH_RADIUS_KM *
  (2 * JsNum.atan2 (sqrt (haversineTerm latA lonA latB lonB))
                   (sqrt (1 - haversineTerm latA lonA latB lonB))).
Proof. reflexivity. Qed.

Lemma haversineTerm_sym (latA lonA latB lonB : R) :
  haversineTerm latA lonA latB lonB = haversineTerm latB lonB latA lonA.
Proof.
  unfold haversineTerm.
  replace ((latA - latB) * DEG / 2) with (- ((latB - latA) * DEG / 2)) by lra.
  replace ((lonA - lonB) * DEG / 2) with (- ((lonB - lonA) * DEG / 2)) by lra.
  rewrite !sin_neg. ring.
Qed.

Lemma haversineTerm_range (latA lonA latB lonB : R) :
  -90 <= latA <= 90 -> -90 <= latB <= 90 ->
  0 <= haversineTerm latA lonA latB lonB <= 1.
Proof.
  intros HA HB. pose proof PI_RGT_0 as Hpi. unfold haversineTerm.
  set (l1 := latA * DEG). set (l2 := latB * DEG).
  set (x := (latB - latA) * DEG / 2). set (y := (lonB - lonA) * DEG / 2).
  assert (B1 : - (PI / 2) <= l1 <= PI / 2) by (unfold l1, DEG; split; nra).
  assert (B2 : - (PI / 2) <= l2 <= PI / 2) by (unfold l2, DEG; split; nra).
  assert (C1 : 0 <= cos l1) by (apply cos_ge_0; lra).
  assert (C2 : 0 <= cos l2) by (apply cos_ge_0; lra).
  assert (E : l2 - l1 = 2 * x) by (unfold l1, l2, x; lra).
  pose proof (cos_minus l2 l1) as M. rewrite E, cos_2a_cos in M.
  pose proof (cos_plus l1 l2) as P. pose proof (COS_bound (l1 + l2)) as [_ U].
  assert (K : cos l1 * cos l2 <= cos x * cos x) by lra.
  pose proof (sin2_cos2 x) as Sx. pose proof (sin2_cos2 y) as Sy. unfold Rsqr in Sx, Sy.
  set (sx := sin x) in *. set (cx := cos x) in *. set (sy := sin y) in *.
  set (cy := cos y) in *. set (c1 := cos l1) in *. set (c2 := cos l2) in *.
  assert (Q : 0 <= sy * sy <= 1) by nra.
  assert (P12 : 0 <= c1 * c2) by (apply Rmult_le_pos; assumption).
  assert (T : 0 <= c1 * c2 * (sy * sy) <= cx * cx).
  { split; [apply Rmult_le_pos; lra|].
    apply Rle_trans with (c1 * c2 * 1); [apply Rmult_le_compat_l; lra | lra]. }
  split; nra.
Qed.

Lemma atan2_quadrant (y x : R) : 0 <= y -> 0 <= x -> 0 <= JsNum.atan2 y x <= PI / 2.
Proof.
  intros Hy Hx. pose proof PI_RGT_0. unfold JsNum.atan2.
  destruct (Rlt_dec 0 x) as [P|P].
  - assert (Q : 0 <= y / x)
      by (apply Rmult_le_pos; [lra | left; apply Rinv_0_lt_compat; lra]).
    pose proof (atan_bound (y / x)) as [_ U]. split; [|lra].
    rewrite <- atan_0. destruct Q as [Q|<-]; [left; apply atan_increasing; lra | lra].
  - destruct (Rlt_dec x 0); [lra|].
    destruct (Rlt_dec 0 y); [lra|]. destruct (Rlt_dec y 0); lra.
Qed.


(** ** What the search returns *)

Lemma scanStep_eq (base : Params.t) (startDate : Date) (t hour : R) (s : Scan.t) :
  scanStep base startDate t hour s =
  if scanDistanceKm base startDate (t + hour) <=? scanLimitKm base startDate (t + hour)
  then
    (if match Scan.minDistance s with
        | None => true
        | Some m => scanDistanceKm base startDate (t + hour) <? m
        end
     then Scan.mk (Some (scanDistanceKm base startDate (t + hour))) (t + hour) true
     else Scan.mk (Scan.minDistance s) (Scan.bestT s) true)
  else s.
Proof. reflexivity. Qed.

Lemma searchTurn_eq (base : Params.t) (startDate : Date) (t : R) :
  searchTurn base startDate t =
  let tnm := refinedNewMoon base startDate t in
  let scanned :=
    if Astro.depth (snd (astroAt base startDate tnm)) >? 0 then
      scanLoop SCAN_FUEL base startDate tnm (-6) (Scan.mk None tnm false)
    else Scan.mk None tnm false in
  if Scan.found scanned then Return (Scan.bestT scanned) else Next (tnm + 24).
Proof. reflexivity. Qed.

Lemma scanHours_range (hour : R) : In hour scanHours -> -6 <= hour <= 6.
Proof.
  unfold scanHours. rewrite in_map_iff. intros [k [<- Hk]].
  apply in_seq in Hk.
  assert (0 <= INR k) by apply pos_INR.
  assert (INR k <= 120) by (rewrite INR_IZR_INZ; apply IZR_le; lia).
  lra.
Qed.

Section ScanFold.

Variables (base : Params.t) (startDate : Date) (t : R).

Local Abbreviation dist := (fun hour : R => scanDistanceKm base startDate (t + hour)).
Local Abbreviation limit := (fun hour : R => scanLimitKm base startDate (t + hour)).

Lemma scanStep_invariant (seen : list R) (hour : R) (s : Scan.t) :
  scanInvariant base startDate t seen s ->
  scanInvariant base startDate t (seen ++ [hour]) (scanStep base startDate t hour s).
Proof.
  intros I. rewrite scanStep_eq.
  destruct (dist hour <=? limit hour) eqn:V.
  - apply leb_true in V. right.
    destruct I as [(F & M & N) | (F & h & Hin & Hv & Hb & Hm & Hmin)].
    + rewrite M. cbn [Scan.found Scan.bestT Scan.minDistance]. split; [reflexivity|].
      exists hour. repeat split; auto.
      * apply in_or_app. right. left. reflexivity.
      * intros h' Hin' Hv'. apply in_app_or in Hin'. destruct Hin' as [Hin'|[<-|[]]].
        -- specialize (N h' Hin'). lra.
        -- lra.
    + rewrite Hm. destruct (dist hour <? dist h) eqn:C.
      * apply ltb_true in C. cbn [Scan.found Scan.bestT Scan.minDistance].
        split; [reflexivity|]. exists hour. repeat split; auto.
        -- apply in_or_app. right. left. reflexivity.
        -- intros h' Hin' Hv'. apply in_app_or in Hin'. destruct Hin' as [Hin'|[<-|[]]].
           ++ specialize (Hmin h' Hin' Hv'). lra.
           ++ lra.
      * apply ltb_false in C. cbn [Scan.found Scan.bestT Scan.minDistance].
        split; [reflexivity|]. exists h. repeat split; auto.
        -- apply in_or_app. left. exact Hin.
        -- intros h' Hin' Hv'. apply in_app_or in Hin'. destruct Hin' as [Hin'|[<-|[]]].
           ++ apply Hmin; assumption.
           ++ exact C.
  - apply leb_false in V.
    destruct I as [(F & M & N) | (F & h & Hin & Hv & Hb & Hm & Hmin)].
    + left. repeat split; auto. intros h' Hin'. apply in_app_or in Hin'.
      destruct Hin' as [Hin'|[<-|[]]]; [apply N; assumption | exact V].
    + right. split; [exact F|]. exists h. repeat split; auto.
      * apply in_or_app. left. exact Hin.
      * intros h' Hin' Hv'. apply in_app_or in Hin'. destruct Hin' as [Hin'|[<-|[]]].
        -- apply Hmin; assumption.
        -- lra.
Qed.

Lemma scanFold_invariant (rest : list R) :
  forall (seen : list R) (s : Scan.t),
    scanInvariant base startDate t seen s ->
    scanInvariant base startDate t (seen ++ rest)
      (fold_left (fun s hour => scanStep base startDate t hour s) rest s).
Proof.
  induction rest as [|hour rest IH]; intros seen s I; cbn [fold_left].
  - rewrite app_nil_r. exact I.
  - replace (seen ++ hour :: rest) with ((seen ++ [hour]) ++ rest)
      by (rewrite <- app_assoc; reflexivity).
    apply IH, scanStep_invariant, I.
Qed.

Lemma scanLoop_invariant :
  scanInvariant base startDate t scanHours
    (scanLoop SCAN_FUEL base startDate t (-6) (Scan.mk None t false)).
Proof.
  rewrite scanLoop_fuel by (unfold SCAN_FUEL; lia).
  apply (scanFold_invariant scanHours []).
  left. cbn [Scan.found Scan.minDistance]. repeat split. intros h [].
Qed.

End ScanFold.

Lemma searchTurn_cases (base : Params.t) (startDate : Date) (t : R) :
  let tnm := refinedNewMoon base startDate t in
  match searchTurn base startDate t with
  | Return bestT =>
      0 < Astro.depth (snd (astroAt base startDate tnm)) /\
      exists hour : R,
        In hour scanHours /\ bestT = tnm + hour /\
        scanDistanceKm base startDate bestT <= scanLimitKm base startDate bestT /\
        forall h' : R,
          In h' scanHours ->
          scanDistanceKm base startDate (tnm + h') <= scanLimitKm base startDate (tnm + h') ->
          scanDistanceKm base startDate bestT <= scanDistanceKm base startDate (tnm + h')
  | Next t' =>
      t' = tnm + 24 /\
      (Astro.depth (snd (astroAt base startDate tnm)) <= 0 \/
       forall hour : R,
         In hour scanHours ->
         scanLimitKm base startDate (tnm + hour) < scanDistanceKm base startDate (tnm + hour))
  end.
Proof.
  intros tnm. rewrite searchTurn_eq. cbv zeta. fold tnm.
  destruct (Astro.depth (snd (astroAt base startDate tnm)) >? 0) eqn:D.
  - apply gtb_true in D.
    destruct (scanLoop_invariant base startDate tnm)
      as [(F & M & N) | (F & h & Hin & Hv & Hb & Hm & Hmin)]; rewrite F.
    + split; [reflexivity|]. right. exact N.
    + split; [exact D|]. exists h. rewrite Hb. auto.
  - apply gtb_false in D. cbn [Scan.found]. split; [reflexivity|]. left. exact D.
Qed.

(** X20: one turn of the search.  With [tnm] the instant the turn refines to:
    the turn returns [bestT] only if the depth at [tnm] is positive, and then
    [bestT] is [tnm] plus one of the scan offsets -6, -5.9, ..., 6, the observer
    is there within the penumbra radius plus 25 km of the shadow centre, and
    no scanned instant that passes this test is closer; otherwise the next
    turn starts at [tnm + 24], the depth at [tnm] being 0 or no scanned
    instant passing the test. *)
Theorem searchTurn_outcome (base : Params.t) (startDate : Date) (t : R) :
  let tnm := refinedNewMoon base startDate t in
  match searchTurn base startDate t with
  | Return bestT =>
      0 < Astro.depth (snd (astroAt base startDate tnm)) /\
      exists hour : R,
        In hour scanHours /\ -6 <= hour <= 6 /\ bestT = tnm + hour /\
        scanDistanceKm base startDate bestT <= scanLimitKm base startDate bestT /\
        forall h' : R,
          In h' scanHours ->
          scanDistanceKm base startDate (tnm + h') <= scanLimitKm base startDate (tnm + h') ->
          scanDistanceKm base startDate bestT <= scanDistanceKm base startDate (tnm + h')
  | Next t' =>
      t' = tnm + 24 /\
      (Astro.depth (snd (astroAt base startDate tnm)) <= 0 \/
       forall hour : R,
         In hour scanHours ->
         scanLimitKm base startDate (tnm + hour) < scanDistanceKm base startDate (tnm + hour))
  end.
Proof.
  intros tnm. pose proof (searchTurn_cases base startDate t) as C. cbv zeta in C.
  fold tnm in C. destruct (searchTurn base startDate t) as [bestT | t'].
  - destruct C as [D (hour & Hin & Hb & Hv & Hmin)]. split; [exact D|].
    exists hour. repeat split; auto; apply scanHours_range; exact Hin.
  - exact C.
Qed.

(** X21: what [findNextLocalEclipse] returns.  It is [null], or a number
    [bestT] found in a turn [j] below 10000 that started at [tj]: the depth at
    the new-moon instant [tnm] the turn refined to is positive, [bestT] lies
    within 6 hours of [tnm], and at [bestT] the observer is within the penumbra
    radius plus 25 km of the shadow centre. *)
Theorem findNextLocalEclipse_result
  (base : Params.t) (currentSimHours : R) (startDate : Date) :
  findNextLocalEclipse base currentSimHours startDate = None \/
  exists (bestT : R) (j : nat) (tj : R),
    findNextLocalEclipse base currentSimHours startDate = Some bestT /\
    (Z.of_nat j < 10000)%Z /\
    turnStart j base startDate (currentSimHours + 24) = Some tj /\
    let tnm := refinedNewMoon base startDate tj in
    0 < Astro.depth (snd (astroAt base startDate tnm)) /\
    tnm - 6 <= bestT <= tnm + 6 /\
    scanDistanceKm base startDate bestT <= scanLimitKm base startDate bestT.
Proof.
  unfold findNextLocalEclipse, findNextLocalEclipseRun.
  destruct (searchLoop_spec base startDate MAX_TURNS 0 (currentSimHours + 24))
    as (_ & _ & _ & F).
  destruct (fst (searchLoop MAX_TURNS 0 base startDate (currentSimHours + 24)))
    as [bestT|]; [right | left; reflexivity].
  destruct (F bestT eq_refl) as (j & tj & Hj & Hs & Hr & _).
  exists bestT, j, tj. split; [reflexivity|].
  split; [unfold MAX_TURNS in Hj; lia|]. split; [exact Hs|].
  pose proof (searchTurn_cases base startDate tj) as C. cbv zeta in C.
  rewrite Hr in C. destruct C as [D (hour & Hin & Hb & Hv & _)].
  cbv zeta. split; [exact D|]. apply scanHours_range in Hin. split; [lra | exact Hv].
Qed.

Lemma spherical_cosine_bound (a b c : R) :
  -1 <= c <= 1 -> -1 <= sin a * sin b + cos a * cos b * c <= 1.
Proof.
  intros Hc.
  pose proof (COS_bound (a - b)) as B1. rewrite cos_minus in B1.
  pose proof (COS_bound (a + b)) as B2. rewrite cos_plus in B2.
  set (p := sin a * sin b) in *. set (q := cos a * cos b) in *.
  destruct (Rle_dec 0 q) as [Q|Q]; split; nra.
Qed.

Lemma PI_RAD : PI * RAD = 180.
Proof. unfold RAD. field. apply PI_neq0. Qed.

Lemma horizontal_azimuth_range (observerLat declination hourAngleDeg : R) :
  0 <= Horizontal.azimuth (horizontalCoordinates observerLat declination hourAngleDeg)
    <= 360.
Proof.
  unfold horizontalCoordinates. cbv zeta. cbn [Horizontal.azimuth].
  set (cosAz := clamp _ (-1) 1).
  pose proof (acos_bound cosAz) as [A0 A1].
  pose proof RAD_pos as RP. pose proof PI_RAD as PR. pose proof PI_RGT_0 as PP.
  assert (Z0 : 0 <= acos cosAz * RAD) by (apply Rmult_le_pos; lra).
  assert (Z1 : acos cosAz * RAD <= 180)
    by (rewrite <- PR; apply Rmult_le_compat_r; lra).
  assert (E : (2 * PI - acos cosAz) * RAD = 360 - acos cosAz * RAD)
    by (rewrite Rmult_minus_distr_r; replace (2 * PI * RAD) with (2 * (PI * RAD)) by ring;
        rewrite PR; ring).
  destruct (_ >? 0); [rewrite E|]; lra.
Qed.


Lemma crossVector_dot_l (a b : Vec.t) : dotVector a (crossVector a b) = 0.
Proof. unfold dotVector, crossVector. cbn [Vec.x Vec.y Vec.z]. ring. Qed.

Lemma crossVector_dot_r (a b : Vec.t) : dotVector b (crossVector a b) = 0.
Proof. unfold dotVector, crossVector. cbn [Vec.x Vec.y Vec.z]. ring. Qed.

Lemma crossVector_lagrange (a b : Vec.t) :
  dotVector (crossVector a b) (crossVector a b) =
  dotVector a a * dotVector b b - dotVector a b * dotVector a b.
Proof. unfold dotVector, crossVector. cbn [Vec.x Vec.y Vec.z]. ring. Qed.

Lemma dotVector_scale_r (u v : Vec.t) (k : R) :
  dotVector u (scaleVector v k) = k * dotVector u v.
Proof. unfold dotVector, scaleVector. cbn [Vec.x Vec.y Vec.z]. ring. Qed.

Lemma dotVector_comm (u v : Vec.t) : dotVector u v = dotVector v u.
Proof. unfold dotVector. ring. Qed.

Lemma normalizeVector_scaled (v : Vec.t) :
  1e-12 <= magnitudeVector v ->
  normalizeVector v = scaleVector v (1 / magnitudeVector v).
Proof.
  intros H. unfold normalizeVector.
  replace (magnitudeVector v <? 1e-12) with false
    by (symmetry; apply ltb_false; exact H).
  reflexivity.
Qed.

Lemma magnitudeVector_lower (v : Vec.t) :
  1e-24 <= dotVector v v -> 1e-12 <= magnitudeVector v.
Proof.
  intros H. pose proof (magnitudeVector_sqr v) as S.
  assert (P : 0 <= magnitudeVector v) by (unfold magnitudeVector; apply sqrt_pos).
  destruct (Rle_dec 1e-12 (magnitudeVector v)) as [L|L]; [exact L|]. nra.
Qed.

Lemma normalizeVector_of_unit (v : Vec.t) :
  dotVector v v = 1 -> normalizeVector v = v.
Proof.
  intros H.
  assert (M : magnitudeVector v = 1)
    by (apply magnitudeVector_of_dot; [lra | rewrite H; ring]).
  rewrite normalizeVector_scaled by (rewrite M; lra). rewrite M.
  destruct v as [a b c]. unfold scaleVector. cbn [Vec.x Vec.y Vec.z].
  f_equal; field.
Qed.

Lemma sunView_reference_cross (e : Vec.t) :
  dotVector e e = 1 ->
  let reference :=
    if Rabs (Vec.z e) >? 0.93 then Vec.mk 1 0 0 else Vec.mk 0 0 1 in
  0.1 <= dotVector (crossVector reference e) (crossVector reference e).
Proof.
  intros H reference. subst reference.
  pose proof (Rle_0_sqr (Vec.x e)) as Qx. pose proof (Rle_0_sqr (Vec.y e)) as Qy.
  unfold Rsqr in *.
  destruct (Rabs (Vec.z e) >? 0.93) eqn:E.
  - apply gtb_true in E. rewrite crossVector_lagrange.
    unfold dotVector in *. cbn [Vec.x Vec.y Vec.z].
    assert (Z : 0.8649 <= Vec.z e * Vec.z e).
    { unfold Rabs in E. destruct (Rcase_abs (Vec.z e)); nra. }
    nra.
  - apply gtb_false in E. rewrite crossVector_lagrange.
    unfold dotVector in *. cbn [Vec.x Vec.y Vec.z].
    assert (Z : Vec.z e * Vec.z e <= 0.8649).
    { unfold Rabs in E. destruct (Rcase_abs (Vec.z e)); nra. }
    nra.
Qed.

(** X24: the viewing frame of [sunViewProjection].  For every Sun vector,
    the zero vector included, the three axes it builds ([earthFromSun],
    [axisX], [axisY]) are of length 1 and perpendicular to one another, with
    [axisY] the cross product of the other two: the default of
    [normalizeVector] is never taken for [axisX] or [axisY].  The two offsets
    returned are the angles of the Moon direction in this frame. *)
Theorem sunViewBasis_orthonormal (sunVector moonVector : Vec.t) :
  let '(earthFromSun, axisX, axisY) := sunViewBasis sunVector in
  let moonFromSun :=
    normalizeVector (addVector moonVector (scaleVector sunVector (-1))) in
  dotVector earthFromSun earthFromSun = 1 /\
  dotVector axisX axisX = 1 /\
  dotVector axisY axisY = 1 /\
  dotVector earthFromSun axisX = 0 /\
  dotVector earthFromSun axisY = 0 /\
  dotVector axisX axisY = 0 /\
  axisY = crossVector earthFromSun axisX /\
  SunView.offsetXDeg (sunViewProjection sunVector moonVector) =
    JsNum.atan2 (dotVector moonFromSun axisX) (dotVector moonFromSun earthFromSun) * RAD /\
  SunView.offsetYDeg (sunViewProjection sunVector moonVector) =
    JsNum.atan2 (dotVector moonFromSun axisY) (dotVector moonFromSun earthFromSun) * RAD.
Proof.
  unfold sunViewBasis, sunViewProjection. cbv zeta.
  cbn [SunView.offsetXDeg SunView.offsetYDeg].
  set (e := normalizeVector (scaleVector sunVector (-1))).
  pose proof (normalizeVector_unit (scaleVector sunVector (-1))) as He. fold e in He.
  pose proof (sunView_reference_cross e He) as Hc. cbv zeta in Hc.
  set (r := if Rabs (Vec.z e) >? 0.93 then Vec.mk 1 0 0 else Vec.mk 0 0 1) in *.
  set (c := crossVector r e) in *.
  assert (Hm : 1e-12 <= magnitudeVector c) by (apply magnitudeVector_lower; lra).
  set (ax := normalizeVector c).
  assert (Hax : dotVector ax ax = 1) by apply normalizeVector_unit.
  assert (Hea : dotVector e ax = 0).
  { unfold ax. rewrite normalizeVector_scaled by exact Hm.
    rewrite dotVector_scale_r. unfold c. rewrite crossVector_dot_r. ring. }
  assert (Hu : dotVector (crossVector e ax) (crossVector e ax) = 1)
    by (rewrite crossVector_lagrange, He, Hax, Hea; ring).
  rewrite (normalizeVector_of_unit _ Hu).
  repeat split; auto.
  - apply crossVector_dot_l.
  - apply crossVector_dot_r.
Qed.

(** ** Angles and vectors of the views *)

Lemma sin_cos_turns (x : R) (k : Z) :
  sin (x + 2 * IZR k * PI) = sin x /\ cos (x + 2 * IZR k * PI) = cos x.
Proof.
  destruct (Z_le_gt_dec 0 k) as [P|N].
  - rewrite <- (Z2Nat.id k P), <- INR_IZR_INZ. split; [apply sin_period | apply cos_period].
  - assert (Q : (0 <= - k)%Z) by lia.
    pose proof (sin_period (x + 2 * IZR k * PI) (Z.to_nat (- k))) as S.
    pose proof (cos_period (x + 2 * IZR k * PI) (Z.to_nat (- k))) as C.
    rewrite INR_IZR_INZ, (Z2Nat.id _ Q), opp_IZR in S, C.
    replace (x + 2 * IZR k * PI + 2 * - IZR k * PI) with x in S, C by ring.
    split; congruence.
Qed.

Lemma congruent360_sin_cos (a b : R) :
  congruent360 a b -> sin (a * DEG) = sin (b * DEG) /\ cos (a * DEG) = cos (b * DEG).
Proof.
  intros [k ->].
  replace ((b + 360 * IZR k) * DEG) with (b * DEG + 2 * IZR k * PI)
    by (unfold DEG; field).
  apply sin_cos_turns.
Qed.

Lemma sqrt_scaled (x t : R) : 0 <= x -> sqrt (x * x + x * t * (x * t)) = x * sqrt (1 + t * t).
Proof.
  intros Hx. replace (x * x + x * t * (x * t)) with (x * x * (1 + t * t)) by ring.
  rewrite sqrt_mult_alt by nra. rewrite sqrt_square by exact Hx. reflexivity.
Qed.

Lemma atan2_hypot (y x : R) :
  JsMath.hypot2 x y * cos (JsNum.atan2 y x) = x /\
  JsMath.hypot2 x y * sin (JsNum.atan2 y x) = y.
Proof.
  unfold JsMath.hypot2, JsNum.atan2.
  assert (Q : forall t : R, 0 < sqrt (1 + t * t)) by (intros t; apply sqrt_lt_R0; nra).
  destruct (Rlt_dec 0 x) as [P|P]; [|destruct (Rlt_dec x 0) as [N|N]].
  - set (t := y / x). assert (E : y = x * t) by (unfold t; field; lra).
    clearbody t. subst y. specialize (Q t).
    rewrite sqrt_scaled by lra. rewrite cos_atan, sin_atan. unfold Rsqr.
    split; field; lra.
  - set (t := y / x). assert (E : y = x * t) by (unfold t; field; lra).
    clearbody t.
    assert (S : sqrt (x * x + y * y) = - x * sqrt (1 + t * t)).
    { replace (x * x + y * y) with (- x * - x + - x * t * (- x * t)) by (rewrite E; ring).
      apply sqrt_scaled. lra. }
    rewrite S. specialize (Q t).
    destruct (Rle_dec 0 y).
    + rewrite neg_cos, neg_sin, cos_atan, sin_atan. unfold Rsqr.
      split; [field; lra | rewrite E; field; lra].
    + replace (atan t - PI) with (- (PI - atan t)) by ring.
      rewrite cos_neg, sin_neg, Rtrigo_facts.cos_pi_minus, Rtrigo_facts.sin_pi_minus,
        cos_atan, sin_atan.
      unfold Rsqr. split; [field; lra | rewrite E; field; lra].
  - assert (x = 0) by lra. subst x.
    replace (0 * 0 + y * y) with (y * y) by ring.
    destruct (Rlt_dec 0 y); [|destruct (Rlt_dec y 0)].
    + rewrite sqrt_square by lra. rewrite cos_PI2, sin_PI2. split; ring.
    + replace (y * y) with (- y * - y) by ring. rewrite sqrt_square by lra.
      rewrite cos_neg, sin_neg, cos_PI2, sin_PI2. split; ring.
    + assert (y = 0) by lra. subst y. rewrite Rmult_0_r, sqrt_0. split; ring.
Qed.

Lemma atan2_range (y x : R) : - PI < JsNum.atan2 y x <= PI.
Proof.
  pose proof PI_RGT_0 as HP. unfold JsNum.atan2.
  destruct (Rlt_dec 0 x) as [P|P]; [|destruct (Rlt_dec x 0) as [N|N]].
  - pose proof (atan_bound (y / x)). lra.
  - pose proof (atan_bound (y / x)) as B. destruct (Rle_dec 0 y) as [Y|Y].
    + assert (y / x <= 0).
      { unfold Rdiv. assert (/ x < 0) by (apply Rinv_lt_0_compat; lra). nra. }
      assert (atan (y / x) <= 0).
      { rewrite <- atan_0. destruct H as [H|H]; [left; apply atan_increasing; exact H|].
        rewrite H. lra. }
      lra.
    + assert (0 < y / x).
      { unfold Rdiv. assert (/ x < 0) by (apply Rinv_lt_0_compat; lra). nra. }
      assert (0 < atan (y / x)) by (rewrite <- atan_0; apply atan_increasing; lra).
      lra.
  - destruct (Rlt_dec 0 y); [lra|]. destruct (Rlt_dec y 0); lra.
Qed.

Lemma cauchy_schwarz (a b : Vec.t) :
  Rabs (dotVector a b) <= magnitudeVector a * magnitudeVector b.
Proof.
  pose proof (crossVector_lagrange a b) as L.
  pose proof (dotVector_nonneg (crossVector a b)) as N.
  pose proof (magnitudeVector_sqr a) as A. pose proof (magnitudeVector_sqr b) as B.
  assert (PA : 0 <= magnitudeVector a) by (unfold magnitudeVector; apply sqrt_pos).
  assert (PB : 0 <= magnitudeVector b) by (unfold magnitudeVector; apply sqrt_pos).
  set (ma := magnitudeVector a) in *. set (mb := magnitudeVector b) in *.
  set (d := dotVector a b) in *.
  assert (S : d * d <= (ma * mb) * (ma * mb)).
  { replace (ma * mb * (ma * mb)) with ((ma * ma) * (mb * mb)) by ring.
    rewrite A, B. lra. }
  assert (0 <= ma * mb) by (apply Rmult_le_pos; assumption).
  unfold Rabs. destruct (Rcase_abs d); nra.
Qed.

Lemma vectorLength_magnitude (v : Vec.t) : vectorLength v = magnitudeVector v.
Proof. reflexivity. Qed.

Lemma subtractVector_dot (a b : Vec.t) :
  dotVector (subtractVector a b) (subtractVector a b) =
  dotVector a a - 2 * dotVector a b + dotVector b b.
Proof. unfold dotVector, subtractVector. cbn [Vec.x Vec.y Vec.z]. ring. Qed.

Lemma subtractVector_triangle (a b : Vec.t) :
  magnitudeVector b <= magnitudeVector a ->
  magnitudeVector a - magnitudeVector b <= magnitudeVector (subtractVector a b)
    <= magnitudeVector a + magnitudeVector b.
Proof.
  intros H. pose proof (cauchy_schwarz a b) as C.
  pose proof (magnitudeVector_sqr a) as A. pose proof (magnitudeVector_sqr b) as B.
  pose proof (magnitudeVector_sqr (subtractVector a b)) as D.
  rewrite subtractVector_dot in D.
  assert (PB : 0 <= magnitudeVector b) by (unfold magnitudeVector; apply sqrt_pos).
  assert (PD : 0 <= magnitudeVector (subtractVector a b))
    by (unfold magnitudeVector; apply sqrt_pos).
  set (ma := magnitudeVector a) in *. set (mb := magnitudeVector b) in *.
  set (md := magnitudeVector (subtractVector a b)) in *.
  set (d := dotVector a b) in *.
  assert (C' : - (ma * mb) <= d <= ma * mb)
    by (unfold Rabs in C; destruct (Rcase_abs d); lra).
  split; nra.
Qed.

Lemma unit_dot_bound (u v : Vec.t) :
  dotVector u u = 1 -> dotVector v v = 1 -> -1 <= dotVector u v <= 1.
Proof.
  intros Hu Hv. pose proof (cauchy_schwarz u v) as C.
  rewrite (magnitudeVector_of_dot u 1), (magnitudeVector_of_dot v 1) in C by lra.
  unfold Rabs in C. destruct (Rcase_abs (dotVector u v)); lra.
Qed.

Lemma acos_degrees_range (c : R) : 0 <= acos c * RAD <= 180.
Proof.
  pose proof (acos_bound c) as [L U]. pose proof RAD_pos as P.
  rewrite <- PI_RAD. split; [apply Rmult_le_pos; lra | apply Rmult_le_compat_r; lra].
Qed.

Lemma dotVector_normalized (a b : Vec.t) :
  1e-12 <= magnitudeVector a -> 1e-12 <= magnitudeVector b ->
  dotVector (normalizeVector a) (normalizeVector b) =
  dotVector a b / (magnitudeVector a * magnitudeVector b).
Proof.
  intros Ha Hb. rewrite !normalizeVector_scaled by assumption.
  unfold dotVector, scaleVector. cbn [Vec.x Vec.y Vec.z]. field. lra.
Qed.


Lemma destination_sine_bound (S C sd cd cb : R) :
  S * S + C * C = 1 -> sd * sd + cd * cd = 1 -> -1 <= cb <= 1 ->
  -1 <= S * cd + C * sd * cb <= 1.
Proof.
  intros H1 H2 Hc.
  assert (A : (S * cd + C * sd) * (S * cd + C * sd) + (C * cd - S * sd) * (C * cd - S * sd) = 1).
  { transitivity ((S * S + C * C) * (sd * sd + cd * cd)); [ring | rewrite H1, H2; ring]. }
  assert (B : (S * cd - C * sd) * (S * cd - C * sd) + (C * cd + S * sd) * (C * cd + S * sd) = 1).
  { transitivity ((S * S + C * C) * (sd * sd + cd * cd)); [ring | rewrite H1, H2; ring]. }
  pose proof (Rle_0_sqr (C * cd - S * sd)) as QA.
  pose proof (Rle_0_sqr (C * cd + S * sd)) as QB. unfold Rsqr in QA, QB.
  assert (A' : -1 <= S * cd + C * sd <= 1) by (split; nra).
  assert (B' : -1 <= S * cd - C * sd <= 1) by (split; nra).
  clear A B QA QB.
  set (p := S * cd) in *. set (q := C * sd) in *.
  replace (C * sd * cb) with (q * cb) by (unfold q; ring).
  destruct (Rle_dec 0 q); split; nra.
Qed.

Lemma sphericalDestination_cosine (latDeg lonDeg radiusDeg bearingDeg : R) :
  -90 <= latDeg <= 90 ->
  let p := sphericalDestination latDeg lonDeg radiusDeg bearingDeg in
  sin (latDeg * DEG) * sin (Point.lat p * DEG) +
  cos (latDeg * DEG) * cos (Point.lat p * DEG) * cos ((Point.lon p - lonDeg) * DEG)
  = cos (radiusDeg * DEG).
Proof.
  intros Hlat p. subst p. unfold sphericalDestination. cbv zeta.
  cbn [Point.lat Point.lon].
  pose proof PI_RGT_0 as HP.
  assert (L1 : - (PI / 2) <= latDeg * DEG <= PI / 2) by (unfold DEG; split; nra).
  pose proof (cos_ge_0 _ (proj1 L1) (proj2 L1)) as C0.
  pose proof (sin2_cos2 (latDeg * DEG)) as H1.
  pose proof (sin2_cos2 (radiusDeg * DEG)) as H2.
  pose proof (sin2_cos2 (bearingDeg * DEG)) as H3.
  pose proof (COS_bound (bearingDeg * DEG)) as Bc. unfold Rsqr in *.
  set (S := sin (latDeg * DEG)) in *. set (C := cos (latDeg * DEG)) in *.
  set (sd := sin (radiusDeg * DEG)) in *. set (cd := cos (radiusDeg * DEG)) in *.
  set (sb := sin (bearingDeg * DEG)) in *. set (cb := cos (bearingDeg * DEG)) in *.
  set (s2 := S * cd + C * sd * cb).
  assert (B2 : -1 <= s2 <= 1) by (apply destination_sine_bound; assumption).
  rewrite clamp_inside by exact B2.
  rewrite RAD_DEG. rewrite sin_asin by exact B2.
  pose proof (asin_bound s2) as [A0 A1].
  pose proof (cos_ge_0 _ A0 A1) as C2.
  pose proof (sin2_cos2 (asin s2)) as H4. unfold Rsqr in H4.
  rewrite sin_asin in H4 by exact B2.
  set (c2 := cos (asin s2)) in *.
  set (y := sb * sd * C). set (x := cd - S * s2).
  destruct (normalize180_congruent ((lonDeg * DEG + JsNum.atan2 y x) * RAD)) as [k Hk].
  assert (K : congruent360
                (normalize180 ((lonDeg * DEG + JsNum.atan2 y x) * RAD) - lonDeg)
                (JsNum.atan2 y x * RAD)).
  { exists k. rewrite Hk, Rmult_plus_distr_r, DEG_RAD. ring. }
  apply congruent360_sin_cos in K. destruct K as [_ K]. rewrite K, RAD_DEG.
  destruct (atan2_hypot y x) as [Hc _].
  set (u := C * cd - S * sd * cb).
  assert (Hx : x = C * u).
  { unfold x, u, s2.
    transitivity (cd * (S * S + C * C) - S * (S * cd + C * sd * cb)); [rewrite H1; ring | ring]. }
  assert (U : u * u + sb * sd * (sb * sd) + s2 * s2 = 1).
  { unfold u, s2.
    transitivity ((S * S + C * C) * (cd * cd + sd * sd * (cb * cb))
                  + sd * sd * (sb * sb)); [ring|].
    rewrite H1. transitivity (sd * sd * (sb * sb + cb * cb) + cd * cd); [ring|].
    rewrite H3. lra. }
  assert (R : JsMath.hypot2 x y = C * c2).
  { unfold JsMath.hypot2.
    replace (x * x + y * y) with ((C * c2) * (C * c2)).
    - apply sqrt_square. apply Rmult_le_pos; assumption.
    - rewrite Hx. unfold y.
      transitivity (C * C * (c2 * c2)); [ring|].
      replace (c2 * c2) with (u * u + sb * sd * (sb * sd)) by lra. ring. }
  rewrite R in Hc.
  replace (C * c2 * cos (JsNum.atan2 y x)) with x by (symmetry; exact Hc).
  unfold x. ring.
Qed.

(** X26: [sphericalDestination] from a centre of latitude within [-90, 90].
    The destination has latitude in [-90, 90] and longitude in [-180, 180];
    by the spherical law of cosines its central angle from the centre is the
    requested radius, for every bearing; and for a radius in [0, 180],
    [sphericalSeparationDeg] of the centre and the destination returns that
    radius. *)
Theorem sphericalDestination_at_radius (latDeg lonDeg radiusDeg bearingDeg : R) :
  -90 <= latDeg <= 90 ->
  let p := sphericalDestination latDeg lonDeg radiusDeg bearingDeg in
  -90 <= Point.lat p <= 90 /\
  -180 <= Point.lon p <= 180 /\
  sin (latDeg * DEG) * sin (Point.lat p * DEG) +
  cos (latDeg * DEG) * cos (Point.lat p * DEG) * cos ((Point.lon p - lonDeg) * DEG)
  = cos (radiusDeg * DEG) /\
  (0 <= radiusDeg <= 180 ->
   sphericalSeparationDeg lonDeg latDeg (Point.lon p) (Point.lat p) = radiusDeg).
Proof.
  intros Hlat p.
  pose proof (sphericalDestination_cosine latDeg lonDeg radiusDeg bearingDeg Hlat) as E.
  cbv zeta in E. fold p in E.
  split; [apply asin_degrees_range|].
  split; [apply normalize180_range|].
  split; [exact E|].
  intros Hr. unfold sphericalSeparationDeg. cbv zeta.
  replace (lonDeg * DEG - Point.lon p * DEG) with (- ((Point.lon p - lonDeg) * DEG)) by ring.
  rewrite cos_neg, E.
  pose proof (COS_bound (radiusDeg * DEG)) as B.
  rewrite clamp_inside by exact B.
  pose proof PI_RGT_0 as HP.
  rewrite acos_cos by (unfold DEG; split; nra).
  apply DEG_RAD.
Qed.

Lemma sphericalDestination_at_radius_witness :
  let p := sphericalDestination 0 0 0 0 in
  -90 <= Point.lat p <= 90 /\
  -180 <= Point.lon p <= 180 /\
  sin (0 * DEG) * sin (Point.lat p * DEG) +
  cos (0 * DEG) * cos (Point.lat p * DEG) * cos ((Point.lon p - 0) * DEG)
  = cos (0 * DEG) /\
  (0 <= 0 <= 180 ->
   sphericalSeparationDeg 0 0 (Point.lon p) (Point.lat p) = 0).
Proof. apply (sphericalDestination_at_radius 0 0 0 0). lra. Defined.

Lemma topocentricEnu_dot (v : Vec.t) (latDeg lonDeg : R) :
  dotVector (topocentricEnu v latDeg lonDeg) (topocentricEnu v latDeg lonDeg)
  = dotVector v v.
Proof.
  unfold topocentricEnu, dotVector. cbv zeta. cbn [Vec.x Vec.y Vec.z].
  pose proof (sin2_cos2 (latDeg * DEG)) as H1.
  pose proof (sin2_cos2 (lonDeg * DEG)) as H2. unfold Rsqr in *.
  set (sl := sin (latDeg * DEG)) in *. set (cl := cos (latDeg * DEG)) in *.
  set (sL := sin (lonDeg * DEG)) in *. set (cL := cos (lonDeg * DEG)) in *.
  destruct v as [x y z]. cbn [Vec.x Vec.y Vec.z].
  transitivity (x * x * (sL * sL + cL * cL * (sl * sl + cl * cl))
                + y * y * (cL * cL + sL * sL * (sl * sl + cl * cl))
                + z * z * (sl * sl + cl * cl)
                + 2 * x * y * sL * cL * ((sl * sl + cl * cl) - 1)); [ring|].
  rewrite H1.
  transitivity (x * x * (sL * sL + cL * cL) + y * y * (sL * sL + cL * cL) + z * z); [ring|].
  rewrite H2. ring.
Qed.

Lemma topocentricHorizontalFromEcef_eq (v : Vec.t) (latDeg lonDeg : R) :
  let enu := topocentricEnu v latDeg lonDeg in
  topocentricHorizontalFromEcef v latDeg lonDeg =
  Horizontal.mk
    (JsNum.atan2 (Vec.z enu) (Rmax 1e-12 (JsMath.hypot2 (Vec.x enu) (Vec.y enu))) * RAD)
    (normalize360 (JsNum.atan2 (Vec.x enu) (Vec.y enu) * RAD)).
Proof. reflexivity. Qed.

Lemma atan2_right (y x : R) : 0 < x -> - (PI / 2) < JsNum.atan2 y x < PI / 2.
Proof.
  intros H. unfold JsNum.atan2. destruct (Rlt_dec 0 x); [|lra].
  pose proof (atan_bound (y / x)). lra.
Qed.

Lemma hypot2_nonneg (a b : R) : 0 <= JsMath.hypot2 a b.
Proof. apply sqrt_pos. Qed.

Lemma hypot2_sqr (a b : R) : JsMath.hypot2 a b * JsMath.hypot2 a b = a * a + b * b.
Proof. apply sqrt_sqrt. nra. Qed.

Lemma hypot2_comm (a b : R) : JsMath.hypot2 a b = JsMath.hypot2 b a.
Proof. unfold JsMath.hypot2. f_equal. ring. Qed.

Lemma topocentric_altitude_range (v : Vec.t) (latDeg lonDeg : R) :
  -90 < Horizontal.altitude (topocentricHorizontalFromEcef v latDeg lonDeg) < 90.
Proof.
  rewrite topocentricHorizontalFromEcef_eq. cbv zeta. cbn [Horizontal.altitude].
  set (up := Vec.z _). set (hn := Rmax 1e-12 _).
  assert (P : 0 < hn) by (unfold hn, Rmax; destruct (Rle_dec _ _); lra).
  pose proof (atan2_right up hn P) as [L U]. pose proof RAD_pos as RP.
  assert (E : PI / 2 * RAD = 90) by (unfold RAD; field; apply PI_neq0).
  assert (E' : - (PI / 2) * RAD = -90) by (unfold RAD; field; apply PI_neq0).
  rewrite <- E, <- E'. split; apply Rmult_lt_compat_r; lra.
Qed.


Lemma earthFixedObserverVector_magnitude (latDeg lonDeg radiusKm : R) :
  0 <= radiusKm ->
  magnitudeVector (earthFixedObserverVector latDeg lonDeg radiusKm) = radiusKm.
Proof.
  intros Hr. apply magnitudeVector_of_dot; [exact Hr|].
  unfold earthFixedObserverVector, dotVector. cbv zeta. cbn [Vec.x Vec.y Vec.z].
  pose proof (sin2_cos2 (latDeg * DEG)) as H1.
  pose proof (sin2_cos2 (lonDeg * DEG)) as H2. unfold Rsqr in *.
  set (sl := sin (latDeg * DEG)) in *. set (cl := cos (latDeg * DEG)) in *.
  set (sL := sin (lonDeg * DEG)) in *. set (cL := cos (lonDeg * DEG)) in *.
  transitivity (radiusKm * radiusKm * (cl * cl * (sL * sL + cL * cL) + sl * sl)); [ring|].
  rewrite H2. transitivity (radiusKm * radiusKm * (sl * sl + cl * cl)); [ring|].
  rewrite H1. ring.
Qed.

(** The apparent radius seen from a site on the Earth's surface: the distance
    of the body changes by at most the Earth's radius. *)
Lemma topocentric_radius (r D eps : R) (body observer : Vec.t) :
  0 < r -> 0 < eps < 1 ->
  magnitudeVector body = D -> magnitudeVector observer = 6371 ->
  6371 * (1 + eps) <= eps * D ->
  let L := vectorLength (subtractVector body observer) in
  (1 - eps) * r <= r * (D / Rmax 1 L) <= (1 + eps) * r.
Proof.
  intros Hr He HD HO Hb L.
  assert (T : D - 6371 <= L <= D + 6371).
  { unfold L. rewrite vectorLength_magnitude, <- HD, <- HO.
    apply subtractVector_triangle. rewrite HD, HO. nra. }
  assert (P : 1 <= L) by nra.
  rewrite Rmax_right by exact P.
  assert (Q : 1 - eps <= D / L <= 1 + eps).
  { split.
    - apply Rmult_le_reg_r with L; [lra|]. unfold Rdiv. rewrite Rmult_assoc, Rinv_l by lra. nra.
    - apply Rmult_le_reg_r with L; [lra|]. unfold Rdiv. rewrite Rmult_assoc, Rinv_l by lra. nra. }
  set (q := D / L) in *. split; nra.
Qed.


Lemma terminatorStep_range (dec h lat : R) :
  - PI / 2 + 1e-4 <= terminatorStep dec h lat <= PI / 2 - 1e-4.
Proof.
  unfold terminatorStep. cbv zeta. apply clamp_range. pose proof PI2_1. lra.
Qed.

Lemma terminatorLoop_range (steps : nat) (dec h lat : R) :
  - PI / 2 + 1e-4 <= lat <= PI / 2 - 1e-4 ->
  - PI / 2 + 1e-4 <= terminatorLoop steps dec h lat <= PI / 2 - 1e-4.
Proof.
  revert lat. induction steps as [|steps IH]; intros lat H; cbn [terminatorLoop].
  - exact H.
  - apply IH, terminatorStep_range.
Qed.

Lemma terminatorStep_fixed (dec h lat : R) :
  - PI / 2 + 1e-4 <= lat <= PI / 2 - 1e-4 ->
  sin lat * sin dec + cos lat * cos dec * cos h = 0 ->
  terminatorStep dec h lat = lat.
Proof.
  intros H F. unfold terminatorStep. cbv zeta. rewrite F.
  unfold Rdiv. rewrite Rmult_0_l, Rminus_0_r. apply clamp_inside. exact H.
Qed.

Lemma terminatorLoop_fixed (steps : nat) (dec h lat : R) :
  - PI / 2 + 1e-4 <= lat <= PI / 2 - 1e-4 ->
  sin lat * sin dec + cos lat * cos dec * cos h = 0 ->
  terminatorLoop steps dec h lat = lat.
Proof.
  intros H F. induction steps as [|steps IH]; cbn [terminatorLoop]; [reflexivity|].
  rewrite terminatorStep_fixed by assumption. exact IH.
Qed.

(** X29: [solveTerminatorLat].  With the Sun within 1e-6 (in cosine) of a
    pole it returns the opposite of the sub-solar latitude.  Otherwise the
    result lies strictly between -90 and 90, and it is 0 at a longitude a
    quarter turn from the sub-solar one.  A latitude at which the altitude
    of the Sun is 0 is left unchanged by any number of Newton steps. *)
Theorem solveTerminatorLat_properties (lonDeg subSolarLatDeg subSolarLonDeg : R) :
  (Rabs (cos (subSolarLatDeg * DEG)) < 1e-6 ->
   solveTerminatorLat lonDeg subSolarLatDeg subSolarLonDeg = - subSolarLatDeg) /\
  (1e-6 <= Rabs (cos (subSolarLatDeg * DEG)) ->
   -90 < solveTerminatorLat lonDeg subSolarLatDeg subSolarLonDeg < 90 /\
   (cos (normalize180 (lonDeg - subSolarLonDeg) * DEG) = 0 ->
    solveTerminatorLat lonDeg subSolarLatDeg subSolarLonDeg = 0)) /\
  (forall (steps : nat) (dec h lat : R),
     - PI / 2 + 1e-4 <= lat <= PI / 2 - 1e-4 ->
     sin lat * sin dec + cos lat * cos dec * cos h = 0 ->
     terminatorLoop steps dec h lat = lat).
Proof.
  pose proof PI2_1 as HP. pose proof RAD_pos as RP.
  assert (Z : - PI / 2 + 1e-4 <= 0 <= PI / 2 - 1e-4) by lra.
  split; [|split].
  - intros H. unfold solveTerminatorLat. cbv zeta.
    apply ltb_true in H. rewrite H. reflexivity.
  - intros H. unfold solveTerminatorLat. cbv zeta.
    apply ltb_false in H. rewrite H. split.
    + pose proof (terminatorLoop_range 8 (subSolarLatDeg * DEG)
                    (normalize180 (lonDeg - subSolarLonDeg) * DEG) 0 Z) as [L U].
      assert (E : PI / 2 * RAD = 90) by (unfold RAD; field; apply PI_neq0).
      set (lat := terminatorLoop _ _ _ _) in *.
      assert (L' : (- PI / 2 + 1e-4) * RAD <= lat * RAD) by (apply Rmult_le_compat_r; lra).
      assert (U' : lat * RAD <= (PI / 2 - 1e-4) * RAD) by (apply Rmult_le_compat_r; lra).
      split; nra.
    + intros C. rewrite terminatorLoop_fixed; [ring | exact Z|].
      rewrite C, sin_0. ring.
  - intros steps dec h lat. apply terminatorLoop_fixed.
Qed.

(** ** The speed slider *)

Lemma ln_10_pos : 0 < ln 10.
Proof. rewrite <- ln_1. apply ln_increasing; lra. Qed.

Lemma log10_SPEED_MIN : JsMath.log10 SPEED_MIN = 0.
Proof. unfold JsMath.log10, SPEED_MIN. rewrite ln_1. unfold Rdiv. ring. Qed.

Lemma log10_SPEED_MAX : JsMath.log10 SPEED_MAX = 7.
Proof.
  unfold JsMath.log10, SPEED_MAX. pose proof ln_10_pos.
  replace 10000000 with (10 ^ 7) by (simpl; ring).
  rewrite ln_pow by lra. simpl INR. field. lra.
Qed.

Lemma ln_le (x y : R) : 0 < x -> x <= y -> ln x <= ln y.
Proof.
  intros Hx [H| ->]; [left; apply ln_increasing; assumption | lra].
Qed.

Lemma log10_range (x : R) : 1 <= x <= 10000000 -> 0 <= JsMath.log10 x <= 7.
Proof.
  intros [L U]. pose proof ln_10_pos as P.
  pose proof (ln_le 1 x ltac:(lra) L) as A. rewrite ln_1 in A.
  pose proof (ln_le x 10000000 ltac:(lra) U) as B.
  pose proof log10_SPEED_MAX as M. unfold JsMath.log10, SPEED_MAX in M.
  assert (M' : ln 10000000 = 7 * ln 10).
  { apply Rmult_eq_reg_r with (/ ln 10).
    - rewrite Rmult_assoc, Rinv_r by lra. unfold Rdiv in M. lra.
    - apply Rinv_neq_0_compat. lra. }
  unfold JsMath.log10. split.
  - apply Rmult_le_pos; [exact A | left; apply Rinv_0_lt_compat; exact P].
  - apply Rmult_le_reg_r with (ln 10); [exact P|].
    unfold Rdiv. rewrite Rmult_assoc, Rinv_l by lra. lra.
Qed.

Lemma pow10_log10 (x : R) : 0 < x -> JsMath.pow10 (JsMath.log10 x) = x.
Proof.
  intros H. unfold JsMath.pow10, JsMath.log10, Rpower. pose proof ln_10_pos.
  replace (ln x / ln 10 * ln 10) with (ln x) by (field; lra).
  apply exp_ln. exact H.
Qed.

Lemma pow10_range (v : R) : 0 <= v <= 7 -> 1 <= JsMath.pow10 v <= 10000000.
Proof.
  intros [L U]. unfold JsMath.pow10. split.
  - rewrite <- (Rpower_O 10) by lra. apply Rle_Rpower; lra.
  - replace 10000000 with (10 ^ 7) by (simpl; ring).
    rewrite <- Rpower_pow by lra. apply Rle_Rpower; [lra|]. simpl INR. lra.
Qed.

Lemma round_integer (n : Z) : JsMath.round (IZR n) = IZR n.
Proof.
  unfold JsMath.round. f_equal. symmetry. apply Int_part_spec. lra.
Qed.

Lemma round_range (y : R) (lo hi : Z) :
  IZR lo <= y <= IZR hi ->
  exists k : Z, JsMath.round y = IZR k /\ (lo <= k <= hi)%Z.
Proof.
  intros [L U]. unfold JsMath.round. exists (Int_part (y + 0.5)). split; [reflexivity|].
  destruct (base_Int_part (y + 0.5)) as [A B]. split.
  - apply Z.lt_succ_r, Z.succ_lt_mono, lt_IZR. rewrite !succ_IZR. lra.
  - apply Z.lt_succ_r, lt_IZR. rewrite succ_IZR. lra.
Qed.

Lemma sliderToSpeed_eq (sliderValue : R) :
  sliderToSpeed sliderValue =
  Rmax 1 (JsMath.round (JsMath.pow10 (clamp sliderValue 0 100 / 100 * 7))).
Proof.
  unfold sliderToSpeed. cbv zeta. rewrite log10_SPEED_MIN, log10_SPEED_MAX.
  do 3 f_equal. ring.
Qed.

Lemma speedToSlider_eq (speed : R) :
  speedToSlider speed = JsMath.log10 (clamp speed 1 10000000) / 7 * 100.
Proof.
  unfold speedToSlider. cbv zeta. rewrite log10_SPEED_MIN, log10_SPEED_MAX.
  unfold SPEED_MIN, SPEED_MAX. f_equal. f_equal; ring.
Qed.

(** X30: the speed slider.  [speedToSlider] maps every speed into [0, 100],
    the speeds up to 1 to 0 and those from 10000000 on to 100;
    [sliderToSpeed] returns a whole number between 1 and 10000000 for every
    slider value; and a whole speed between 1 and 10000000 is recovered from
    its own slider position. *)
Theorem speed_slider :
  (forall speed : R,
     0 <= speedToSlider speed <= 100 /\
     (speed <= 1 -> speedToSlider speed = 0) /\
     (10000000 <= speed -> speedToSlider speed = 100)) /\
  (forall sliderValue : R,
     exists k : Z, sliderToSpeed sliderValue = IZR k /\ (1 <= k <= 10000000)%Z) /\
  (forall n : Z,
     (1 <= n <= 10000000)%Z -> sliderToSpeed (speedToSlider (IZR n)) = IZR n).
Proof.
  split; [|split].
  - intros speed. rewrite speedToSlider_eq.
    pose proof (clamp_range speed 1 10000000 ltac:(lra)) as C.
    pose proof (log10_range _ C) as L.
    split; [lra|]. split; intros H.
    + replace (clamp speed 1 10000000) with 1
        by (unfold clamp, Rmax, Rmin; destruct (Rle_dec 10000000 speed);
            destruct (Rle_dec 1 _); lra).
      pose proof log10_SPEED_MIN as M. unfold SPEED_MIN in M. rewrite M. lra.
    + replace (clamp speed 1 10000000) with 10000000
        by (unfold clamp, Rmax, Rmin; destruct (Rle_dec 10000000 speed);
            destruct (Rle_dec 1 _); lra).
      pose proof log10_SPEED_MAX as M. unfold SPEED_MAX in M. rewrite M. lra.
  - intros v. rewrite sliderToSpeed_eq.
    pose proof (clamp_range v 0 100 ltac:(lra)) as C.
    pose proof (pow10_range (clamp v 0 100 / 100 * 7) ltac:(lra)) as P.
    destruct (round_range _ 1 10000000 P) as [k [E K]].
    exists k. rewrite E. split; [|exact K].
    apply Rmax_right. apply IZR_le. lia.
  - intros n Hn.
    assert (B : 1 <= IZR n <= 10000000) by (split; apply IZR_le; lia).
    rewrite sliderToSpeed_eq, speedToSlider_eq.
    rewrite (clamp_inside (IZR n)) by exact B.
    pose proof (log10_range _ B) as L.
    rewrite clamp_inside by lra.
    replace (JsMath.log10 (IZR n) / 7 * 100 / 100 * 7) with (JsMath.log10 (IZR n)) by field.
    rewrite pow10_log10 by lra. rewrite round_integer. apply Rmax_right. lra.
Qed.

(** * Double precision: what rounding decides *)

(** ** Evaluations in binary64 *)

Lemma toR_finite (s : bool) (m : positive) (e : Z) :
  B64.toR (S754_finite s m e) = IZR (cond_Zopp s (Zpos m)) * powerRZ 2 e.
Proof. reflexivity. Qed.

Lemma not_withinMod360 (tol a b : R) :
  tol < 1 -> 0 <= a <= 360 -> 0 <= b <= 360 ->
  tol < Rabs (a - b) -> Rabs (a - b) < 359 -> ~ withinMod360 tol a b.
Proof.
  intros Ht Ha Hb Hlo Hhi [k Hk].
  unfold Rabs in *.
  destruct (Z_lt_le_dec k 0) as [N|P].
  - assert (IZR k <= -1) by (apply IZR_le; lia).
    destruct (Rcase_abs (a - b)); destruct (Rcase_abs (a - b - 360 * IZR k)); lra.
  - destruct (Z_le_lt_eq_dec 0 k P) as [Q|<-].
    + assert (1 <= IZR k) by (apply IZR_le; lia).
      destruct (Rcase_abs (a - b)); destruct (Rcase_abs (a - b - 360 * IZR k)); lra.
    + destruct (Rcase_abs (a - b)); destruct (Rcase_abs (a - b - 360 * 0)); lra.
Qed.

(** C3, as stated, fails in double precision: from an Earth rotation of 90.1
    degrees, 2e9 hours forward and 2e9 hours back (both dates are valid) give
    0x1.686666p+6 = 90.0999984741211, more than 1e-6 away from 90.1 modulo
    360. *)
Lemma deriveSimulationState_round_trip_double :
  let h := B64.ofZ 2000000000 in
  let forward := B64.deriveSimulationState roundTripBase h (B64.ofZ 0) in
  let back :=
    B64.deriveSimulationState (B64.State.asParams forward) (B64.opp h) (B64.ofZ 0) in
  B64.isFinite (B64.State.date forward) = true /\
  B64.isFinite (B64.State.date back) = true /\
  B64.State.earthRotation back = S754_finite false 6340223743033344 (-46) /\
  ~ withinMod360 1e-6 (B64.toR (B64.State.earthRotation back))
                      (B64.toR (B64.Params.earthRotation roundTripBase)).
Proof.
  intros h forward back.
  assert (E : B64.State.earthRotation back = S754_finite false 6340223743033344 (-46))
    by (vm_compute; reflexivity).
  assert (B : B64.Params.earthRotation roundTripBase
              = S754_finite false 6340223850407526 (-46)) by (vm_compute; reflexivity).
  split; [vm_compute; reflexivity|]. split; [vm_compute; reflexivity|].
  split; [exact E|].
  rewrite E, B, !toR_finite. cbn [cond_Zopp].
  replace (powerRZ 2 (-46)) with (/ 70368744177664)
    by (unfold powerRZ; cbn [Pos.to_nat Pos.iter_op Nat.add]; f_equal; simpl; lra).
  apply not_withinMod360; unfold Rabs;
    try destruct (Rcase_abs _); lra.
Qed.

(** ** Arithmetic under rounding *)

Lemma Fl_u_bounds : 0 < Fl.u <= 1.2e-16.
Proof. unfold Fl.u. split; [apply Rinv_0_lt_compat; lra|]. lra. Qed.

Lemma Fl_eta_bounds : 0 < Fl.eta <= 1e-300.
Proof.
  unfold Fl.eta. split.
  - apply Rinv_0_lt_compat, IZR_lt. reflexivity.
  - replace 1e-300 with (/ IZR (10 ^ 300)) by (cbv [Z.pow Z.pow_pos Pos.iter]; lra).
    apply Rinv_le_contravar; [apply IZR_lt; reflexivity | apply IZR_le].
    vm_compute. discriminate.
Qed.

Lemma rnd_0 (fl : Fl.rounding) : Fl.rnd fl 0 = 0.
Proof. apply (Fl.rnd_integer fl 0). vm_compute. discriminate. Qed.

Lemma rnd_360 (fl : Fl.rounding) : Fl.rnd fl 360 = 360.
Proof. apply (Fl.rnd_integer fl 360). vm_compute. discriminate. Qed.

Lemma rnd_180 (fl : Fl.rounding) : Fl.rnd fl 180 = 180.
Proof. apply (Fl.rnd_integer fl 180). vm_compute. discriminate. Qed.

Lemma rnd_minus180 (fl : Fl.rounding) : Fl.rnd fl (-180) = -180.
Proof. apply (Fl.rnd_integer fl (-180)). vm_compute. discriminate. Qed.

(** A rounded number of moderate size is within [2e-16] of it, relatively. *)
Lemma rnd_near (fl : Fl.rounding) (x b : R) :
  Rabs x <= b -> b <= 1e200 ->
  Rabs (Fl.rnd fl x - x) <= 1.2e-16 * b + 1e-300.
Proof.
  intros Hx Hb. pose proof Fl_u_bounds as U. pose proof Fl_eta_bounds as E.
  pose proof (Rabs_pos x) as P.
  assert (O : Rabs x <= Fl.omega) by (unfold Fl.omega; lra).
  pose proof (Fl.rnd_error fl x O) as R.
  assert (Fl.u * Rabs x <= 1.2e-16 * b) by (apply Rmult_le_compat; lra).
  lra.
Qed.

Lemma rnd_abs_bound (fl : Fl.rounding) (x b : R) :
  Rabs x <= b -> b <= 1e200 -> Rabs (Fl.rnd fl x) <= b + (1.2e-16 * b + 1e-300).
Proof.
  intros Hx Hb. pose proof (rnd_near fl x b Hx Hb) as N.
  unfold Rabs in *. destruct (Rcase_abs x); destruct (Rcase_abs (Fl.rnd fl x));
    destruct (Rcase_abs (Fl.rnd fl x - x)); lra.
Qed.

Lemma Fl_normalize360_range (fl : Fl.rounding) (x : R) :
  0 <= Fl.normalize360 fl x <= 360.
Proof.
  unfold Fl.normalize360. cbv zeta. pose proof (rem360_range x) as B.
  destruct (x %% 360 <? 0) eqn:E.
  - apply ltb_true in E.
    pose proof (Fl.rnd_monotone fl 0 (x %% 360 + 360) ltac:(lra)) as L.
    pose proof (Fl.rnd_monotone fl (x %% 360 + 360) 360 ltac:(lra)) as U.
    rewrite (rnd_0 fl) in L. rewrite (rnd_360 fl) in U. lra.
  - apply ltb_false in E. lra.
Qed.

Lemma rnd_between (fl : Fl.rounding) (lo hi : Z) (w : R) :
  (Z.abs lo <= 9007199254740992)%Z -> (Z.abs hi <= 9007199254740992)%Z ->
  IZR lo <= w <= IZR hi -> IZR lo <= Fl.rnd fl w <= IZR hi.
Proof.
  intros Hl Hh [L U].
  pose proof (Fl.rnd_monotone fl _ _ L) as A. pose proof (Fl.rnd_monotone fl _ _ U) as B.
  rewrite (Fl.rnd_integer fl lo Hl) in A. rewrite (Fl.rnd_integer fl hi Hh) in B. lra.
Qed.

Lemma Fl_normalize180_range (fl : Fl.rounding) (x : R) :
  -180 <= Fl.normalize180 fl x <= 180.
Proof.
  unfold Fl.normalize180. cbv zeta. pose proof (rem360_range x) as B.
  destruct (x %% 360 >? 180) eqn:E.
  - apply gtb_true in E.
    assert (R : -180 <= Fl.rnd fl (x %% 360 - 360) <= 0)
      by (apply (rnd_between fl (-180) 0); [vm_compute; discriminate.. | lra]).
    destruct (_ <? -180) eqn:F; [apply ltb_true in F; lra | lra].
  - apply gtb_false in E.
    destruct (x %% 360 <? -180) eqn:F.
    + apply ltb_true in F.
      assert (R : 0 <= Fl.rnd fl (x %% 360 + 360) <= 180)
        by (apply (rnd_between fl 0 180); [vm_compute; discriminate.. | lra]).
      lra.
    + apply ltb_false in F. lra.
Qed.

Lemma withinMod360_refl (a : R) : withinMod360 0 a a.
Proof. exists 0%Z. replace (a - a - 360 * 0) with 0 by ring. rewrite Rabs_R0. lra. Qed.

Lemma withinMod360_weaken (e e' a b : R) :
  e <= e' -> withinMod360 e a b -> withinMod360 e' a b.
Proof. intros H [k Hk]. exists k. lra. Qed.

Lemma withinMod360_trans (e1 e2 a b c : R) :
  withinMod360 e1 a b -> withinMod360 e2 b c -> withinMod360 (e1 + e2) a c.
Proof.
  intros [k Hk] [l Hl]. exists (k + l)%Z. rewrite plus_IZR.
  replace (a - c - 360 * (IZR k + IZR l))
    with ((a - b - 360 * IZR k) + (b - c - 360 * IZR l)) by ring.
  eapply Rle_trans; [apply Rabs_triang|]. lra.
Qed.

Lemma withinMod360_sym (e a b : R) : withinMod360 e a b -> withinMod360 e b a.
Proof.
  intros [k Hk]. exists (- k)%Z. rewrite opp_IZR.
  replace (b - a - 360 * - IZR k) with (- (a - b - 360 * IZR k)) by ring.
  rewrite Rabs_Ropp. exact Hk.
Qed.

Lemma withinMod360_near (e a b : R) : Rabs (a - b) <= e -> withinMod360 e a b.
Proof. intros H. exists 0%Z. replace (a - b - 360 * 0) with (a - b) by ring. exact H. Qed.

Lemma withinMod360_congruent (a b : R) : congruent360 a b -> withinMod360 0 a b.
Proof.
  intros [k ->]. exists k. replace (b + 360 * IZR k - b - 360 * IZR k) with 0 by ring.
  rewrite Rabs_R0. lra.
Qed.

Lemma rnd_withinMod360 (fl : Fl.rounding) (w : R) (k : Z) :
  Rabs w <= 360 -> withinMod360 4.4e-14 (Fl.rnd fl w) (w - 360 * IZR k).
Proof.
  intros Hw. pose proof (rnd_near fl w 360 Hw ltac:(lra)) as N.
  exists k.
  replace (Fl.rnd fl w - (w - 360 * IZR k) - 360 * IZR k) with (Fl.rnd fl w - w) by ring.
  lra.
Qed.

Lemma Fl_normalize360_near (fl : Fl.rounding) (x : R) :
  withinMod360 4.4e-14 (Fl.normalize360 fl x) x.
Proof.
  unfold Fl.normalize360. cbv zeta. pose proof (rem360_range x) as B.
  pose proof (withinMod360_congruent _ _ (rem360_congruent x)) as C.
  destruct (x %% 360 <? 0) eqn:E.
  - apply ltb_true in E.
    apply withinMod360_weaken with (4.4e-14 + 0); [lra|].
    eapply withinMod360_trans; [|exact C].
    pose proof (rnd_withinMod360 fl (x %% 360 + 360) 1%Z) as S.
    replace (x %% 360 + 360 - 360 * 1) with (x %% 360) in S by ring.
    apply S. unfold Rabs. destruct (Rcase_abs _); lra.
  - apply withinMod360_weaken with 0; [lra | exact C].
Qed.

Lemma Fl_normalize180_near (fl : Fl.rounding) (x : R) :
  withinMod360 4.4e-14 (Fl.normalize180 fl x) x.
Proof.
  unfold Fl.normalize180. cbv zeta. pose proof (rem360_range x) as B.
  pose proof (withinMod360_congruent _ _ (rem360_congruent x)) as C.
  pose proof (rnd_withinMod360 fl) as S.
  destruct (x %% 360 >? 180) eqn:E.
  - apply gtb_true in E.
    assert (R : -180 <= Fl.rnd fl (x %% 360 - 360) <= 0)
      by (apply (rnd_between fl (-180) 0); [vm_compute; discriminate.. | lra]).
    replace (_ <? -180) with false by (symmetry; apply ltb_false; lra).
    apply withinMod360_weaken with (4.4e-14 + 0); [lra|].
    eapply withinMod360_trans; [|exact C].
    specialize (S (x %% 360 - 360) (-1)%Z).
    replace (x %% 360 - 360 - 360 * -1) with (x %% 360) in S by ring.
    apply S. unfold Rabs. destruct (Rcase_abs _); lra.
  - apply gtb_false in E.
    destruct (x %% 360 <? -180) eqn:F.
    + apply ltb_true in F.
      apply withinMod360_weaken with (4.4e-14 + 0); [lra|].
      eapply withinMod360_trans; [|exact C].
      specialize (S (x %% 360 + 360) 1%Z).
      replace (x %% 360 + 360 - 360 * 1) with (x %% 360) in S by ring.
      apply S. unfold Rabs. destruct (Rcase_abs _); lra.
    + apply withinMod360_weaken with 0; [lra | exact C].
Qed.

Lemma Rabs_le_iff (x b : R) : Rabs x <= b <-> - b <= x <= b.
Proof. unfold Rabs. destruct (Rcase_abs x); split; lra. Qed.

(** A constant of the code, once rounded, is within 1e-12 of itself. *)
Lemma rnd_constant (fl : Fl.rounding) (x : R) :
  Rabs x <= 1000 -> Rabs (Fl.rnd fl x - x) <= 1e-12.
Proof. intros H. pose proof (rnd_near fl x 1000 H ltac:(lra)). lra. Qed.

Lemma rnd_moderate (fl : Fl.rounding) (x : R) :
  Rabs x <= 1e9 -> Rabs (Fl.rnd fl x - x) <= 1e-6.
Proof. intros H. pose proof (rnd_near fl x 1e9 H ltac:(lra)). lra. Qed.

Lemma quotient_bounds (n x lo hi : R) :
  0 < n -> 0 < lo -> lo <= x <= hi -> n / hi <= n / x <= n / lo.
Proof.
  intros Hn Hlo [L U]. unfold Rdiv. split; apply Rmult_le_compat_l; try lra;
    apply Rinv_le_contravar; lra.
Qed.

Lemma Fl_EARTH_bound (fl : Fl.rounding) : Rabs (Fl.EARTH_ROT_DEG_PER_HOUR fl) <= 16.
Proof.
  unfold Fl.EARTH_ROT_DEG_PER_HOUR.
  pose proof (rnd_constant fl 15.041067) as C. rewrite !Rabs_le_iff in *. lra.
Qed.

Lemma Fl_ANOMALY_bound (fl : Fl.rounding) : Rabs (Fl.MOON_ANOMALY_DEG_PER_HOUR fl) <= 16.
Proof.
  unfold Fl.MOON_ANOMALY_DEG_PER_HOUR.
  pose proof (rnd_constant fl 0.549) as C. rewrite !Rabs_le_iff in *. lra.
Qed.

Lemma Fl_SUN_range (fl : Fl.rounding) : 0.04 <= Fl.SUN_ECLIPTIC_DEG_PER_HOUR fl <= 0.042.
Proof.
  unfold Fl.SUN_ECLIPTIC_DEG_PER_HOUR.
  pose proof (rnd_constant fl 365.2422) as A. rewrite !Rabs_le_iff in A.
  set (y := Fl.rnd fl 365.2422) in *.
  pose proof (rnd_moderate fl (y * 24)) as B. rewrite !Rabs_le_iff in B.
  set (z := Fl.rnd fl (y * 24)) in *.
  assert (Z : 8765 <= z <= 8766) by lra.
  pose proof (quotient_bounds 360 z 8765 8766 ltac:(lra) ltac:(lra) Z) as Q.
  assert (Q' : 0.0410 <= 360 / z <= 0.0411) by (unfold Rdiv in *; lra).
  pose proof (rnd_constant fl (360 / z)) as C. rewrite !Rabs_le_iff in C. lra.
Qed.

Lemma Fl_MOON_range (fl : Fl.rounding) : 0.549 <= Fl.MOON_ECLIPTIC_DEG_PER_HOUR fl <= 0.5491.
Proof.
  unfold Fl.MOON_ECLIPTIC_DEG_PER_HOUR.
  pose proof (rnd_constant fl 13.176358) as A. rewrite !Rabs_le_iff in A.
  set (y := Fl.rnd fl 13.176358) in *.
  pose proof (rnd_constant fl (y / 24)) as C. rewrite !Rabs_le_iff in C.
  unfold Rdiv in *. lra.
Qed.

Lemma Fl_NODE_range (fl : Fl.rounding) :
  -0.00221 <= Fl.NODE_REGRESSION_DEG_PER_HOUR fl <= -0.0022.
Proof.
  unfold Fl.NODE_REGRESSION_DEG_PER_HOUR.
  pose proof (rnd_constant fl 365.2422) as A. rewrite !Rabs_le_iff in A.
  pose proof (rnd_constant fl 18.613) as A'. rewrite !Rabs_le_iff in A'.
  set (y := Fl.rnd fl 365.2422) in *. set (y' := Fl.rnd fl 18.613) in *.
  assert (P : 6798.25 <= y' * y <= 6798.26) by nra.
  pose proof (rnd_moderate fl (y' * y)) as B. rewrite !Rabs_le_iff in B.
  set (w := Fl.rnd fl (y' * y)) in *.
  pose proof (rnd_moderate fl (w * 24)) as B'. rewrite !Rabs_le_iff in B'.
  set (z := Fl.rnd fl (w * 24)) in *.
  assert (Z : 163157 <= z <= 163159) by lra.
  pose proof (quotient_bounds 360 z 163157 163159 ltac:(lra) ltac:(lra) Z) as Q.
  assert (Q' : 0.002205 <= 360 / z <= 0.002207) by (unfold Rdiv in *; lra).
  pose proof (rnd_constant fl (360 / z)) as C. rewrite !Rabs_le_iff in C. lra.
Qed.

Lemma Fl_phase_rate_bound (fl : Fl.rounding) :
  Rabs (Fl.rnd fl (Fl.MOON_ECLIPTIC_DEG_PER_HOUR fl - Fl.NODE_REGRESSION_DEG_PER_HOUR fl))
  <= 16.
Proof.
  pose proof (Fl_MOON_range fl) as M. pose proof (Fl_NODE_range fl) as N.
  assert (X : Rabs (Fl.MOON_ECLIPTIC_DEG_PER_HOUR fl - Fl.NODE_REGRESSION_DEG_PER_HOUR fl)
              <= 1000) by (rewrite Rabs_le_iff; lra).
  pose proof (rnd_constant fl _ X) as C. rewrite !Rabs_le_iff in *. lra.
Qed.

Lemma withinMod360_plus (e a b c : R) :
  withinMod360 e a b -> withinMod360 e (a + c) (b + c).
Proof.
  intros [k Hk]. exists k.
  replace (a + c - (b + c) - 360 * IZR k) with (a - b - 360 * IZR k) by ring. exact Hk.
Qed.

(** One propagated angle: the rounded sum of the base angle and the rounded
    product, then normalised. *)
Lemma Fl_sum_near (fl : Fl.rounding) (a h c : R) :
  Rabs a <= 360 -> Rabs h <= 1e8 -> Rabs c <= 16 ->
  Rabs (Fl.rnd fl (a + Fl.rnd fl (h * c)) - (a + h * c)) <= 4.9e-7.
Proof.
  intros Ha Hh Hc.
  assert (P : Rabs (h * c) <= 1.6e9).
  { rewrite Rabs_mult. replace 1.6e9 with (1e8 * 16) by lra.
    apply Rmult_le_compat; auto using Rabs_pos. }
  pose proof (rnd_near fl (h * c) 1.6e9 P ltac:(lra)) as N1.
  set (p := Fl.rnd fl (h * c)) in *.
  assert (S : Rabs (a + p) <= 1.7e9) by (rewrite !Rabs_le_iff in *; lra).
  pose proof (rnd_near fl (a + p) 1.7e9 S ltac:(lra)) as N2.
  rewrite !Rabs_le_iff in *. lra.
Qed.

Lemma Fl_propagate360 (fl : Fl.rounding) (a h c : R) :
  Rabs a <= 360 -> Rabs h <= 1e8 -> Rabs c <= 16 ->
  withinMod360 4.95e-7 (Fl.normalize360 fl (Fl.rnd fl (a + Fl.rnd fl (h * c)))) (a + h * c).
Proof.
  intros Ha Hh Hc.
  apply withinMod360_weaken with (4.4e-14 + 4.9e-7); [lra|].
  eapply withinMod360_trans; [apply Fl_normalize360_near|].
  apply withinMod360_near, Fl_sum_near; assumption.
Qed.

Lemma Fl_propagate180 (fl : Fl.rounding) (a h c : R) :
  Rabs a <= 360 -> Rabs h <= 1e8 -> Rabs c <= 16 ->
  withinMod360 4.95e-7 (Fl.normalize180 fl (Fl.rnd fl (a + Fl.rnd fl (h * c)))) (a + h * c).
Proof.
  intros Ha Hh Hc.
  apply withinMod360_weaken with (4.4e-14 + 4.9e-7); [lra|].
  eapply withinMod360_trans; [apply Fl_normalize180_near|].
  apply withinMod360_near, Fl_sum_near; assumption.
Qed.

Lemma Fl_round_trip (fl : Fl.rounding) (N : R -> R) (a h c : R) :
  (forall x : R, Rabs (N x) <= 360) ->
  (forall x : R, withinMod360 4.4e-14 (N x) x) ->
  Rabs a <= 360 -> Rabs h <= 1e8 -> Rabs c <= 16 ->
  withinMod360 1e-6
    (N (Fl.rnd fl (N (Fl.rnd fl (a + Fl.rnd fl (h * c))) + Fl.rnd fl (- h * c)))) a.
Proof.
  intros Hr Hn Ha Hh Hc.
  assert (Hh' : Rabs (- h) <= 1e8) by (rewrite Rabs_Ropp; exact Hh).
  assert (S : forall b k : R, Rabs b <= 360 -> Rabs k <= 1e8 ->
              withinMod360 4.95e-7 (N (Fl.rnd fl (b + Fl.rnd fl (k * c)))) (b + k * c)).
  { intros b k Hb Hk.
    apply withinMod360_weaken with (4.4e-14 + 4.9e-7); [lra|].
    eapply withinMod360_trans; [apply Hn|].
    apply withinMod360_near, Fl_sum_near; assumption. }
  set (n1 := N (Fl.rnd fl (a + Fl.rnd fl (h * c)))).
  pose proof (S a h Ha Hh) as S1. fold n1 in S1.
  pose proof (S n1 (- h) (Hr _) Hh') as S2.
  apply (withinMod360_plus _ _ _ (- h * c)) in S1.
  replace (a + h * c + - h * c) with a in S1 by ring.
  apply withinMod360_weaken with (4.95e-7 + 4.95e-7); [lra|].
  eapply withinMod360_trans; [exact S2 | exact S1].
Qed.

Lemma Fl_normalize360_abs (fl : Fl.rounding) (x : R) : Rabs (Fl.normalize360 fl x) <= 360.
Proof. pose proof (Fl_normalize360_range fl x). rewrite Rabs_le_iff. lra. Qed.

Lemma Fl_normalize180_abs (fl : Fl.rounding) (x : R) : Rabs (Fl.normalize180 fl x) <= 360.
Proof. pose proof (Fl_normalize180_range fl x). rewrite Rabs_le_iff. lra. Qed.

(** C3, amended: in double precision (under every rounding to nearest), for
    base angles within [-360, 360] and at most 1e8 hours, propagating by [h]
    and then propagating the resulting state by [-h] gives back each of the
    five angles modulo 360 within 1e-6 degrees. *)
Theorem deriveSimulationState_round_trip
  (fl : Fl.rounding) (base : Params.t) (startDate startDate' : Date) (h : R) :
  Rabs h <= 1e8 ->
  Forall (fun a : R => Rabs a <= 360) (propagatedAngles base) ->
  let forward := Fl.deriveSimulationState fl base h startDate in
  let back := Fl.deriveSimulationState fl (State.asParams forward) (- h) startDate' in
  Forall2 (withinMod360 1e-6) (propagatedAngles (State.asParams back))
    (propagatedAngles base).
Proof.
  intros Hh Hb forward back. subst forward back.
  unfold propagatedAngles in *.
  inversion Hb as [|? ? B1 Hb1]; subst. inversion Hb1 as [|? ? B2 Hb2]; subst.
  inversion Hb2 as [|? ? B3 Hb3]; subst. inversion Hb3 as [|? ? B4 Hb4]; subst.
  inversion Hb4 as [|? ? B5 _]; subst.
  unfold State.asParams, Fl.deriveSimulationState.
  cbn [State.earthRotation State.sunEclipticLon State.ascendingNodeLon
       State.moonNodePhase State.moonAnomaly
       Params.earthRotation Params.sunEclipticLon Params.ascendingNodeLon
       Params.moonNodePhase Params.moonAnomaly].
  pose proof (Fl_SUN_range fl) as RS. pose proof (Fl_NODE_range fl) as RN.
  repeat (apply Forall2_cons; [|]); [| | | | |apply Forall2_nil].
  - apply Fl_round_trip; auto using Fl_normalize360_abs, Fl_normalize360_near, Fl_EARTH_bound.
  - apply Fl_round_trip; auto using Fl_normalize360_abs, Fl_normalize360_near.
    rewrite Rabs_le_iff. lra.
  - apply Fl_round_trip; auto using Fl_normalize360_abs, Fl_normalize360_near.
    rewrite Rabs_le_iff. lra.
  - apply Fl_round_trip; auto using Fl_normalize180_abs, Fl_normalize180_near,
      Fl_phase_rate_bound.
  - apply Fl_round_trip; auto using Fl_normalize360_abs, Fl_normalize360_near,
      Fl_ANOMALY_bound.
Qed.

Lemma deriveSimulationState_round_trip_witness :
  let forward := Fl.deriveSimulationState Fl.exact (Params.mk 200 10 (-180) 0.5 40 55 37 18 90.1) 1000 0%Z in
  let back := Fl.deriveSimulationState Fl.exact (State.asParams forward) (- 1000) 0%Z in
  Forall2 (withinMod360 1e-6) (propagatedAngles (State.asParams back))
    (propagatedAngles (Params.mk 200 10 (-180) 0.5 40 55 37 18 90.1)).
Proof.
  apply (deriveSimulationState_round_trip Fl.exact
           (Params.mk 200 10 (-180) 0.5 40 55 37 18 90.1) 0%Z 0%Z 1000).
  - rewrite Rabs_le_iff. lra.
  - unfold propagatedAngles. cbn [Params.earthRotation Params.sunEclipticLon
      Params.ascendingNodeLon Params.moonNodePhase Params.moonAnomaly].
    repeat (apply Forall_cons; [rewrite Rabs_le_iff; lra|]). apply Forall_nil.
Defined.

(** With the exact rounding the propagator under rounding is the propagator
    of the real-number model. *)
Lemma Fl_exact_deriveSimulationState (base : Params.t) (simHours : R) (startDate : Date) :
  Fl.deriveSimulationState Fl.exact base simHours startDate
  = deriveSimulationState base simHours startDate.
Proof. reflexivity. Qed.

(** The same evaluation in binary64 at 1e8 hours: the Earth rotation comes
    back 9.6e-8 degrees from 90.1, within the tolerance. *)
Lemma deriveSimulationState_round_trip_double_bounded :
  let h := B64.ofZ 100000000 in
  let forward := B64.deriveSimulationState roundTripBase h (B64.ofZ 0) in
  let back :=
    B64.deriveSimulationState (B64.State.asParams forward) (B64.opp h) (B64.ofZ 0) in
  B64.State.earthRotation back = S754_finite false 6340223843696640 (-46) /\
  withinMod360 1e-6 (B64.toR (B64.State.earthRotation back))
                    (B64.toR (B64.Params.earthRotation roundTripBase)).
Proof.
  intros h forward back.
  assert (E : B64.State.earthRotation back = S754_finite false 6340223843696640 (-46))
    by (vm_compute; reflexivity).
  assert (B : B64.Params.earthRotation roundTripBase
              = S754_finite false 6340223850407526 (-46)) by (vm_compute; reflexivity).
  split; [exact E|].
  rewrite E, B, !toR_finite. cbn [cond_Zopp].
  replace (powerRZ 2 (-46)) with (/ 70368744177664)
    by (unfold powerRZ; cbn [Pos.to_nat Pos.iter_op Nat.add]; f_equal; simpl; lra).
  apply withinMod360_near. unfold Rabs. destruct (Rcase_abs _); lra.
Qed.

Lemma model_longitudes (julianDay : R) (controls : State.t) (rotationOffsetDeg : R) :
  let a := computeAstronomy julianDay controls rotationOffsetDeg in
  (-180 <= Astro.centralLon a <= 180 /\
   -180 <= Astro.subSolarLon a <= 180 /\
   -180 <= Astro.subLunarLon a <= 180 /\
   -180 <= Astro.moonToSun a <= 180 /\
   -180 <= Astro.moonNodePhase a <= 180) /\
  (0 <= Astro.ascendingNodeLon a <= 360 /\
   0 <= Astro.sunEclipticLon a <= 360 /\
   0 <= Astro.moonEclipticLon a <= 360).
Proof.
  intros a. subst a.
  assert (C : forall x : R, 0 <= normalize360 x <= 360)
    by (intros x; pose proof (normalize360_range x); lra).
  repeat split;
    unfold computeAstronomy, shadowAxisOnEarth, vectorToEarthLatLon, vectorToLatLon;
    cbn [Astro.centralLon Astro.subSolarLon Astro.subLunarLon Astro.moonToSun
         Astro.moonNodePhase Astro.ascendingNodeLon Astro.sunEclipticLon
         Astro.moonEclipticLon Axis.lonDeg Geo.lonDeg];
    first [ apply normalize180_range | apply C ].
Qed.

(** C7, as stated, fails at both ends.  [normalize180] maps -180 to itself,
    and with the node at 200 degrees and the Moon at 20 degrees the model's
    [moonNodePhase] is -180.  In binary64 [normalize360] of -2^-60 is 360 (the
    sum of the negative remainder and 360 rounds to 360), and the state
    propagated from the zero base by -2^-70 hours has its Earth rotation, Sun
    longitude, Moon longitude and anomaly at 360.  [normalize180] of the
    product of the double nearest to -pi with [RAD], the longitude
    [vectorToLatLon] computes for a vector just below the antimeridian, is
    -180. *)
Lemma longitudes_range_ends :
  normalize180 (-180) = -180 /\
  Model.moonNodePhase
    (deriveModel
       (deriveSimulationState (Params.mk 200 0 (-180) 0 0 0 0 0 0) 0 0%Z)) = -180 /\
  B64.normalize180 (B64.ofZ (-180)) = B64.ofZ (-180) /\
  B64.normalize360 (B64.opp (B64.pow2 (-60))) = B64.ofZ 360 /\
  (let s := B64.deriveSimulationState zeroBase64 (B64.opp (B64.pow2 (-70))) (B64.ofZ 0) in
   B64.State.earthRotation s = B64.ofZ 360 /\
   B64.State.sunEclipticLon s = B64.ofZ 360 /\
   B64.State.moonEclipticLon s = B64.ofZ 360 /\
   B64.State.moonAnomaly s = B64.ofZ 360) /\
  B64.normalize180 (B64.mul (B64.opp B64.PI) B64.RAD) = B64.ofZ (-180).
Proof.
  destruct normalize180_minus180 as (E & _ & M).
  split; [exact E|]. split; [exact M|].
  split; [vm_compute; reflexivity|]. split; [vm_compute; reflexivity|].
  split; [|vm_compute; reflexivity].
  cbv zeta. repeat split; vm_compute; reflexivity.
Qed.

(** C7, amended: in double precision (under every rounding to nearest)
    [normalize180] lies in the closed interval [-180, 180] and [normalize360]
    in the closed interval [0, 360]; so every relative longitude of the model
    (centralLon, subSolarLon, subLunarLon, moonToSun, moonNodePhase) lies in
    [-180, 180] and every absolute longitude (ascendingNodeLon,
    sunEclipticLon, moonEclipticLon, earthRotation) in [0, 360].  The
    longitudes the engine computes are in range for every state object; the
    Earth rotation is carried over from the state, and is in range, like the
    other angles of the state, for every state the propagator builds. *)
Theorem longitudes_canonical :
  (forall (fl : Fl.rounding) (x : R),
     -180 <= Fl.normalize180 fl x <= 180 /\ 0 <= Fl.normalize360 fl x <= 360) /\
  (forall state : State.t,
     let m := deriveModel state in
     (-180 <= Model.centralLon m <= 180 /\
      -180 <= Model.subSolarLon m <= 180 /\
      -180 <= Model.subLunarLon m <= 180 /\
      -180 <= Model.moonToSun m <= 180 /\
      -180 <= Model.moonNodePhase m <= 180) /\
     (0 <= Model.ascendingNodeLon m <= 360 /\
      0 <= Model.sunEclipticLon m <= 360 /\
      0 <= Model.moonEclipticLon m <= 360)) /\
  (forall (fl : Fl.rounding) (base : Params.t) (simHours : R) (startDate : Date),
     let s := Fl.deriveSimulationState fl base simHours startDate in
     0 <= Model.earthRotation (deriveModel s) <= 360 /\
     0 <= State.earthRotation s <= 360 /\
     0 <= State.ascendingNodeLon s <= 360 /\
     0 <= State.descendingNodeLon s <= 360 /\
     0 <= State.sunEclipticLon s <= 360 /\
     0 <= State.moonEclipticLon s <= 360 /\
     0 <= State.moonAnomaly s <= 360 /\
     -180 <= State.moonNodePhase s <= 180).
Proof.
  split; [intros fl x; split;
          [apply Fl_normalize180_range | apply Fl_normalize360_range]|].
  split.
  - intros state m.
    exact (model_longitudes (State.julianDay state) state
             (normalize180 (State.earthRotation state - State.gmst state))).
  - intros fl base simHours startDate s.
    exact (conj (Fl_normalize360_range fl _) (conj (Fl_normalize360_range fl _)
            (conj (Fl_normalize360_range fl _) (conj (Fl_normalize360_range fl _)
              (conj (Fl_normalize360_range fl _) (conj (Fl_normalize360_range fl _)
                (conj (Fl_normalize360_range fl _) (Fl_normalize180_range fl _)))))))).
Qed.

(** C10, as stated, fails in double precision: with both radii and the
    separation at 2^-600 the partial-overlap branch is reached, the divisors
    [2*d*r1] and [2*d*r2] underflow to 0 and both quotients are 0/0. *)
Lemma overlapFraction_divides_by_zero :
  B64.geb tiny64 (B64.add tiny64 tiny64) = false /\
  B64.leb tiny64 (B64.abs (B64.sub tiny64 tiny64)) = false /\
  B64.mul (B64.mul (B64.ofZ 2) tiny64) tiny64 = S754_zero false /\
  B64.overlapQuotients tiny64 tiny64 tiny64 = Some (B64.NaN, B64.NaN).
Proof. repeat split; vm_compute; reflexivity. Qed.

Lemma rnd_positive (fl : Fl.rounding) (x : R) :
  1e-250 <= x <= 1e250 -> x / 2 <= Fl.rnd fl x <= 2 * x.
Proof.
  intros [L U]. pose proof Fl_u_bounds as HU. pose proof Fl_eta_bounds as HE.
  assert (A : Rabs x = x) by (apply Rabs_right; lra).
  assert (O : Rabs x <= Fl.omega) by (rewrite A; unfold Fl.omega; lra).
  pose proof (Fl.rnd_error fl x O) as E. rewrite A in E.
  assert (Fl.u * x <= 1.2e-16 * x) by (apply Rmult_le_compat_r; lra).
  rewrite Rabs_le_iff in E. lra.
Qed.

Lemma Fl_div_some (fl : Fl.rounding) (a b : R) :
  0 < b -> Fl.div fl a b = Some (Fl.rnd fl (a / b)).
Proof.
  intros H. unfold Fl.div. destruct (Req_dec_T b 0) as [Z|_]; [lra | reflexivity].
Qed.

Lemma Fl_acos_clamped (fl : Fl.rounding) (q : R) :
  Fl.acos fl (clamp q (-1) 1) = Some (Fl.rnd fl (acos (clamp q (-1) 1))).
Proof.
  unfold Fl.acos. destruct (clamp_range q (-1) 1) as [L U]; [lra|].
  apply leb_true in L, U. rewrite L, U. reflexivity.
Qed.

Lemma moderateSize_nonneg (x : R) : moderateSize x -> 0 <= x.
Proof. intros [-> | H]; lra. Qed.

(** In the partial-overlap branch, as the code tests it, none of the three
    arguments is 0. *)
Lemma Fl_partial_overlap_positive (fl : Fl.rounding) (r1 r2 d : R) :
  representable fl r1 -> representable fl r2 ->
  moderateSize r1 -> moderateSize r2 -> moderateSize d ->
  Rabs (Fl.rnd fl (r1 - r2)) < d < Fl.rnd fl (r1 + r2) ->
  1e-100 <= r1 <= 1e100 /\ 1e-100 <= r2 <= 1e100 /\ 1e-100 <= d <= 1e100.
Proof.
  intros M1 M2 S1 S2 Sd [Hl Hu]. unfold representable in *.
  pose proof (moderateSize_nonneg _ S1) as P1. pose proof (moderateSize_nonneg _ S2) as P2.
  pose proof (Rabs_pos (Fl.rnd fl (r1 - r2))) as PA.
  destruct S1 as [-> | S1].
  - exfalso. rewrite Rplus_0_l, M2 in Hu.
    replace (0 - r2) with (- r2) in Hl by ring.
    rewrite Fl.rnd_opp, M2, Rabs_Ropp, Rabs_right in Hl; lra.
  - destruct S2 as [-> | S2].
    + exfalso. rewrite Rplus_0_r, M1 in Hu.
      replace (r1 - 0) with r1 in Hl by ring.
      rewrite M1, Rabs_right in Hl; lra.
    + destruct Sd as [-> | Sd]; [lra|]. auto.
Qed.

Lemma Fl_partial_divisor (fl : Fl.rounding) (r d : R) :
  1e-100 <= r <= 1e100 -> 1e-100 <= d <= 1e100 ->
  0 < Fl.rnd fl (Fl.rnd fl (2 * d) * r).
Proof.
  intros Hr Hd.
  pose proof (rnd_positive fl (2 * d) ltac:(lra)) as A.
  set (t := Fl.rnd fl (2 * d)) in *.
  assert (B : 1e-200 <= t * r <= 4e200) by nra.
  pose proof (rnd_positive fl (t * r) ltac:(lra)) as C. lra.
Qed.

Lemma Fl_square_positive (fl : Fl.rounding) (r : R) :
  1e-100 <= r <= 1e100 -> 5e-201 <= Fl.rnd fl (r * r) <= 2e200.
Proof.
  intros Hr. assert (B : 1e-200 <= r * r <= 1e200) by nra.
  pose proof (rnd_positive fl (r * r) ltac:(lra)) as C. lra.
Qed.

(** C10, amended: in double precision (under every rounding to nearest), on
    arguments that are 0 or between 1e-100 and 1e100 the evaluation of
    [overlapFraction] never divides by zero and never takes the [acos] of a
    number outside [-1, 1], and its value lies in [0, 1]; in the
    partial-overlap branch the divisors [2*d*r1] and [2*d*r2], as computed,
    are strictly positive. *)
Theorem overlapFraction_total (fl : Fl.rounding) (r1 r2 d : R) :
  representable fl r1 -> representable fl r2 -> representable fl d ->
  moderateSize r1 -> moderateSize r2 -> moderateSize d ->
  (exists v : R, Fl.overlapFractionChecked fl r1 r2 d = Some v /\ 0 <= v <= 1) /\
  (Rabs (Fl.rnd fl (r1 - r2)) < d < Fl.rnd fl (r1 + r2) ->
   0 < Fl.rnd fl (Fl.rnd fl (2 * d) * r1) /\ 0 < Fl.rnd fl (Fl.rnd fl (2 * d) * r2)) /\
  (forall q : R, -1 <= clamp q (-1) 1 <= 1).
Proof.
  intros M1 M2 Md S1 S2 Sd.
  assert (Hdiv : Rabs (Fl.rnd fl (r1 - r2)) < d < Fl.rnd fl (r1 + r2) ->
                 0 < Fl.rnd fl (Fl.rnd fl (2 * d) * r1) /\
                 0 < Fl.rnd fl (Fl.rnd fl (2 * d) * r2)).
  { intros Hp.
    destruct (Fl_partial_overlap_positive fl r1 r2 d M1 M2 S1 S2 Sd Hp) as (P1 & P2 & P3).
    split; apply Fl_partial_divisor; assumption. }
  split; [|split; [exact Hdiv | intros q; apply clamp_range; lra]].
  unfold Fl.overlapFractionChecked.
  destruct (d >=? Fl.rnd fl (r1 + r2)) eqn:E1.
  { exists 0. split; [reflexivity | lra]. }
  apply geb_false in E1.
  destruct (d <=? Rabs (Fl.rnd fl (r1 - r2))) eqn:E2.
  - apply leb_true in E2.
    destruct (r2 >=? r1) eqn:E3.
    { exists 1. split; [reflexivity | lra]. }
    apply geb_false in E3.
    pose proof (moderateSize_nonneg _ S2) as P2.
    assert (P1 : 1e-100 <= r1 <= 1e100) by (destruct S1 as [-> | S1]; [lra | exact S1]).
    pose proof (Fl_square_positive fl r1 P1) as Q.
    rewrite Fl_div_some by lra. cbn [Checked.bind].
    eexists. split; [reflexivity | apply clamp_range; lra].
  - apply leb_false in E2.
    destruct (Fl_partial_overlap_positive fl r1 r2 d M1 M2 S1 S2 Sd (conj E2 E1))
      as (P1 & P2 & P3).
    destruct (Hdiv (conj E2 E1)) as [D1 D2].
    pose proof (Fl_square_positive fl r1 P1) as Q.
    assert (DP : 0 < Fl.rnd fl (Fl.rnd fl PI * Fl.rnd fl (r1 * r1))).
    { pose proof PI_RGT_0 as G0. pose proof PI_4 as G4. pose proof PI2_1 as G1.
      pose proof (rnd_positive fl PI ltac:(lra)) as A.
      set (p := Fl.rnd fl PI) in *. set (s := Fl.rnd fl (r1 * r1)) in *.
      assert (B : 1e-250 <= p * s <= 1e250) by nra.
      pose proof (rnd_positive fl (p * s) B). lra. }
    cbv zeta.
    rewrite (Fl_div_some fl _ _ D1). cbn [Checked.bind].
    rewrite Fl_acos_clamped. cbn [Checked.bind].
    rewrite (Fl_div_some fl _ _ D2). cbn [Checked.bind].
    rewrite Fl_acos_clamped. cbn [Checked.bind].
    rewrite (Fl_div_some fl _ _ DP). cbn [Checked.bind].
    eexists. split; [reflexivity | apply clamp_range; lra].
Qed.

Lemma overlapFraction_total_witness :
  (exists v : R, Fl.overlapFractionChecked Fl.exact 1 1 1 = Some v /\ 0 <= v <= 1) /\
  (Rabs (Fl.rnd Fl.exact (1 - 1)) < 1 < Fl.rnd Fl.exact (1 + 1) ->
   0 < Fl.rnd Fl.exact (Fl.rnd Fl.exact (2 * 1) * 1) /\
   0 < Fl.rnd Fl.exact (Fl.rnd Fl.exact (2 * 1) * 1)) /\
  (forall q : R, -1 <= clamp q (-1) 1 <= 1).
Proof.
  apply (overlapFraction_total Fl.exact 1 1 1);
    first [reflexivity | right; lra].
Defined.

Lemma Fl_exact_overlapFractionChecked (r1 r2 d : R) :
  Fl.overlapFractionChecked Fl.exact r1 r2 d = overlapFractionChecked r1 r2 d.
Proof. reflexivity. Qed.

(** ** The ground track and the state it is sampled from *)
















(** ** The propagator under rounding *)

Lemma Fl_compose (fl : Fl.rounding) (N : R -> R) (a h1 h2 h c : R) :
  (forall x : R, Rabs (N x) <= 360) ->
  (forall x : R, withinMod360 4.4e-14 (N x) x) ->
  Rabs a <= 360 -> Rabs h1 <= 5e7 -> Rabs h2 <= 5e7 -> Rabs c <= 16 ->
  Rabs h <= 1e8 -> Rabs (h - (h1 + h2)) <= 1.3e-8 ->
  withinMod360 2e-6
    (N (Fl.rnd fl (N (Fl.rnd fl (a + Fl.rnd fl (h1 * c))) + Fl.rnd fl (h2 * c))))
    (N (Fl.rnd fl (a + Fl.rnd fl (h * c)))).
Proof.
  intros Hr Hn Ha H1 H2 Hc Hh Hd.
  assert (S : forall b k : R, Rabs b <= 360 -> Rabs k <= 1e8 ->
              withinMod360 4.95e-7 (N (Fl.rnd fl (b + Fl.rnd fl (k * c)))) (b + k * c)).
  { intros b k Hb Hk.
    apply withinMod360_weaken with (4.4e-14 + 4.9e-7); [lra|].
    eapply withinMod360_trans; [apply Hn|].
    apply withinMod360_near, Fl_sum_near; assumption. }
  set (n1 := N (Fl.rnd fl (a + Fl.rnd fl (h1 * c)))).
  pose proof (S a h1 Ha ltac:(lra)) as S1. fold n1 in S1.
  pose proof (S n1 h2 (Hr _) ltac:(lra)) as S2.
  pose proof (S a h Ha Hh) as S3.
  apply (withinMod360_plus _ _ _ (h2 * c)) in S1.
  assert (D : withinMod360 2.08e-7 (a + h1 * c + h2 * c) (a + h * c)).
  { apply withinMod360_near.
    replace (a + h1 * c + h2 * c - (a + h * c)) with (- (h - (h1 + h2)) * c) by ring.
    rewrite Rabs_mult, Rabs_Ropp. replace 2.08e-7 with (1.3e-8 * 16) by lra.
    apply Rmult_le_compat; auto using Rabs_pos. }
  apply withinMod360_weaken with (4.95e-7 + 4.95e-7 + 2.08e-7 + 4.95e-7); [lra|].
  eapply withinMod360_trans; [|apply withinMod360_sym; exact S3].
  eapply withinMod360_trans; [|exact D].
  eapply withinMod360_trans; [exact S2 | exact S1].
Qed.

Lemma rnd_sum_hours (fl : Fl.rounding) (h1 h2 : R) :
  Rabs h1 <= 5e7 -> Rabs h2 <= 5e7 ->
  Rabs (Fl.rnd fl (h1 + h2)) <= 1e8 /\
  Rabs (Fl.rnd fl (h1 + h2) - (h1 + h2)) <= 1.3e-8.
Proof.
  intros H1 H2. rewrite Rabs_le_iff in H1, H2.
  assert (B : IZR (-100000000) <= h1 + h2 <= IZR 100000000) by lra.
  apply (rnd_between fl) in B; [|vm_compute; discriminate..].
  split; [rewrite Rabs_le_iff; lra|].
  assert (A : Rabs (h1 + h2) <= 1e8) by (rewrite Rabs_le_iff; lra).
  pose proof (rnd_near fl (h1 + h2) 1e8 A ltac:(lra)). lra.
Qed.

(** X13: propagation composes, in double precision (under every rounding to
    nearest).  For base angles within [-360, 360] and steps of at most 5e7
    hours each, propagating by [h1] and then propagating the resulting state
    by [h2] gives, modulo 360 and within 2e-6 degrees, the five angles of
    propagating once by the rounded sum of [h1] and [h2]; the observer and
    the distance mode are carried over unchanged. *)
Theorem deriveSimulationState_compose
  (fl : Fl.rounding) (base : Params.t) (h1 h2 : R) (start1 start2 start3 : Date) :
  Rabs h1 <= 5e7 -> Rabs h2 <= 5e7 ->
  Forall (fun a : R => Rabs a <= 360) (propagatedAngles base) ->
  let once := Fl.deriveSimulationState fl base (Fl.rnd fl (h1 + h2)) start3 in
  let twice :=
    Fl.deriveSimulationState fl
      (State.asParams (Fl.deriveSimulationState fl base h1 start1)) h2 start2 in
  Forall2 (withinMod360 2e-6) (propagatedAngles (State.asParams twice))
    (propagatedAngles (State.asParams once)) /\
  (State.moonDistanceMode twice = Params.moonDistanceMode base /\
   State.observerLat twice = Params.observerLat base /\
   State.observerLon twice = Params.observerLon base /\
   State.observerTilt twice = Params.observerTilt base).
Proof.
  intros H1 H2 Hb once twice. subst once twice.
  split; [|repeat split].
  destruct (rnd_sum_hours fl h1 h2 H1 H2) as [Hh Hd].
  unfold propagatedAngles in *.
  inversion Hb as [|? ? B1 Hb1]; subst. inversion Hb1 as [|? ? B2 Hb2]; subst.
  inversion Hb2 as [|? ? B3 Hb3]; subst. inversion Hb3 as [|? ? B4 Hb4]; subst.
  inversion Hb4 as [|? ? B5 _]; subst.
  unfold State.asParams, Fl.deriveSimulationState.
  cbn [State.earthRotation State.sunEclipticLon State.ascendingNodeLon
       State.moonNodePhase State.moonAnomaly
       Params.earthRotation Params.sunEclipticLon Params.ascendingNodeLon
       Params.moonNodePhase Params.moonAnomaly].
  pose proof (Fl_SUN_range fl) as RS. pose proof (Fl_NODE_range fl) as RN.
  repeat (apply Forall2_cons; [|]); [| | | | |apply Forall2_nil].
  - apply Fl_compose; auto using Fl_normalize360_abs, Fl_normalize360_near, Fl_EARTH_bound.
  - apply Fl_compose; auto using Fl_normalize360_abs, Fl_normalize360_near.
    rewrite Rabs_le_iff. lra.
  - apply Fl_compose; auto using Fl_normalize360_abs, Fl_normalize360_near.
    rewrite Rabs_le_iff. lra.
  - apply Fl_compose; auto using Fl_normalize180_abs, Fl_normalize180_near,
      Fl_phase_rate_bound.
  - apply Fl_compose; auto using Fl_normalize360_abs, Fl_normalize360_near,
      Fl_ANOMALY_bound.
Qed.

Lemma deriveSimulationState_compose_witness :
  let base := Params.mk 200 10 (-180) 0.5 40 55 37 18 90.1 in
  let once := Fl.deriveSimulationState Fl.exact base (1000 + 25.5) 0%Z in
  let twice :=
    Fl.deriveSimulationState Fl.exact
      (State.asParams (Fl.deriveSimulationState Fl.exact base 1000 0%Z)) 25.5 0%Z in
  Forall2 (withinMod360 2e-6) (propagatedAngles (State.asParams twice))
    (propagatedAngles (State.asParams once)).
Proof.
  apply (deriveSimulationState_compose Fl.exact
           (Params.mk 200 10 (-180) 0.5 40 55 37 18 90.1) 1000 25.5 0%Z 0%Z 0%Z).
  - rewrite Rabs_le_iff. lra.
  - rewrite Rabs_le_iff. lra.
  - unfold propagatedAngles. cbn [Params.earthRotation Params.sunEclipticLon
      Params.ascendingNodeLon Params.moonNodePhase Params.moonAnomaly].
    repeat (apply Forall_cons; [rewrite Rabs_le_iff; lra|]). apply Forall_nil.
Defined.

Lemma rnd_sum_near360 (fl : Fl.rounding) (N : R -> R) (a b : R) :
  (forall x : R, withinMod360 4.4e-14 (N x) x) ->
  Rabs a <= 360 -> Rabs b <= 360 ->
  withinMod360 2e-13 (N (Fl.rnd fl (a + b))) (a + b).
Proof.
  intros Hn Ha Hb.
  assert (S : Rabs (a + b) <= 720) by (rewrite !Rabs_le_iff in *; lra).
  pose proof (rnd_near fl (a + b) 720 S ltac:(lra)) as E.
  apply withinMod360_weaken with (4.4e-14 + 1e-13); [lra|].
  eapply withinMod360_trans; [apply Hn|]. apply withinMod360_near. lra.
Qed.

(** X14: the state the propagator builds, in double precision (under every
    rounding to nearest).  The descending node, the Moon's longitude and the
    sidereal time lie in [0, 360] and the Moon's phase from the node in
    [-180, 180]; the descending node is the ascending node plus 180 and the
    Moon's longitude is the node longitude plus the phase, both modulo 360
    and within 2e-13 degrees. *)
Theorem state_invariants
  (fl : Fl.rounding) (base : Params.t) (simHours : R) (startDate : Date) :
  let s := Fl.deriveSimulationState fl base simHours startDate in
  0 <= State.descendingNodeLon s <= 360 /\
  0 <= State.moonEclipticLon s <= 360 /\
  -180 <= State.moonNodePhase s <= 180 /\
  0 <= State.gmst s <= 360 /\
  withinMod360 2e-13 (State.descendingNodeLon s) (State.ascendingNodeLon s + 180) /\
  withinMod360 2e-13 (State.moonEclipticLon s)
    (State.ascendingNodeLon s + State.moonNodePhase s).
Proof.
  intros s. subst s. unfold Fl.deriveSimulationState.
  cbn [State.descendingNodeLon State.ascendingNodeLon State.moonEclipticLon
       State.moonNodePhase State.gmst].
  split; [apply Fl_normalize360_range|]. split; [apply Fl_normalize360_range|].
  split; [apply Fl_normalize180_range|]. split; [apply Fl_normalize360_range|].
  split.
  - apply rnd_sum_near360; auto using Fl_normalize360_near, Fl_normalize360_abs.
    rewrite Rabs_le_iff. lra.
  - apply rnd_sum_near360;
      auto using Fl_normalize360_near, Fl_normalize360_abs, Fl_normalize180_abs.
Qed.

(** ** Great-circle distance, away from the antipode *)

Lemma atan2_unit (a : R) :
  0 <= a <= 1 ->
  cos (JsNum.atan2 (sqrt a) (sqrt (1 - a))) = sqrt (1 - a) /\
  sin (JsNum.atan2 (sqrt a) (sqrt (1 - a))) = sqrt a.
Proof.
  intros Ha. destruct (atan2_hypot (sqrt a) (sqrt (1 - a))) as [C S].
  unfold JsMath.hypot2 in C, S.
  rewrite !sqrt_sqrt in C, S by lra.
  replace (1 - a + a) with 1 in C, S by ring. rewrite sqrt_1 in C, S. lra.
Qed.

Lemma haversine_cosine (latA lonA latB lonB : R) :
  1 - 2 * haversineTerm latA lonA latB lonB =
  sin (latA * DEG) * sin (latB * DEG)
  + cos (latA * DEG) * cos (latB * DEG) * cos ((lonB - lonA) * DEG).
Proof.
  unfold haversineTerm. cbv zeta.
  set (l1 := latA * DEG). set (l2 := latB * DEG).
  replace ((latB - latA) * DEG) with (l2 - l1) by (unfold l1, l2; ring).
  set (x := (l2 - l1) / 2). set (y := (lonB - lonA) * DEG / 2).
  replace ((lonB - lonA) * DEG) with (2 * y) by (unfold y; field).
  pose proof (cos_minus l2 l1) as M.
  replace (l2 - l1) with (2 * x) in M by (unfold x; field).
  rewrite cos_2a_sin in M. rewrite cos_2a_sin. nra.
Qed.

(** X19: the great-circle distance of a point to itself is 0 and the distance
    is symmetric.  For latitudes in [-90, 90] the haversine term is not
    negative, and wherever it is at most 0.999999 (the two points are not
    within about 0.11 degree of being antipodal) the second square root is
    of a positive number, the distance lies between 0 and half the
    circumference, pi * 6371 km, short of it, and its angle obeys the law of
    cosines of the sphere. *)
Theorem greatCircleDistanceKm_properties (latA lonA latB lonB : R) :
  greatCircleDistanceKm latA lonA latA lonA = 0 /\
  greatCircleDistanceKm latA lonA latB lonB = greatCircleDistanceKm latB lonB latA lonA /\
  (-90 <= latA <= 90 -> -90 <= latB <= 90 ->
   0 <= haversineTerm latA lonA latB lonB /\
   (haversineTerm latA lonA latB lonB <= 0.999999 ->
    0 < 1 - haversineTerm latA lonA latB lonB /\
    0 <= greatCircleDistanceKm latA lonA latB lonB < PI * EARTH_RADIUS_KM /\
    cos (greatCircleDistanceKm latA lonA latB lonB / EARTH_RADIUS_KM) =
      sin (latA * DEG) * sin (latB * DEG)
      + cos (latA * DEG) * cos (latB * DEG) * cos ((lonB - lonA) * DEG))).
Proof.
  split; [|split].
  - rewrite greatCircleDistanceKm_haversine.
    assert (Z : haversineTerm latA lonA latA lonA = 0).
    { unfold haversineTerm. replace ((latA - latA) * DEG / 2) with 0 by lra.
      replace ((lonA - lonA) * DEG / 2) with 0 by lra. rewrite sin_0. ring. }
    rewrite Z, Rminus_0_r, sqrt_0, sqrt_1. unfold JsNum.atan2.
    destruct (Rlt_dec 0 1); [|lra]. replace (0 / 1) with 0 by lra. rewrite atan_0. ring.
  - rewrite !greatCircleDistanceKm_haversine, (haversineTerm_sym latA lonA latB lonB).
    reflexivity.
  - intros HA HB.
    pose proof (haversineTerm_range latA lonA latB lonB HA HB) as [L _].
    split; [exact L|]. intros U. split; [lra|].
    rewrite greatCircleDistanceKm_haversine.
    set (a := haversineTerm latA lonA latB lonB) in *.
    assert (P : 0 < sqrt (1 - a)) by (apply sqrt_lt_R0; lra).
    pose proof (atan2_quadrant (sqrt a) (sqrt (1 - a)) (sqrt_pos _) (sqrt_pos _)) as [L' _].
    pose proof (atan2_right (sqrt a) (sqrt (1 - a)) P) as [_ U'].
    destruct (atan2_unit a ltac:(lra)) as [C S].
    set (th := JsNum.atan2 (sqrt a) (sqrt (1 - a))) in *.
    split; [unfold EARTH_RADIUS_KM; split; nra|].
    replace (EARTH_RADIUS_KM * (2 * th) / EARTH_RADIUS_KM) with (2 * th)
      by (unfold EARTH_RADIUS_KM; field; lra).
    rewrite cos_2a_sin, S, <- haversine_cosine. fold a.
    pose proof (sqrt_sqrt a ltac:(lra)). lra.
Qed.

(** ** Angles of the views, with their range ends *)

(** X22: [horizontalCoordinates] for every input.  The altitude lies in
    [-90, 90] and the azimuth in [0, 360]; for an hour angle of at most 1e6
    degrees the azimuth lies in the upper half [180, 360] when the sine of
    the hour angle is at least 1e-9 and in [0, 180] when it is at most -1e-9;
    the divisor used for the azimuth is at least 1e-8 in absolute value. *)
Theorem horizontalCoordinates_ranges (observerLat declination hourAngleDeg : R) :
  let h := horizontalCoordinates observerLat declination hourAngleDeg in
  -90 <= Horizontal.altitude h <= 90 /\
  0 <= Horizontal.azimuth h <= 360 /\
  (Rabs hourAngleDeg <= 1e6 ->
   (1e-9 <= sin (hourAngleDeg * DEG) -> 180 <= Horizontal.azimuth h <= 360) /\
   (sin (hourAngleDeg * DEG) <= -1e-9 -> 0 <= Horizontal.azimuth h <= 180)) /\
  1e-8 <= Rabs (horizontalSafeDenom observerLat declination hourAngleDeg).
Proof.
  intros h. subst h.
  pose proof (horizontal_azimuth_range observerLat declination hourAngleDeg) as AZ.
  revert AZ. unfold horizontalCoordinates, horizontalSafeDenom.
  cbv zeta. cbn [Horizontal.altitude Horizontal.azimuth]. intros AZ.
  set (lat := observerLat * DEG) in *. set (dec := declination * DEG) in *.
  set (H := hourAngleDeg * DEG) in *.
  set (sinAlt := sin lat * sin dec + cos lat * cos dec * cos H) in *.
  set (alt := asin (clamp sinAlt (-1) 1)) in *.
  set (denom := cos alt * cos lat) in *.
  set (safeDenom := if Rabs denom <? 1e-8 then 1e-8 else denom) in *.
  set (cosAz := clamp ((sin dec - sin alt * sin lat) / safeDenom) (-1) 1) in *.
  pose proof (acos_degrees_range cosAz) as [Z0 Z1].
  pose proof PI_RAD as PR.
  assert (E : (2 * PI - acos cosAz) * RAD = 360 - acos cosAz * RAD)
    by (rewrite Rmult_minus_distr_r; replace (2 * PI * RAD) with (2 * (PI * RAD)) by ring;
        rewrite PR; ring).
  split; [apply asin_degrees_range|].
  split; [exact AZ|].
  split; [intros _; split|].
  - intros S. assert (S' : (sin H >? 0) = true) by (apply gtb_true; lra).
    rewrite S', E. lra.
  - intros S. assert (S' : (sin H >? 0) = false) by (apply gtb_false; lra).
    rewrite S'. lra.
  - subst safeDenom. destruct (Rabs denom <? 1e-8) eqn:D.
    + rewrite Rabs_right; lra.
    + apply ltb_false in D. exact D.
Qed.

(** X25: the two angular separations of vectors.  That of the engine
    ([angularSeparationFromVectors]) lies in [0, 180] and does not depend on
    the order of its arguments.  That of the views ([angleBetweenVectorsDeg])
    lies in [0, 180] too, and gives the same angle as the engine's for two
    vectors not shorter than 1e-9. *)
Theorem angular_separations (a b : Vec.t) :
  0 <= angularSeparationFromVectors a b <= 180 /\
  angularSeparationFromVectors a b = angularSeparationFromVectors b a /\
  0 <= angleBetweenVectorsDeg a b <= 180 /\
  (1e-9 <= vectorLength a -> 1e-9 <= vectorLength b ->
   angleBetweenVectorsDeg a b = angularSeparationFromVectors a b).
Proof.
  unfold angularSeparationFromVectors, angleBetweenVectorsDeg. cbv zeta.
  split; [apply acos_degrees_range|].
  split; [rewrite (dotVector_comm (normalizeVector a)); reflexivity|].
  split; [apply acos_degrees_range|].
  intros Ha Hb. rewrite vectorLength_magnitude in *.
  rewrite !Rmax_right by assumption.
  rewrite dotVector_normalized by lra. reflexivity.
Qed.

Lemma topocentric_altitude_closed (v : Vec.t) (latDeg lonDeg : R) :
  -90 <= Horizontal.altitude (topocentricHorizontalFromEcef v latDeg lonDeg) <= 90.
Proof. pose proof (topocentric_altitude_range v latDeg lonDeg). lra. Qed.

Lemma topocentric_azimuth_closed (v : Vec.t) (latDeg lonDeg : R) :
  0 <= Horizontal.azimuth (topocentricHorizontalFromEcef v latDeg lonDeg) <= 360.
Proof.
  rewrite topocentricHorizontalFromEcef_eq. cbv zeta. cbn [Horizontal.azimuth].
  pose proof (normalize360_range
                (JsNum.atan2 (Vec.x (topocentricEnu v latDeg lonDeg))
                   (Vec.y (topocentricEnu v latDeg lonDeg)) * RAD)). lra.
Qed.

(** X27: [topocentricHorizontalFromEcef] for every vector and site.  The
    azimuth lies in [0, 360] and the altitude in [-90, 90].  The local east,
    north and up components keep the length of the vector, the up component
    being the dot product with the unit vertical of the site
    ([earthFixedObserverVector] of radius 1).  The azimuth is the polar angle
    of (north, east); and unless the horizontal part is shorter than 1e-12,
    the altitude is the elevation of the vector above the horizon. *)
Theorem topocentric_angles (vector : Vec.t) (latDeg lonDeg : R) :
  let h := topocentricHorizontalFromEcef vector latDeg lonDeg in
  let enu := topocentricEnu vector latDeg lonDeg in
  let ground := JsMath.hypot2 (Vec.x enu) (Vec.y enu) in
  0 <= Horizontal.azimuth h <= 360 /\
  -90 <= Horizontal.altitude h <= 90 /\
  dotVector enu enu = dotVector vector vector /\
  Vec.z enu = dotVector vector (earthFixedObserverVector latDeg lonDeg 1) /\
  ground * sin (Horizontal.azimuth h * DEG) = Vec.x enu /\
  ground * cos (Horizontal.azimuth h * DEG) = Vec.y enu /\
  (1e-12 <= ground ->
   vectorLength vector * sin (Horizontal.altitude h * DEG) = Vec.z enu /\
   vectorLength vector * cos (Horizontal.altitude h * DEG) = ground).
Proof.
  intros h enu ground.
  split; [apply topocentric_azimuth_closed|].
  split; [apply topocentric_altitude_closed|].
  split; [apply topocentricEnu_dot|].
  split.
  { unfold enu, topocentricEnu, earthFixedObserverVector, dotVector.
    cbv zeta. cbn [Vec.x Vec.y Vec.z]. ring. }
  pose proof (topocentricEnu_dot vector latDeg lonDeg) as D. fold enu in D.
  subst h. rewrite topocentricHorizontalFromEcef_eq. cbv zeta. fold enu. fold ground.
  cbn [Horizontal.azimuth Horizontal.altitude].
  destruct (congruent360_sin_cos _ _
              (normalize360_congruent (JsNum.atan2 (Vec.x enu) (Vec.y enu) * RAD)))
    as [Es Ec].
  rewrite Es, Ec, !RAD_DEG.
  destruct (atan2_hypot (Vec.x enu) (Vec.y enu)) as [Hc Hs].
  rewrite hypot2_comm in Hc, Hs. fold ground in Hc, Hs.
  split; [exact Hs|]. split; [exact Hc|].
  intros G. rewrite Rmax_right by exact G.
  destruct (atan2_hypot (Vec.z enu) ground) as [Ac As].
  assert (L : JsMath.hypot2 ground (Vec.z enu) = vectorLength vector).
  { rewrite vectorLength_magnitude. unfold magnitudeVector. rewrite <- D.
    unfold JsMath.hypot2 at 1. f_equal. unfold ground. rewrite hypot2_sqr.
    unfold dotVector. ring. }
  rewrite L in Ac, As. split; assumption.
Qed.

(** X28: the observer's sky of [computeTopocentricObserverSky].  For a model
    of [deriveModel], which carries its Earth-fixed geometry, the apparent
    radius of the Sun stays within one part in 10000 of the geocentric one
    and that of the Moon within 2 percent (the observer stands 6371 km from
    the centre).  With the geometry or without it (the radii are then the
    geocentric ones) the separation lies in [0, 180], the altitudes in
    [-90, 90] and the azimuths in [0, 360]. *)
Theorem observer_sky (state : State.t) :
  let m := deriveModel state in
  let a := Model.astro m in
  let sky :=
    computeTopocentricObserverSky m (Some (Frames.earthFixed (Astro.geometry a))) in
  let flat := computeTopocentricObserverSky m None in
  (0.9999 * Astro.sunAngularRadiusDeg a <= Sky.sunAngularRadiusDeg sky
     <= 1.0001 * Astro.sunAngularRadiusDeg a /\
   0.98 * Astro.moonAngularRadiusDeg a <= Sky.moonAngularRadiusDeg sky
     <= 1.02 * Astro.moonAngularRadiusDeg a /\
   0 <= Sky.separationDeg sky <= 180 /\
   -90 <= Horizontal.altitude (Sky.sun sky) <= 90 /\
   -90 <= Horizontal.altitude (Sky.moon sky) <= 90 /\
   0 <= Horizontal.azimuth (Sky.sun sky) <= 360 /\
   0 <= Horizontal.azimuth (Sky.moon sky) <= 360) /\
  (Sky.sunAngularRadiusDeg flat = Astro.sunAngularRadiusDeg a /\
   Sky.moonAngularRadiusDeg flat = Astro.moonAngularRadiusDeg a /\
   0 <= Sky.separationDeg flat <= 180 /\
   -90 <= Horizontal.altitude (Sky.sun flat) <= 90 /\
   -90 <= Horizontal.altitude (Sky.moon flat) <= 90 /\
   0 <= Horizontal.azimuth (Sky.sun flat) <= 360 /\
   0 <= Horizontal.azimuth (Sky.moon flat) <= 360).
Proof.
  intros m a sky flat.
  set (off := normalize180 (State.earthRotation state - State.gmst state)).
  assert (Ha : computeAstronomy (State.julianDay state) state off = a) by reflexivity.
  pose proof (frames_distances (State.julianDay state) state off) as F.
  pose proof (sunDistanceKm_bounds (State.julianDay state) state off) as BS.
  pose proof (moonDistanceKm_bounds (State.julianDay state) state off) as BM.
  pose proof (sunAngularRadiusDeg_pos (State.julianDay state) state off) as PS.
  pose proof (moonAngularRadiusDeg_pos (State.julianDay state) state off) as PM.
  cbv zeta in F. rewrite Ha in F, BS, BM, PS, PM.
  destruct F as ((_ & _ & FS) & (_ & _ & FM) & _).
  pose proof (earthFixedObserverVector_magnitude (State.observerLat state)
                (State.observerLon state) 6371.0 ltac:(lra)) as FO.
  replace 6371.0 with 6371 in FO at 2 by lra.
  split.
  - split; [|split; [|split; [|split; [|split; [|split]]]]].
    + replace 0.9999 with (1 - 0.0001) by lra. replace 1.0001 with (1 + 0.0001) by lra.
      apply (topocentric_radius _ _ 0.0001 _ _ PS ltac:(lra) FS FO). lra.
    + replace 0.98 with (1 - 0.02) by lra. replace 1.02 with (1 + 0.02) by lra.
      apply (topocentric_radius _ _ 0.02 _ _ PM ltac:(lra) FM FO). lra.
    + apply acos_degrees_range.
    + apply topocentric_altitude_closed.
    + apply topocentric_altitude_closed.
    + apply topocentric_azimuth_closed.
    + apply topocentric_azimuth_closed.
  - split; [reflexivity|]. split; [reflexivity|].
    split; [apply acos_degrees_range|].
    split; [apply asin_degrees_range|]. split; [apply asin_degrees_range|].
    unfold flat, computeTopocentricObserverSky. cbv zeta. cbn [Sky.sun Sky.moon].
    split; apply horizontal_azimuth_range.
Qed.

(** X23: [sphereProject] for every input.  The drawn point, with its depth
    scaled by the radius, lies on the sphere of that radius about
    [(cx, cy)]; and the point is flagged visible exactly when its depth is
    not negative. *)
Theorem sphereProject_on_sphere (lat lon radius cx cy tiltDeg rotDeg : R) :
  let p := sphereProject lat lon radius cx cy tiltDeg rotDeg in
  (Projected.x p - cx) * (Projected.x p - cx) +
  (Projected.y p - cy) * (Projected.y p - cy) +
  (radius * Projected.z p) * (radius * Projected.z p) = radius * radius /\
  (Projected.visible p = true <-> 0 <= Projected.z p).
Proof.
  intros p. subst p. unfold sphereProject. cbv zeta.
  cbn [Projected.x Projected.y Projected.z Projected.visible].
  pose proof (sin2_cos2 (lat * DEG)) as H1.
  pose proof (sin2_cos2 ((lon + rotDeg) * DEG)) as H2.
  pose proof (sin2_cos2 (tiltDeg * DEG)) as H3. unfold Rsqr in *.
  set (sa := sin (lat * DEG)) in *. set (ca := cos (lat * DEG)) in *.
  set (so := sin ((lon + rotDeg) * DEG)) in *. set (co := cos ((lon + rotDeg) * DEG)) in *.
  set (st := sin (tiltDeg * DEG)) in *. set (ct := cos (tiltDeg * DEG)) in *.
  set (z := sa * st + ca * co * ct).
  assert (U : ca * so * (ca * so) + (sa * ct - ca * co * st) * (sa * ct - ca * co * st)
              + z * z = 1).
  { subst z.
    transitivity (sa * sa * (st * st + ct * ct)
                  + ca * ca * (so * so + co * co * (st * st + ct * ct))); [ring|].
    rewrite H3. transitivity (sa * sa + ca * ca * (so * so + co * co)); [ring|].
    rewrite H2. lra. }
  split; [|apply geb_true].
  transitivity (radius * radius
                * (ca * so * (ca * so)
                   + (sa * ct - ca * co * st) * (sa * ct - ca * co * st) + z * z));
    [ring | rewrite U; ring].
Qed.
